(** * joyodb: the parsing and normalisation engine of [joyodb/model.py]

    A shallow embedding of the entity model (Kanji, Reading, Example), of the
    okurigana delimiter, of the inflection classifier, of the example/gloss
    processor and of the note grammar, followed by the theorems that settle
    the properties stated about them.

    Python [str] values are sequences of Unicode code points; they are
    modelled as [list N].  Source literals are written [u "..."], which
    decodes the UTF-8 bytes of the Rocq string literal. *)

From Stdlib Require Import List NArith Lia String Ascii Bool Arith.
From stdpp Require Import gmap list.
Import ListNotations.

(* ===================================================================== *)
(** ** Unicode strings *)
(* ===================================================================== *)

Abbreviation ustring := (list N).

Fixpoint bytes_of (s : string) : list N :=
  match s with
  | EmptyString => []
  | String a s' => N_of_ascii a :: bytes_of s'
  end.

(** UTF-8 decoder for well-formed input (the literals of this file). *)
Fixpoint utf8_decode (bs : list N) : ustring :=
  match bs with
  | [] => []
  | b0 :: r0 =>
    if (b0 <? 128)%N then b0 :: utf8_decode r0
    else match r0 with
    | [] => []
    | b1 :: r1 =>
      if (b0 <? 224)%N then ((b0 - 192) * 64 + (b1 - 128))%N :: utf8_decode r1
      else match r1 with
      | [] => []
      | b2 :: r2 =>
        if (b0 <? 240)%N
        then ((b0 - 224) * 4096 + (b1 - 128) * 64 + (b2 - 128))%N :: utf8_decode r2
        else match r2 with
        | [] => []
        | b3 :: r3 =>
          ((b0 - 240) * 262144 + (b1 - 128) * 4096 + (b2 - 128) * 64 + (b3 - 128))%N
            :: utf8_decode r3
        end
      end
    end
  end.

Definition u (s : string) : ustring := utf8_decode (bytes_of s).
Arguments u s%_string.

(** The single code point of a one-character literal. *)
Definition ch (s : string) : N := hd 0%N (u s).
Arguments ch s%_string.

Definition in_ranges (x : N) (rs : list (N * N)) : bool :=
  existsb (fun r => (fst r <=? x)%N && (x <=? snd r)%N) rs.

(** Script property tables of the Unicode character database, which the
    [regex] module consults for [\p{Han}], [\p{Hiragana}] and [\p{Katakana}]
    (a bare value is looked up as a general category, then as a script). *)
Definition is_han (x : N) : bool :=
  in_ranges x
    [ (0x2E80, 0x2E99); (0x2E9B, 0x2EF3); (0x2F00, 0x2FD5); (0x3005, 0x3005);
      (0x3007, 0x3007); (0x3021, 0x3029); (0x3038, 0x303B); (0x3400, 0x4DBF);
      (0x4E00, 0x9FFF); (0xF900, 0xFA6D); (0xFA70, 0xFAD9); (0x16FE2, 0x16FE3);
      (0x16FF0, 0x16FF1); (0x20000, 0x2A6DF); (0x2A700, 0x2B739);
      (0x2B740, 0x2B81D); (0x2B820, 0x2CEA1); (0x2CEB0, 0x2EBE0);
      (0x2F800, 0x2FA1D); (0x30000, 0x3134A); (0x31350, 0x323AF) ]%N.

Definition is_hiragana (x : N) : bool :=
  in_ranges x
    [ (0x3041, 0x3096); (0x309D, 0x309F); (0x1B001, 0x1B11F); (0x1B132, 0x1B132);
      (0x1B150, 0x1B152); (0x1F200, 0x1F200) ]%N.

Definition is_katakana (x : N) : bool :=
  in_ranges x
    [ (0x30A1, 0x30FA); (0x30FD, 0x30FF); (0x31F0, 0x31FF); (0x32D0, 0x32FE);
      (0x3300, 0x3357); (0xFF66, 0xFF6F); (0xFF71, 0xFF9D); (0x1AFF0, 0x1AFF3);
      (0x1AFF5, 0x1AFFB); (0x1AFFD, 0x1AFFE); (0x1B000, 0x1B000);
      (0x1B120, 0x1B122); (0x1B155, 0x1B155); (0x1B164, 0x1B167) ]%N.

(** [str.isspace], the characters removed by [str.strip()]. *)
Definition is_space (x : N) : bool :=
  in_ranges x
    [ (0x09, 0x0D); (0x1C, 0x20); (0x85, 0x85); (0xA0, 0xA0); (0x1680, 0x1680);
      (0x2000, 0x200A); (0x2028, 0x2029); (0x202F, 0x202F); (0x205F, 0x205F);
      (0x3000, 0x3000) ]%N.

(** The line feed, which [.] does not match and before which [$] matches. *)
Definition LF : N := 10%N.

(* ===================================================================== *)
(** ** Python string operations *)
(* ===================================================================== *)

(** [a == b] on strings. *)
Fixpoint ueqb (a b : ustring) : bool :=
  match a, b with
  | [], [] => true
  | x :: a', y :: b' => (x =? y)%N && ueqb a' b'
  | _, _ => false
  end.

(** [s.startswith(p)] *)
Fixpoint starts_with (p s : ustring) : bool :=
  match p, s with
  | [], _ => true
  | x :: p', y :: s' => (x =? y)%N && starts_with p' s'
  | _ :: _, [] => false
  end.

(** [needle in hay]: substring test. *)
Fixpoint contains (needle hay : ustring) : bool :=
  starts_with needle hay ||
  match hay with
  | [] => false
  | _ :: hay' => contains needle hay'
  end.

(** [s.replace(old, new)] for a non-empty [old]: leftmost non-overlapping
    occurrences.  [skip] counts the characters of an occurrence still to be
    dropped. *)
Fixpoint replace_aux (old new : ustring) (skip : nat) (s : ustring) : ustring :=
  match s with
  | [] => []
  | x :: s' =>
    match skip with
    | S k => replace_aux old new k s'
    | O =>
      if starts_with old s
      then new ++ replace_aux old new (Nat.pred (length old)) s'
      else x :: replace_aux old new 0 s'
    end
  end.

Definition str_replace (old new s : ustring) : ustring := replace_aux old new 0 s.

(** [s.split(sep)] for a one-character separator: never returns an empty
    list. *)
Fixpoint split_on (sep : N) (s : ustring) : list ustring :=
  match s with
  | [] => [[]]
  | x :: s' =>
    if (x =? sep)%N then [] :: split_on sep s'
    else match split_on sep s' with
         | [] => [[x]]
         | w :: ws => (x :: w) :: ws
         end
  end.

Fixpoint lstrip (s : ustring) : ustring :=
  match s with
  | [] => []
  | x :: s' => if is_space x then lstrip s' else s
  end.

(** [s.strip()] *)
Definition strip (s : ustring) : ustring := rev (lstrip (rev (lstrip s))).

(** [s[-n:]]: the last [n] characters (the whole string when [n] is 0 or
    exceeds the length). *)
Definition slice_last (n : nat) (s : ustring) : ustring :=
  match n with
  | O => s
  | S _ => skipn (length s - n) s
  end.

(** [s[0:-n]] for [n >= 1]: everything but the last [n] characters. *)
Definition slice_drop_last (n : nat) (s : ustring) : ustring :=
  firstn (length s - n) s.

(** [l[-n]] for [n >= 1]; [None] stands for IndexError. *)
Definition neg_index {A : Type} (n : nat) (l : list A) : option A :=
  if (n <=? length l)%nat then l !! (length l - n)%nat else None.

(* ===================================================================== *)
(** ** Regular expressions

    The fragment of the [regex] module the program uses: a backtracking
    matcher with greedy repetition and capture groups, [match], [search]
    and [sub], and the compiler from pattern strings for the patterns that
    [delimit_okurigana] assembles at run time. *)
(* ===================================================================== *)

Module Regex.

(** Members of a character set. *)
Inductive citem :=
| CChar (x : N)
| CHan
| CHiragana
| CKatakana.

Inductive re :=
| Eps
| Chr (x : N)                 (* a literal character *)
| Dot                         (* [.]: anything but a line feed *)
| Cls (items : list citem)    (* [[...]] or a bare [\p{...}] *)
| Seq (a b : re)
| Alt (a b : re)              (* [a|b], left first *)
| Star (a : re)               (* greedy [a*] *)
| Plus (a : re)               (* greedy [a+] *)
| Opt (a : re)                (* greedy [a?] *)
| Group (n : nat) (a : re)    (* capture group number [n] *)
| Bol                         (* [^] *)
| Eol.                        (* [$]: at the end, or before a final line feed *)

(** Position reached, input left, groups captured so far. *)
Record mstate := MState { at_ : nat; rest : ustring; caps : list (nat * ustring) }.

Definition item_matches (i : citem) (x : N) : bool :=
  match i with
  | CChar y => (x =? y)%N
  | CHan => is_han x
  | CHiragana => is_hiragana x
  | CKatakana => is_katakana x
  end.

Definition cls_matches (items : list citem) (x : N) : bool :=
  existsb (fun i => item_matches i x) items.

Definition step1 (p : N -> bool) (st : mstate) (k : mstate -> option mstate)
  : option mstate :=
  match rest st with
  | x :: xs => if p x then k (MState (S (at_ st)) xs (caps st)) else None
  | [] => None
  end.

Definition matcher := mstate -> (mstate -> option mstate) -> option mstate.

(** Greedy iteration; an iteration that consumes nothing ends the loop.
    [n] bounds the number of iterations by the input left. *)
Fixpoint star (ma : matcher) (n : nat) (st : mstate) (k : mstate -> option mstate)
  : option mstate :=
  match n with
  | O => k st
  | S n' =>
    match ma st (fun st' =>
                   if (length (rest st') <? length (rest st))%nat
                   then star ma n' st' k else None) with
    | Some r => Some r
    | None => k st
    end
  end.

Fixpoint m (r : re) (st : mstate) (k : mstate -> option mstate) {struct r}
  : option mstate :=
  match r with
  | Eps => k st
  | Chr y => step1 (fun x => (x =? y)%N) st k
  | Dot => step1 (fun x => negb (x =? LF)%N) st k
  | Cls items => step1 (cls_matches items) st k
  | Seq a b => m a st (fun st' => m b st' k)
  | Alt a b => match m a st k with Some r => Some r | None => m b st k end
  | Star a => star (m a) (length (rest st)) st k
  | Plus a => m a st (fun st' => star (m a) (length (rest st')) st' k)
  | Opt a => match m a st k with Some r => Some r | None => k st end
  | Group n a =>
    m a st (fun st' =>
      k (MState (at_ st') (rest st')
                ((n, firstn (at_ st' - at_ st) (rest st)) :: caps st')))
  | Bol => if (at_ st =? 0)%nat then k st else None
  | Eol =>
    match rest st with
    | [] => k st
    | [x] => if (x =? LF)%N then k st else None
    | _ => None
    end
  end.

(** A match attempt at position [p], where [s] is the input from [p] on. *)
Definition match_at (r : re) (p : nat) (s : ustring) : option mstate :=
  m r (MState p s []) Some.

(** [re.match(r, s)] *)
Definition re_match (r : re) (s : ustring) : option mstate := match_at r 0 s.

Fixpoint search_from (r : re) (p : nat) (s : ustring) : option mstate :=
  match match_at r p s with
  | Some st => Some st
  | None =>
    match s with
    | [] => None
    | _ :: s' => search_from r (S p) s'
    end
  end.

(** [re.search(r, s)] *)
Definition re_search (r : re) (s : ustring) : option mstate := search_from r 0 s.

(** [m[n]]: the text of group [n] (the last capture of a repeated group). *)
Fixpoint group (n : nat) (cs : list (nat * ustring)) : ustring :=
  match cs with
  | [] => []
  | (i, s) :: cs' => if (i =? n)%nat then s else group n cs'
  end.

(** [re.sub(r, repl, s)] with a replacement free of backslashes: leftmost
    non-overlapping matches are replaced.  [skip] counts the characters of
    the current match still to be dropped. *)
Fixpoint sub_from (r : re) (repl : ustring) (p skip : nat) (s : ustring) : ustring :=
  match skip with
  | S k =>
    match s with
    | [] => []
    | _ :: s' => sub_from r repl (S p) k s'
    end
  | O =>
    match match_at r p s with
    | Some st =>
      match s with
      | [] => repl
      | x :: s' =>
        match (at_ st - p)%nat with
        | O => repl ++ x :: sub_from r repl (S p) 0 s'
        | S k => repl ++ sub_from r repl (S p) k s'
        end
      end
    | None =>
      match s with
      | [] => []
      | x :: s' => x :: sub_from r repl (S p) 0 s'
      end
    end
  end.

Definition re_sub (r : re) (repl s : ustring) : ustring := sub_from r repl 0 0 s.

(** *** Compiling a pattern string *)

(** [Compiled r]: the pattern compiles to [r]; [BadPattern]: the compiler
    raises [regex.error]; [Unsupported]: the pattern uses syntax outside the
    fragment modelled here (backslash escapes other than the three script
    properties, braces, [(?...)], set ranges and operators, stacked or
    leading quantifiers). *)
Inductive compiled :=
| Compiled (r : re)
| BadPattern
| Unsupported.

Record frame := Frame { f_group : nat; f_alts : list re; f_seq : list re }.

(** Parser state: enclosing groups, finished alternatives and atoms of the
    current branch (both reversed), number of groups opened, and the
    members of the set being read, if any. *)
Record pstate := PState {
  p_stack : list frame;
  p_alts : list re;
  p_seq : list re;
  p_groups : nat;
  p_set : option (list citem)
}.

Definition mk_seq (rev_atoms : list re) : re :=
  fold_left (fun acc a => match acc with Eps => a | _ => Seq a acc end) rev_atoms Eps.

Definition mk_alt (rev_alts : list re) (last : re) : re :=
  fold_left (fun acc a => Alt a acc) rev_alts last.

Definition close_branch (alts seq : list re) : re := mk_alt alts (mk_seq seq).

Definition is_quantified (a : re) : bool :=
  match a with
  | Star _ | Plus _ | Opt _ | Bol | Eol => true
  | _ => false
  end.

Definition push_atom (a : re) (st : pstate) : pstate :=
  PState (p_stack st) (p_alts st) (a :: p_seq st) (p_groups st) None.

Definition push_member (i : citem) (acc : list citem) (st : pstate) : pstate :=
  PState (p_stack st) (p_alts st) (p_seq st) (p_groups st) (Some (acc ++ [i])).

(** The script property named after a backslash, with the length of its
    spelling. *)
Definition script_escape (s : ustring) : option (citem * nat) :=
  if starts_with (u "p{Han}") s then Some (CHan, 6)
  else if starts_with (u "p{Hiragana}") s then Some (CHiragana, 11)
  else if starts_with (u "p{Katakana}") s then Some (CKatakana, 11)
  else None.

(** [skip] counts the characters of an escape still to be passed over. *)
Fixpoint parse (s : ustring) (skip : nat) (st : pstate) : compiled :=
  match s with
  | [] =>
    match p_set st, p_stack st with
    | Some _, _ => BadPattern              (* missing ] *)
    | None, _ :: _ => BadPattern           (* missing ) *)
    | None, [] => Compiled (close_branch (p_alts st) (p_seq st))
    end
  | x :: s' =>
    match skip with
    | S k => parse s' k st
    | O =>
    match p_set st with
    | Some acc =>
      if (x =? ch "]")%N then
        match acc with
        | [] => Unsupported
        | _ => parse s' 0 (push_atom (Cls acc) st)
        end
      else if (x =? ch "\")%N then
        match script_escape s' with
        | Some (i, n) => parse s' n (push_member i acc st)
        | None => Unsupported
        end
      else if existsb (N.eqb x) (u "^-[&|~") then Unsupported
      else parse s' 0 (push_member (CChar x) acc st)
    | None =>
      if (x =? ch "(")%N then
        match s' with
        | y :: _ =>
          if (y =? ch "?")%N then Unsupported
          else parse s' 0 (PState (Frame (S (p_groups st)) (p_alts st) (p_seq st)
                                     :: p_stack st) [] [] (S (p_groups st)) None)
        | [] => BadPattern                 (* missing ) *)
        end
      else if (x =? ch ")")%N then
        match p_stack st with
        | [] => BadPattern                 (* unbalanced parenthesis *)
        | f :: fs =>
          parse s' 0 (PState fs (f_alts f)
                        (Group (f_group f) (close_branch (p_alts st) (p_seq st))
                           :: f_seq f)
                        (p_groups st) None)
        end
      else if (x =? ch "|")%N then
        parse s' 0 (PState (p_stack st) (mk_seq (p_seq st) :: p_alts st) []
                           (p_groups st) None)
      else if existsb (N.eqb x) (u "*+?") then
        match p_seq st with
        | [] => Unsupported
        | a :: atoms =>
          if is_quantified a then Unsupported
          else
            let q := if (x =? ch "*")%N then Star a
                     else if (x =? ch "+")%N then Plus a else Opt a in
            parse s' 0 (PState (p_stack st) (p_alts st) (q :: atoms) (p_groups st) None)
        end
      else if (x =? ch "[")%N then
        parse s' 0 (PState (p_stack st) (p_alts st) (p_seq st) (p_groups st) (Some []))
      else if (x =? ch "\")%N then
        match script_escape s' with
        | Some (i, n) => parse s' n (push_atom (Cls [i]) st)
        | None => Unsupported
        end
      else if existsb (N.eqb x) (u "{}]") then Unsupported
      else if (x =? ch ".")%N then parse s' 0 (push_atom Dot st)
      else if (x =? ch "^")%N then parse s' 0 (push_atom Bol st)
      else if (x =? ch "$")%N then parse s' 0 (push_atom Eol st)
      else parse s' 0 (push_atom (Chr x) st)
    end
    end
  end.

(** [re.compile(pattern)] *)
Definition compile (pattern : ustring) : compiled :=
  parse pattern 0 (PState [] [] [] 0 None).

(** A pattern that is a literal of the source.  All of them compile (see
    [source_patterns_compile]). *)
Definition pattern (s : string) : re :=
  match compile (u s) with
  | Compiled r => r
  | _ => Eps
  end.
Arguments pattern s%_string.

(** The pattern that matches the string [s] literally. *)
Definition lit (s : ustring) : re := mk_seq (rev (map Chr s)).

End Regex.

Import Regex.

(* ===================================================================== *)
(** ** Outcomes of a call *)
(* ===================================================================== *)

(** The exceptions the program can raise. *)
Inductive exn :=
| IndexError
| TypeError
| StopIteration
| AssertionError
| RegexError                    (* [regex.error], from compiling a pattern *)
| ValueError (msg : ustring)
| RuntimeError (msg : ustring).

(** Ways in which the model, not the program, gives no answer. *)
Inductive stuck :=
| OutOfFuel
| UnsupportedPattern
| DanglingRef.

Inductive res (A : Type) :=
| Ret (a : A)
| Raise (e : exn)
| Stuck (why : stuck).
Arguments Ret {A} a.
Arguments Raise {A} e.
Arguments Stuck {A} why.

#[global] Instance res_ret : MRet res := fun A a => Ret a.
#[global] Instance res_bind : MBind res := fun A B f x =>
  match x with
  | Ret a => f a
  | Raise e => Raise e
  | Stuck w => Stuck w
  end.

Definition is_some {A : Type} (o : option A) : bool :=
  match o with Some _ => true | None => false end.

(* ===================================================================== *)
(** ** Suffixes, inflection classes and the okurigana delimiter *)
(* ===================================================================== *)

(** [range(n, 0, -1)] *)
Fixpoint range_down (n : nat) : list nat :=
  match n with
  | O => []
  | S n' => n :: range_down n'
  end.

Definition all_suffixes (string : ustring) : list ustring :=
  map (fun suffix_length => slice_last suffix_length string)
      (range_down (length string)).

Definition GODAN_INFLECTION : list (N * ustring) :=
  [ (ch "う", u "[わえいおう]");
    (ch "く", u "[かけきこく]");
    (ch "ぐ", u "[がげぎごぐ]");
    (ch "す", u "[させしそす]");
    (ch "ず", u "[ざぜじぞず]");
    (ch "つ", u "[たてちとつ]");
    (ch "づ", u "[だでぢどづ]");
    (ch "ぬ", u "[なねにのぬ]");
    (ch "ふ", u "[はへひほふ]");
    (ch "ぶ", u "[ばべびぼぶ]");
    (ch "ぷ", u "[ぱぺぴぽぷ]");
    (ch "む", u "[まめみもむ]");
    (ch "る", u "[られりろる]") ].

(** [GODAN_INFLECTION[last]], when [last in GODAN_INFLECTION.keys()]. *)
Fixpoint dict_get (x : N) (d : list (N * ustring)) : option ustring :=
  match d with
  | [] => None
  | (k, v) :: d' => if (x =? k)%N then Some v else dict_get x d'
  end.

Definition ICHIDAN_BASE_ENDING : ustring :=
  u "[えけげせぜてでねへべぺめれいきぎしじちぢにひびぴみり]".

Definition ICHIDAN_EXCEPTIONS : list ustring := [u "昼"; u "汁"].

(** The members of the set [ICHIDAN_BASE_ENDING]. *)
Definition ichidan_base : ustring :=
  u "えけげせぜてでねへべぺめれいきぎしじちぢにひびぴみり".

(** The compiled form of [ICHIDAN_BASE_ENDING + 'る$'] (see
    [ichidan_re_compiled]). *)
Definition ichidan_re : re :=
  Seq (Cls (map CChar ichidan_base)) (Seq (Chr (ch "る")) Eol).

(** The pattern ['.$'] of the godan substitution. *)
Definition LAST_CHAR : re := Eval vm_compute in pattern ".$".

Definition is_ichidan_verb (kanji canonical_reading : ustring) : bool :=
  if existsb (ueqb kanji) ICHIDAN_EXCEPTIONS then false
  else if is_some (re_search ichidan_re canonical_reading) then true
  else false.

(** [re.search(pattern, example)] as a truth value, for a pattern given as
    a string. *)
Definition search_pattern (pattern example : ustring) : res bool :=
  match compile pattern with
  | Compiled r => Ret (is_some (re_search r example))
  | BadPattern => Raise RegexError
  | Unsupported => Stuck UnsupportedPattern
  end.

(** One iteration of the loop of [delimit_okurigana]: [Some r] when the
    iteration returns [r], [None] when the loop goes on.  The final
    [ok_regex += 'だ'] of the body is a dead store, [ok_regex] being
    assigned afresh at the start of every iteration. *)
Definition try_suffix (kanji canonical_reading example suffix : ustring)
  : res (option ustring) :=
  let prefix := slice_drop_last (length suffix) canonical_reading in
  let found := Ret (Some (prefix ++ u "." ++ suffix)) in
  let ok_regex := kanji ++ suffix in
  match1 ← search_pattern ok_regex example;
  if match1 : bool then found else
  '(match2, ok_regex) ←
    (if is_ichidan_verb kanji canonical_reading
     then let ok_regex := removelast ok_regex in   (* lose the る *)
          match2 ← search_pattern ok_regex example;
          mret (match2, ok_regex)
     else mret (false, ok_regex));
  if match2 : bool then found else
  match neg_index 1 ok_regex with
  | None => Raise IndexError
  | Some last =>
    match dict_get last GODAN_INFLECTION with
    | Some inflected =>
      let ok_regex := re_sub LAST_CHAR inflected ok_regex in
      match3 ← search_pattern ok_regex example;
      if match3 : bool then found else mret None
    | None => mret None
    end
  end.

Fixpoint suffix_loop (kanji canonical_reading example : ustring)
         (suffixes : list ustring) : res ustring :=
  match suffixes with
  | [] => Ret canonical_reading
  | suffix :: suffixes' =>
    r ← try_suffix kanji canonical_reading example suffix;
    match r with
    | Some dotted => Ret dotted
    | None => suffix_loop kanji canonical_reading example suffixes'
    end
  end.

Definition delimit_okurigana (kanji canonical_reading example : ustring)
  : res ustring :=
  if ueqb example kanji then Ret canonical_reading
  else suffix_loop kanji canonical_reading example (all_suffixes canonical_reading).


(* ===================================================================== *)
(** ** The entity model *)
(* ===================================================================== *)

Record Example := mkExample {
  example : ustring;
  pos : option ustring;
  literary : bool
}.

Definition set_literary (b : bool) (e : Example) : Example :=
  mkExample (example e) (pos e) b.

(** The pattern ['^……'] of the suffix marker. *)
Definition SUFFIX_MARK : re := Eval vm_compute in pattern "^……".

(** [Example.__init__] *)
Definition Example_init (example : ustring) : Example :=
  if contains (u "〔副〕") example
  then mkExample (str_replace (u "〔副〕") [] example) (Some (u "Adverb")) false
  else if contains (u "〔接〕") example
  then mkExample (str_replace (u "〔接〕") [] example) (Some (u "Conjunction")) false
  else if is_some (re_match SUFFIX_MARK example)
  then mkExample (str_replace (u "……") [] example) (Some (u "Suffix")) false
  else mkExample example None false.

(** A Reading; its [kanji] field is the one Kanji of the [World] below.
    [rnotes] is the field [notes] of the source. *)
Record Reading := mkReading {
  reading : ustring;
  uncommon : bool;
  examples : list Example;
  kind : ustring;
  variation_of : option ustring;
  rnotes : ustring;
  alternate_orthographies : list ustring
}.

Definition set_reading (v : ustring) (r : Reading) : Reading :=
  mkReading v (uncommon r) (examples r) (kind r) (variation_of r) (rnotes r)
            (alternate_orthographies r).
Definition set_examples (v : list Example) (r : Reading) : Reading :=
  mkReading (reading r) (uncommon r) v (kind r) (variation_of r) (rnotes r)
            (alternate_orthographies r).
Definition set_variation_of (v : option ustring) (r : Reading) : Reading :=
  mkReading (reading r) (uncommon r) (examples r) (kind r) v (rnotes r)
            (alternate_orthographies r).
Definition set_rnotes (v : ustring) (r : Reading) : Reading :=
  mkReading (reading r) (uncommon r) (examples r) (kind r) (variation_of r) v
            (alternate_orthographies r).
Definition set_alternate_orthographies (v : list ustring) (r : Reading) : Reading :=
  mkReading (reading r) (uncommon r) (examples r) (kind r) (variation_of r)
            (rnotes r) v.

(** The pattern of the kind autodetection. *)
Definition KATAKANA : re := Eval vm_compute in pattern "\p{Katakana}".

(** [if kind:] holds for a string that is given and not empty. *)
Definition given (kind : option ustring) : option ustring :=
  match kind with
  | Some (x :: k) => Some (x :: k)
  | _ => None
  end.

(** [Reading.__init__]; [reading[0]] raises IndexError on the empty
    string. *)
Definition Reading_init (reading : ustring) (variation_of kind : option ustring)
  : res Reading :=
  match reading with
  | [] => Raise IndexError
  | first :: tail =>
    let '(reading, uncommon) :=
      if (first =? 0x3000)%N then (tail, true) else (reading, false) in
    let kind :=
      match given kind with
      | Some k => k
      | None => if is_some (re_match KATAKANA reading) then u "On" else u "Kun"
      end in
    Ret (mkReading reading uncommon [] kind variation_of [] [])
  end.

(** The historical forms of a kanji: none, one string, or a list. *)
Inductive old_forms :=
| OldNone
| OldStr (s : ustring)
| OldList (l : list ustring).

(** A Kanji.  [readings] holds references into the store of Reading
    objects, in the order of the list of the source.  The two image file
    handles of the source are not part of the model. *)
Record Kanji := mkKanji {
  kanji : ustring;
  standard_character : option ustring;
  standard_variant : option ustring;
  accepted_variant : option ustring;
  old_kanji : old_forms;
  readings : list nat;
  placename_readings : gmap ustring ustring;
  compound_readings : gmap ustring ustring;
  notes : ustring;
  joyo_documentation : option ustring;
  pending_note : bool
}.

Definition set_readings (v : list nat) (k : Kanji) : Kanji :=
  mkKanji (kanji k) (standard_character k) (standard_variant k) (accepted_variant k)
          (old_kanji k) v (placename_readings k) (compound_readings k) (notes k)
          (joyo_documentation k) (pending_note k).
Definition set_placename_readings (v : gmap ustring ustring) (k : Kanji) : Kanji :=
  mkKanji (kanji k) (standard_character k) (standard_variant k) (accepted_variant k)
          (old_kanji k) (readings k) v (compound_readings k) (notes k)
          (joyo_documentation k) (pending_note k).
Definition set_compound_readings (v : gmap ustring ustring) (k : Kanji) : Kanji :=
  mkKanji (kanji k) (standard_character k) (standard_variant k) (accepted_variant k)
          (old_kanji k) (readings k) (placename_readings k) v (notes k)
          (joyo_documentation k) (pending_note k).
Definition set_notes (v : ustring) (k : Kanji) : Kanji :=
  mkKanji (kanji k) (standard_character k) (standard_variant k) (accepted_variant k)
          (old_kanji k) (readings k) (placename_readings k) (compound_readings k) v
          (joyo_documentation k) (pending_note k).
Definition set_joyo_documentation (v : option ustring) (k : Kanji) : Kanji :=
  mkKanji (kanji k) (standard_character k) (standard_variant k) (accepted_variant k)
          (old_kanji k) (readings k) (placename_readings k) (compound_readings k)
          (notes k) v (pending_note k).
Definition set_pending_note (v : bool) (k : Kanji) : Kanji :=
  mkKanji (kanji k) (standard_character k) (standard_variant k) (accepted_variant k)
          (old_kanji k) (readings k) (placename_readings k) (compound_readings k)
          (notes k) (joyo_documentation k) v.

(** The objects a run works on: one Kanji, and the store of the Reading
    objects whose [kanji] field points to it, in the order of their
    creation.  A Reading is referred to by its index in the store, so that
    [self], the elements of [readings] and [readings[-1]] can alias. *)
Record World := mkWorld {
  the_kanji : Kanji;
  store : list Reading
}.

(** Computations on the world: the world is kept when an exception is
    raised, as the objects of the program are. *)
Definition M (A : Type) : Type := World -> res A * World.

#[global] Instance M_ret : MRet M := fun A a w => (Ret a, w).
#[global] Instance M_bind : MBind M := fun A B f x w =>
  match x w with
  | (Ret a, w') => f a w'
  | (Raise e, w') => (Raise e, w')
  | (Stuck y, w') => (Stuck y, w')
  end.

Definition lift {A : Type} (r : res A) : M A := fun w => (r, w).
Definition raise {A : Type} (e : exn) : M A := fun w => (Raise e, w).

Definition get_kanji : M Kanji := fun w => (Ret (the_kanji w), w).

Definition update_kanji (f : Kanji -> Kanji) : M unit :=
  fun w => (Ret tt, mkWorld (f (the_kanji w)) (store w)).

Definition deref (self : nat) : M Reading := fun w =>
  match store w !! self with
  | Some r => (Ret r, w)
  | None => (Stuck DanglingRef, w)
  end.

Definition update_reading (self : nat) (f : Reading -> Reading) : M unit := fun w =>
  match store w !! self with
  | Some r => (Ret tt, mkWorld (the_kanji w) (<[self := f r]> (store w)))
  | None => (Stuck DanglingRef, w)
  end.

(** A new Reading object. *)
Definition alloc (r : Reading) : M nat := fun w =>
  (Ret (length (store w)), mkWorld (the_kanji w) (store w ++ [r])).

(** [l[-n]], raising IndexError. *)
Definition index_from_end {A : Type} (n : nat) (l : list A) : M A :=
  match neg_index n l with
  | Some x => mret x
  | None => raise IndexError
  end.

(** [Kanji.add_reading] *)
Definition Kanji_add_reading (reading : ustring) (kind variation_of : option ustring)
  : M unit :=
  r ← lift (Reading_init reading variation_of kind);
  new ← alloc r;
  update_kanji (fun k => set_readings (readings k ++ [new]) k).

(** [Kanji.add_examples], given [Reading.add_examples] as [recur]. *)
Definition Kanji_add_examples (recur : nat -> ustring -> M unit) (examples : ustring)
  : M unit :=
  k ← get_kanji;
  last ← index_from_end 1 (readings k);
  recur last examples.

Definition set_old_kanji (v : old_forms) (k : Kanji) : Kanji :=
  mkKanji (kanji k) (standard_character k) (standard_variant k) (accepted_variant k)
          v (readings k) (placename_readings k) (compound_readings k) (notes k)
          (joyo_documentation k) (pending_note k).

(** [Kanji.add_old_kanji].  [if self.old_kanji:] holds for a string and
    for a list that are not empty.  [not self.old_kanji is list] compares
    the value with the type [list] itself and holds every time, so that
    [list(self.old_kanji)] is taken every time: of a string it is the list
    of its characters, of a list a copy. *)
Definition Kanji_add_old_kanji (string : ustring) : M unit :=
  k ← get_kanji;
  let extend (old : list ustring) : M unit :=
    if ueqb (kanji k) (u "弁")
    then update_kanji (set_old_kanji (OldList (old ++ [string])))
    else raise AssertionError in
  match old_kanji k with
  | OldStr (x :: s) => extend (map (fun c => [c]) (x :: s))
  | OldList (x :: l) => extend (x :: l)
  | _ => update_kanji (set_old_kanji (OldStr string))
  end.

(** [rs[-1], rs[-2] = (rs[-2], rs[-1])] on [self.kanji.readings]. *)
Definition swap_last_two : M unit :=
  k ← get_kanji;
  a ← index_from_end 2 (readings k);
  b ← index_from_end 1 (readings k);
  let n := length (readings k) in
  update_kanji (set_readings (<[(n - 2)%nat := b]> (<[(n - 1)%nat := a]> (readings k)))).

(** A loop body either falls through to the next iteration or returns from
    the enclosing function. *)
Inductive flow :=
| Next
| Return.

(** [for x in l: body], where [l] is not changed by the body. *)
Fixpoint for_each {A : Type} (body : A -> M flow) (l : list A) : M flow :=
  match l with
  | [] => mret Next
  | x :: l' =>
    f ← body x;
    match f with
    | Return => mret Return
    | Next => for_each body l'
    end
  end.

(* ===================================================================== *)
(** ** The example and gloss processor *)
(* ===================================================================== *)

Definition QUOTING : re := Eval vm_compute in pattern "「|」|などと使う。".
Definition GLOSS : re := Eval vm_compute in pattern "(.*)（(.*)）$".
Definition SOKUON_TAIL : re := Eval vm_compute in pattern "っ.*".

Section Engine.

(** Modelled from the spec: [popularize], of the package's [__init__.py],
    is the "upstream character-popularization substitution" that normalises
    kanji forms; nothing more is assumed of it. *)
Variable popularize : ustring -> ustring.

(** Modelled from the spec: the tables [popular_alternatives] ("a fixed
    mapping from non-standard code points to their popular-use
    equivalents") and [variants] (the selector strings of the standard and
    of the accepted glyph), which the package loads from its data files. *)
Variable popular_alternatives : gmap ustring ustring.
Variable variants : gmap ustring (ustring * ustring).

(** [Kanji.__init__] *)
Definition Kanji_init (kanji : ustring) : Kanji :=
  let '(shown, standard_character) :=
    match popular_alternatives !! kanji with
    | Some popular => (popular, Some kanji)
    | None => (kanji, None)
    end in
  let '(standard_variant, accepted_variant) :=
    match variants !! kanji with
    | Some (standard, accepted) => (Some standard, Some accepted)
    | None => (None, None)
    end in
  mkKanji shown standard_character standard_variant accepted_variant OldNone []
          ∅ ∅ [] None false.

(** The list of example strings of [add_examples]. *)
Definition split_examples (examples_str : ustring) : list ustring :=
  let examples_str :=
    if contains (u "「") examples_str
    then re_sub QUOTING [] examples_str else examples_str in
  let examples_str := popularize examples_str in
  filter (fun e => e ≠ []) (split_on (ch "，") examples_str).

(** The first loop of [add_examples].  [recur] is [Reading.add_examples]
    itself.  The call of [logging.info] is left out. *)
Fixpoint gloss_loop (recur : nat -> ustring -> M unit) (self : nat)
         (example_strs : list ustring) : M unit :=
  match example_strs with
  | [] => mret tt
  | example :: example_strs' =>
    match re_match GLOSS example with
    | Some gloss_match =>
      let example := group 1 (caps gloss_match) in
      let gloss := group 2 (caps gloss_match) in
      let gloss :=
        if contains (u "っ") gloss then re_sub SOKUON_TAIL (u "っ") gloss else gloss in
      r ← deref self;
      Kanji_add_reading gloss None (Some (reading r));;
      Kanji_add_examples recur example;;
      swap_last_two
    | None =>
      update_reading self (fun r => set_examples (examples r ++ [Example_init example]) r)
    end;;
    gloss_loop recur self example_strs'
  end.

(** The second loop of [add_examples], over [self.examples], which the body
    changes: the iterator holds the index [i] and stops when it is past the
    end of the list as it is then.  The list never grows in the loop, so [n],
    its length at the start, bounds the number of iterations.
    [self.examples.remove(example_obj)] deletes the first element that is
    [example_obj]: Example objects compare by identity and each one is in
    the list once, so it is the element at [i]. *)
Fixpoint okurigana_loop (recur : nat -> ustring -> M unit) (self : nat)
         (n i : nat) (clean_reading : ustring) : M unit :=
  match n with
  | O => mret tt
  | S n' =>
    r ← deref self;
    match examples r !! i with
    | None => mret tt
    | Some example_obj =>
      let example := example example_obj in
      k ← get_kanji;
      new_reading ← lift (delimit_okurigana (kanji k) clean_reading example);
      if contains (u ".") new_reading then
        if ueqb clean_reading (reading r) then
          (* the first time a dotted reading is calculated *)
          update_reading self (set_reading new_reading);;
          okurigana_loop recur self n' (S i) clean_reading
        else if negb (ueqb (reading r) new_reading) then
          update_reading self (fun r => set_examples (delete i (examples r)) r);;
          let '(clean_reading, variation_of) :=
            if ueqb example (u "恐らく")
            then (u "おそらく", Some (u "おそ.れる"))
            else (clean_reading, None) in
          Kanji_add_reading clean_reading None variation_of;;
          Kanji_add_examples recur example;;
          swap_last_two;;
          okurigana_loop recur self n' (S i) clean_reading
        else okurigana_loop recur self n' (S i) clean_reading
      else okurigana_loop recur self n' (S i) clean_reading
    end
  end.

(** [Reading.add_examples].  It calls itself, through [Kanji.add_examples],
    on the readings it creates; [fuel] bounds the depth of these calls. *)
Fixpoint Reading_add_examples (fuel : nat) (self : nat) (examples_str : ustring)
  : M unit :=
  match fuel with
  | O => lift (Stuck OutOfFuel)
  | S fuel' =>
    gloss_loop (Reading_add_examples fuel') self (split_examples examples_str);;
    r ← deref self;
    if ueqb (kind r) (u "Kun") then
      let clean_reading := str_replace (u ".") [] (reading r) in
      okurigana_loop (Reading_add_examples fuel') self (length (examples r)) 0
                     clean_reading
    else mret tt
  end.

(* ===================================================================== *)
(** ** The note grammar *)
(* ===================================================================== *)

Definition ALTERNATE : re := Eval vm_compute in pattern "⇔ *(.+)".
Definition ORTHOGRAPHIES : re := Eval vm_compute in pattern "[\p{Han}\p{Hiragana}，]+".
Definition OPENER : re := Eval vm_compute in pattern "(「.*」，?)+(など)?は，".
Definition CLOSER : re := Eval vm_compute in pattern "(「(.*)」，?)+などと使う。$".
Definition FULL_STOP : re := Eval vm_compute in pattern "。$".
Definition ALSO_WRITTEN : re :=
  Eval vm_compute in pattern "(「[\p{Han}\p{Hiragana}\p{Katakana}]+」,?)+とも(書く)?。".
Definition DIVERTED : re := Eval vm_compute in pattern "「(\p{Han})」.*転用。".
Definition MEANING : re := Eval vm_compute in pattern "「(.*)」.*の意。".
Definition BECOMES : re := Eval vm_compute in pattern "」になる。$".

(** The message of the RuntimeError of an unknown note. *)
Definition unknown_note (string : ustring) : ustring :=
  u "BUG: unknown note format:" ++ [LF] ++ u "  '" ++ string ++ u "'".

Definition half_note : ustring := u "BUG: can't find where to attach half-note.".

(** [e.literary = True] for the first example whose text contains [s];
    [None] when there is none ([next] raises StopIteration). *)
Fixpoint mark_first_literary (s : ustring) (es : list Example) : option (list Example) :=
  match es with
  | [] => None
  | e :: es' =>
    if contains s (example e) then Some (set_literary true e :: es')
    else option_map (cons e) (mark_first_literary s es')
  end.

(** The rules of [Reading.append_to_notes] that follow the hardcoded
    notes. *)
Definition note_rules (self : nat) (string : ustring) : M unit :=
  match re_match ALTERNATE string with
  | Some m =>
    update_reading self (set_rnotes string);;
    (if is_some (re_match ORTHOGRAPHIES (group 1 (caps m)))
     then mret tt else raise AssertionError);;
    update_reading self
      (set_alternate_orthographies (split_on (ch "，") (group 1 (caps m))))
  | None =>
  if is_some (re_match OPENER string) then
    update_reading self (set_rnotes string);;
    if is_some (re_search FULL_STOP string) then mret tt
    else update_kanji (set_pending_note true)
  else if is_some (re_match CLOSER string) then
    update_reading self (set_rnotes string)
  else
  k ← get_kanji;
  if pending_note k && is_some (re_search FULL_STOP string) then
    r ← deref self;
    match rnotes r with
    | _ :: _ =>
      (* the previous half of the note is in this reading *)
      update_reading self (fun r => set_rnotes (rnotes r ++ string) r)
    | [] =>
      previous ← index_from_end 2 (readings k);
      r2 ← deref previous;
      match rnotes r2 with
      | _ :: _ => update_reading previous (fun r => set_rnotes (rnotes r ++ string) r)
      | [] => raise (ValueError half_note)
      end
    end;;
    update_kanji (set_pending_note false)
  else if is_some (re_match ALSO_WRITTEN string) then
    update_reading self (set_rnotes string)
  else if is_some (re_match DIVERTED string) then
    update_reading self (set_rnotes string)
  else if is_some (re_match MEANING string) then
    update_reading self (set_rnotes string)
  else if is_some (re_search BECOMES string) then
    update_reading self (set_rnotes string)
  else raise (RuntimeError (unknown_note string))
  end.

(** [Reading.append_to_notes] *)
Definition Reading_append_to_notes (fuel : nat) (self : nat) (string : ustring)
  : M unit :=
  if ueqb string (u "多く文語の「亡き」で使う。") then
    Reading_add_examples fuel self (u "亡き");;
    update_reading self (fun r =>
      set_examples
        (map (fun e => if contains (u "亡き") (example e)
                       then set_literary true e else e) (examples r)) r);;
    update_reading self (set_rnotes string)
  else if ueqb string (u "「三位一体」，「従三位」は，「サン") then
    update_reading self (set_rnotes string);;
    update_kanji (set_pending_note true)
  else if ueqb string (u "ミイッタイ」，「ジュサンミ」。") then
    k ← get_kanji;
    previous ← index_from_end 2 (readings k);
    update_reading previous (fun r => set_rnotes (rnotes r ++ string) r);;
    update_kanji (set_pending_note false);;
    Kanji_add_reading (u "ミ") None None;;
    k ← get_kanji;
    last ← index_from_end 1 (readings k);
    update_reading last (set_variation_of (Some (u "イ")));;
    k ← get_kanji;
    last ← index_from_end 1 (readings k);
    Reading_add_examples fuel last (u "三位一体，従三位")
  else if ueqb string (u "「春雨」，「小雨」，「霧雨」などは，") then
    update_reading self (set_rnotes string);;
    update_kanji (set_pending_note true)
  else if ueqb string (u "「はるさめ」，「こさめ」，「きりさめ」。") then
    update_reading self (fun r => set_rnotes (rnotes r ++ string) r);;
    update_kanji (set_pending_note false);;
    Kanji_add_reading (u "さめ") None None;;
    k ← get_kanji;
    last ← index_from_end 1 (readings k);
    update_reading last (set_variation_of (Some (u "あめ")));;
    k ← get_kanji;
    last ← index_from_end 1 (readings k);
    Reading_add_examples fuel last (u "春雨，小雨，霧雨")
  else
    (if ueqb string (u "「憂き」は，文語の連体形。") then
       r ← deref self;
       match mark_first_literary (u "憂き") (examples r) with
       | Some es => update_reading self (set_examples es)
       | None => raise StopIteration
       end
     else mret tt);;
    note_rules self string.

Definition ACCEPTED_FORM : re := Eval vm_compute in pattern "［\p{Han}］＝許容字体，".
Definition APPENDIX : re := Eval vm_compute in pattern "＊［(（付）.*)参照］$".
Definition COMPOUND : re :=
  Eval vm_compute in pattern "(お?)([\p{Han}・\p{Hiragana}]+)（(\p{Hiragana}+)）(.*)".
Definition COMPOUND_PART : re :=
  Eval vm_compute in pattern "(お?)([\p{Han}・\p{Hiragana}]+)（(\p{Hiragana}+)）(.*)$".

(** [Kanji.add_placename_reading] *)
Definition Kanji_add_placename_reading (orthography gloss kind : ustring) : M unit :=
  update_kanji (fun k =>
    set_placename_readings (<[orthography := gloss]> (placename_readings k)) k).

(** [Kanji.add_compound_reading] *)
Definition Kanji_add_compound_reading (orthography gloss : ustring) : M unit :=
  update_kanji (fun k =>
    set_compound_readings (<[orthography := gloss]> (compound_readings k)) k).

(** The body of the loop over the parts of a compound note; it ends with
    the [return] of the source. *)
Definition compound_part (part : ustring) : M flow :=
  match re_match COMPOUND_PART part with
  | None => raise TypeError        (* [m[1]] with [m] being [None] *)
  | Some m =>
    let prefix := group 1 (caps m) in
    let orthographies := split_on (ch "・") (group 2 (caps m)) in
    let gloss := group 3 (caps m) in
    let suffix := group 4 (caps m) in
    (if negb (ueqb suffix []) && contains suffix (u "都道府県") then
       for_each (fun ort => Kanji_add_placename_reading ort gloss suffix;; mret Next)
                orthographies
     else
       for_each (fun ort =>
                   Kanji_add_compound_reading (prefix ++ ort ++ suffix)
                                              (prefix ++ gloss ++ suffix);;
                   mret Next)
                orthographies);;
    mret Return
  end.

(** [Kanji.append_to_notes] *)
Definition Kanji_append_to_notes (fuel : nat) (string : ustring) : M unit :=
  let string := strip string in
  let to_reading : M unit :=
    k ← get_kanji;
    last ← index_from_end 1 (readings k);
    Reading_append_to_notes fuel last string in
  if is_some (re_match ACCEPTED_FORM string) then
    update_kanji (set_notes string);;
    update_kanji (set_pending_note true)
  else
  match re_match APPENDIX string with
  | Some m =>
    k ← get_kanji;
    (if pending_note k then
       update_kanji (fun k => set_notes (notes k ++ group 1 (caps m)) k);;
       update_kanji (set_pending_note false)
     else update_kanji (set_notes (group 1 (caps m))));;
    update_kanji (set_joyo_documentation (Some (group 1 (caps m))))
  | None =>
  if is_some (re_match COMPOUND string) then
    update_kanji (set_notes string);;
    f ← for_each compound_part (split_on (ch "，") string);
    match f with
    | Return => mret tt
    | Next => to_reading
    end
  else to_reading
  end.

End Engine.

(* ===================================================================== *)
(** ** Sample entries *)
(* ===================================================================== *)

(** The four popular-use forms named in the docstring of [Kanji]. *)
Definition joyo_popular_alternatives : gmap ustring ustring :=
  {[ u "𠮟" := u "叱"; u "塡" := u "填"; u "剝" := u "剥"; u "頰" := u "頬" ]}.

(** A character-wise [popularize] over that table. *)
Definition joyo_popularize (s : ustring) : ustring :=
  map (fun x => match joyo_popular_alternatives !! [x] with
                | Some [y] => y
                | _ => x
                end) s.

(** A Kanji with the readings of [rs], added in this order. *)
Definition entry (k : string) (rs : list string) : World :=
  fold_left (fun w r => snd (Kanji_add_reading (u r) None None w)) rs
            (mkWorld (Kanji_init joyo_popular_alternatives ∅ (u k)) []).
Arguments entry k%_string rs%_list.

(** 城 with its readings ジョウ and しろ. *)
Definition castle : World := entry "城" ["ジョウ"; "しろ"]%string.

(** The note of the table for 城. *)
Definition castle_note : ustring := u "茨城（いばらき）県，宮城（みやぎ）県".

(** The reading みっ, as [Kanji.add_reading] creates it for the gloss. *)
Definition mitsu : Reading :=
  mkReading (u "みっ") false [] (u "Kun") (Some (u "み")) [] [].

(** The same reading, once it has received its example. *)
Definition mitsu_with_example : Reading :=
  mkReading (u "みっ") false [mkExample (u "三日") None false] (u "Kun")
            (Some (u "み")) [] [].

(** 恐 with キョウ and おそれる, after おそれる has received 恐れる. *)
Definition fear : World :=
  snd (Reading_add_examples joyo_popularize 2 1 (u "恐れる")
         (entry "恐" ["キョウ"; "おそれる"]%string)).

(** 川 with its readings セン and かわ, and the same while a note is
    pending. *)
Definition river : World := entry "川" ["セン"; "かわ"]%string.

Definition river_pending : World :=
  mkWorld (set_pending_note true (the_kanji river)) (store river).

(* ===================================================================== *)
(** ** Notions used in the statements *)
(* ===================================================================== *)

(** The characters with a meaning of their own in a pattern. *)
Definition metachar (x : N) : bool := existsb (N.eqb x) (u "\^$.|?*+()[]{}").

(** A string that, taken as a pattern, stands for itself. *)
Definition plain (s : ustring) : bool := forallb (fun x => negb (metachar x)) s.

(** The pattern that matches the string [s] and then what [acc] matches. *)
Definition lit_then (s : ustring) (acc : re) : re :=
  fold_left (fun acc a => match acc with Eps => a | _ => Seq a acc end)
            (rev (map Chr s)) acc.

(** The inflected forms that the class of a godan ending stands for: the
    characters between its brackets. *)
Definition godan_forms (last : N) : ustring :=
  match dict_get last GODAN_INFLECTION with
  | Some cls => removelast (tail cls)
  | None => []
  end.

(** The dotted reading that [try_suffix] returns when a probe matches. *)
Definition dotted (r suffix : ustring) : ustring :=
  slice_drop_last (length suffix) r ++ u "." ++ suffix.

(** The shape of a match of [[set]y$] at the start of [s]. *)
Definition set_char_end (set : ustring) (y : N) (s : ustring) : bool :=
  match s with
  | a :: b :: tl =>
    existsb (N.eqb a) set && (b =? y)%N &&
    match tl with
    | [] => true
    | [z] => (z =? LF)%N
    | _ => false
    end
  | _ => false
  end.

(** After the words of the specification: the reading "ends in one of
    a fixed set of kana characters immediately followed by the verbal
    ending syllable". *)
Definition ends_in_ichidan_shape (rd : ustring) : Prop :=
  exists stem x, In x ichidan_base /\ rd = stem ++ [x; ch "る"].

(** A reading that begins neither with the ideographic space nor with a
    katakana is stored as it is and autodetected as Kun. *)
Definition kun_kana (s : ustring) : bool :=
  match s with
  | x :: _ => negb (x =? 0x3000)%N && negb (is_katakana x)
  | [] => false
  end.

(** An example string that stands for itself: one example, without gloss
    and without part-of-speech marker. *)
Definition simple_example (popularize : ustring -> ustring) (e : ustring) : Prop :=
  split_examples popularize e = [e] /\ re_match GLOSS e = None /\
  Example_init e = mkExample e None false.

(** A reading [r] once it holds the example [e1] and the split [d1]. *)
Definition after_first (d1 e1 : ustring) (r : Reading) : Reading :=
  set_reading d1 (set_examples [mkExample e1 None false] r).

(** The world once the reading [self] has received its first example. *)
Definition world_after_first (d1 e1 : ustring) (self : nat) (r : Reading) (w : World)
  : World :=
  mkWorld (the_kanji w) (<[self := after_first d1 e1 r]> (store w)).

(** The reading created for a disputed example, and what it becomes once
    it has received that example. *)
Definition created (clean : ustring) : Reading :=
  mkReading clean false [] (u "Kun") None [] [].
Definition variant (clean d2 e2 : ustring) : Reading :=
  set_reading d2 (set_examples [mkExample e2 None false] (created clean)).

(** The world once the disputed example has been moved. *)
Definition world_after_second (clean d1 d2 e1 e2 : ustring) (self : nat)
           (rs : list nat) (r : Reading) (w : World) : World :=
  mkWorld (set_readings (rs ++ [length (store w); self]) (the_kanji w))
          (<[self := after_first d1 e1 r]> (store w) ++ [variant clean d2 e2]).

(** The exceptions that indexing and pattern compilation raise. *)
Definition benign (e : exn) : Prop := e = IndexError \/ e = RegexError.

(** A computation that raises benign exceptions only. *)
Definition mild {A : Type} (x : M A) : Prop :=
  forall w e w', x w = (Raise e, w') -> benign e.

(** The hardcoded notes that return without going through the rules. *)
Definition hardcoded_notes : list ustring :=
  [ u "多く文語の「亡き」で使う。";
    u "「三位一体」，「従三位」は，「サン";
    u "ミイッタイ」，「ジュサンミ」。";
    u "「春雨」，「小雨」，「霧雨」などは，";
    u "「はるさめ」，「こさめ」，「きりさめ」。" ].

(** None of the rules tried before the continuation rule takes the line. *)
Definition no_earlier_rule (string : ustring) : bool :=
  negb (existsb (ueqb string) hardcoded_notes) &&
  negb (is_some (re_match ALTERNATE string)) &&
  negb (is_some (re_match OPENER string)) &&
  negb (is_some (re_match CLOSER string)).

(** The continuation rule takes the line. *)
Definition continuation (w : World) (string : ustring) : bool :=
  pending_note (the_kanji w) && is_some (re_search FULL_STOP string).

(** None of the rules tried after the continuation rule takes the line. *)
Definition no_later_rule (string : ustring) : bool :=
  negb (is_some (re_match ALSO_WRITTEN string)) &&
  negb (is_some (re_match DIVERTED string)) &&
  negb (is_some (re_match MEANING string)) &&
  negb (is_some (re_search BECOMES string)).

(** The reading [r] has no note, and the second-to-last reading exists and
    has none either. *)
Definition no_open_note (w : World) (r : Reading) : bool :=
  ueqb (rnotes r) [] &&
  match neg_index 2 (readings (the_kanji w)) with
  | Some previous =>
    match store w !! previous with
    | Some r2 => ueqb (rnotes r2) []
    | None => false
    end
  | None => false
  end.

(** What the rules answer, read off the world before the call. *)
Definition note_rules_status (w : World) (r : Reading) (string : ustring) : res unit :=
  match re_match ALTERNATE string with
  | Some m =>
    if is_some (re_match ORTHOGRAPHIES (group 1 (caps m))) then Ret tt
    else Raise AssertionError
  | None =>
    if is_some (re_match OPENER string) then Ret tt
    else if is_some (re_match CLOSER string) then Ret tt
    else if continuation w string then
      match rnotes r with
      | _ :: _ => Ret tt
      | [] =>
        match neg_index 2 (readings (the_kanji w)) with
        | None => Raise IndexError
        | Some previous =>
          match store w !! previous with
          | None => Stuck DanglingRef
          | Some r2 =>
            match rnotes r2 with
            | _ :: _ => Ret tt
            | [] => Raise (ValueError half_note)
            end
          end
        end
      end
    else if is_some (re_match ALSO_WRITTEN string) then Ret tt
    else if is_some (re_match DIVERTED string) then Ret tt
    else if is_some (re_match MEANING string) then Ret tt
    else if is_some (re_search BECOMES string) then Ret tt
    else Raise (RuntimeError (unknown_note string))
  end.

(** The reading of reference [i], if there is one, has a note. *)
Definition has_note (w : World) (i : option nat) : bool :=
  match i with
  | Some i =>
    match store w !! i with
    | Some r => negb (ueqb (rnotes r) [])
    | None => false
    end
  | None => false
  end.

(** After the words of the specification: "pendingNote is true and the
    line ends in a sentence-final marker", and neither the current reading
    nor the second-to-last reading has an open note. *)
Definition claimed_broken_continuation (w : World) (self : nat) (string : ustring) : bool :=
  pending_note (the_kanji w) &&
  match last string with
  | Some x => (x =? ch "。")%N
  | None => false
  end &&
  negb (has_note w (Some self)) &&
  negb (has_note w (neg_index 2 (readings (the_kanji w)))).

(* ===================================================================== *)
(** ** Notions used in the further properties *)
(* ===================================================================== *)

(** A reading without its okurigana dots, as [add_examples] computes it. *)
Definition undot (s : ustring) : ustring := str_replace (u ".") [] s.

(** From [w] to [w'] no Reading object is lost, and the list of readings
    gains exactly the Reading objects created in between, each of them
    once. *)
Definition registry_evolves (w w' : World) : Prop :=
  (length (store w) <= length (store w'))%nat /\
  readings (the_kanji w') ≡ₚ
    readings (the_kanji w) ++
    seq (length (store w)) (length (store w') - length (store w)).

(** From [w] to [w'] the registry evolves, the kanji changes within [QK]
    and every Reading that exists changes within [Q]. *)
Definition evolves (QK : Kanji -> Kanji -> Prop) (Q : Reading -> Reading -> Prop)
           (w w' : World) : Prop :=
  registry_evolves w w' /\
  QK (the_kanji w) (the_kanji w') /\
  forall i r, store w !! i = Some r -> exists r', store w' !! i = Some r' /\ Q r r'.

(** Whatever the outcome of [x] from [w], the worlds are related by [R]. *)
Definition keeps {A : Type} (R : World -> World -> Prop) (x : M A) (w : World) : Prop :=
  forall o w', x w = (o, w') -> R w w'.

(** The references of the list of readings are distinct and point into
    the store. *)
Definition well_formed (w : World) : Prop :=
  NoDup (readings (the_kanji w)) /\
  forall i, i ∈ readings (the_kanji w) -> (i < length (store w))%nat.

(** Two kanji that differ in their list of readings at most. *)
Definition same_but_readings (k k' : Kanji) : Prop := set_readings (readings k) k' = k.

(** Two readings that differ in their okurigana dot and in their examples
    at most. *)
Definition same_but_dot_and_examples (r r' : Reading) : Prop :=
  undot (reading r') = undot (reading r) /\
  uncommon r' = uncommon r /\ kind r' = kind r /\
  variation_of r' = variation_of r /\ rnotes r' = rnotes r /\
  alternate_orthographies r' = alternate_orthographies r.

(** Two kanji with the same character and forms. *)
Definition same_character (k k' : Kanji) : Prop :=
  kanji k' = kanji k /\ standard_character k' = standard_character k /\
  standard_variant k' = standard_variant k /\
  accepted_variant k' = accepted_variant k /\ old_kanji k' = old_kanji k.

(** Two readings with the same kana (okurigana dot apart), mark and kind. *)
Definition same_sound (r r' : Reading) : Prop :=
  undot (reading r') = undot (reading r) /\
  uncommon r' = uncommon r /\ kind r' = kind r.

(** Two kanji that differ in their tables of placename and of compound
    readings at most. *)
Definition same_but_tables (k k' : Kanji) : Prop :=
  set_compound_readings (compound_readings k)
    (set_placename_readings (placename_readings k) k') = k.

(** The line opens a note that goes on in the next line: the opener rule of
    [Reading.append_to_notes] takes it, and it does not end in 。 *)
Definition opens_note (string : ustring) : bool :=
  negb (existsb (ueqb string) hardcoded_notes) &&
  negb (is_some (re_match ALTERNATE string)) &&
  is_some (re_match OPENER string) &&
  negb (is_some (re_search FULL_STOP string)).

(** The line ends a note: no rule before the continuation rule takes it,
    and it ends in 。 *)
Definition closes_note (string : ustring) : bool :=
  no_earlier_rule string && is_some (re_search FULL_STOP string).

(** No example of the list carries a gloss in brackets. *)
Definition no_gloss (example_strs : list ustring) : bool :=
  forallb (fun e => negb (is_some (re_match GLOSS e))) example_strs.

(** The example makes [delimit_okurigana] put a dot into the reading. *)
Definition yields_dot (k clean : ustring) (ex : Example) : bool :=
  match delimit_okurigana k clean (example ex) with
  | Ret d' => contains (u ".") d'
  | _ => false
  end.

(** The example agrees with the delimited reading [d]: it yields [d], or no
    dot at all. *)
Definition agrees (k clean d : ustring) (ex : Example) : bool :=
  match delimit_okurigana k clean (example ex) with
  | Ret d' => negb (contains (u ".") d') || ueqb d' d
  | _ => false
  end.

(** The text starts with a kanji, a hiragana or the comma ，: what the
    pattern of the orthographies asks of the text it is matched with. *)
Definition admissible_start (s : ustring) : bool :=
  match s with
  | x :: _ => cls_matches [CHan; CHiragana; CChar (ch "，")] x
  | [] => false
  end.

(* ===================================================================== *)
(** * Properties *)
(* ===================================================================== *)

(** ** Strings *)

Lemma ueqb_spec (a b : ustring) : ueqb a b = true <-> a = b.
Proof.
  revert b; induction a as [|x a IH]; intros [|y b]; simpl; try (split; congruence).
  rewrite andb_true_iff, N.eqb_eq, IH. split; [intros [-> ->]|intros [= -> ->]]; auto.
Qed.

Lemma ueqb_refl (a : ustring) : ueqb a a = true.
Proof. now apply ueqb_spec. Qed.

Lemma ueqb_neq (a b : ustring) : ueqb a b = false <-> a <> b.
Proof.
  rewrite <- ueqb_spec. destruct (ueqb a b); split; congruence.
Qed.

(** ** The patterns of the source *)

(** Every pattern literal of the source is in the fragment that [compile]
    reads, and compiles to the expression used for it. *)
Lemma source_patterns_compile :
  compile (u ".$") = Compiled LAST_CHAR /\
  compile (u "^……") = Compiled SUFFIX_MARK /\
  compile (u "\p{Katakana}") = Compiled KATAKANA /\
  compile (u "「|」|などと使う。") = Compiled QUOTING /\
  compile (u "(.*)（(.*)）$") = Compiled GLOSS /\
  compile (u "っ.*") = Compiled SOKUON_TAIL /\
  compile (u "⇔ *(.+)") = Compiled ALTERNATE /\
  compile (u "[\p{Han}\p{Hiragana}，]+") = Compiled ORTHOGRAPHIES /\
  compile (u "(「.*」，?)+(など)?は，") = Compiled OPENER /\
  compile (u "(「(.*)」，?)+などと使う。$") = Compiled CLOSER /\
  compile (u "。$") = Compiled FULL_STOP /\
  compile (u "(「[\p{Han}\p{Hiragana}\p{Katakana}]+」,?)+とも(書く)?。") = Compiled ALSO_WRITTEN /\
  compile (u "「(\p{Han})」.*転用。") = Compiled DIVERTED /\
  compile (u "「(.*)」.*の意。") = Compiled MEANING /\
  compile (u "」になる。$") = Compiled BECOMES /\
  compile (u "［\p{Han}］＝許容字体，") = Compiled ACCEPTED_FORM /\
  compile (u "＊［(（付）.*)参照］$") = Compiled APPENDIX /\
  compile (u "(お?)([\p{Han}・\p{Hiragana}]+)（(\p{Hiragana}+)）(.*)") = Compiled COMPOUND /\
  compile (u "(お?)([\p{Han}・\p{Hiragana}]+)（(\p{Hiragana}+)）(.*)$") = Compiled COMPOUND_PART.
Proof. repeat split; vm_compute; reflexivity. Qed.

(** ** [all_suffixes] *)

Lemma range_down_length (n : nat) : length (range_down n) = n.
Proof. induction n; simpl; congruence. Qed.

Lemma range_down_lookup (n i : nat) :
  (i < n)%nat -> range_down n !! i = Some (n - i)%nat.
Proof.
  revert i; induction n as [|n IH]; intros i Hi; [lia|].
  destruct i as [|i]; simpl; [reflexivity|]. apply IH. lia.
Qed.

Lemma all_suffixes_length (s : ustring) : length (all_suffixes s) = length s.
Proof. unfold all_suffixes. now rewrite length_map, range_down_length. Qed.

Lemma all_suffixes_lookup (s : ustring) (i : nat) :
  (i < length s)%nat -> all_suffixes s !! i = Some (drop i s).
Proof.
  intros Hi. unfold all_suffixes.
  rewrite list_lookup_fmap, range_down_lookup by assumption. simpl.
  unfold slice_last. destruct (length s - i)%nat eqn:E; [lia|].
  do 2 f_equal. lia.
Qed.

Lemma all_suffixes_elem (s x : ustring) :
  x ∈ all_suffixes s ->
  exists i, (i < length s)%nat /\ x = drop i s.
Proof.
  intros [i Hi]%list_elem_of_lookup.
  assert (i < length s)%nat as Hlt.
  { rewrite <- all_suffixes_length. eapply lookup_lt_Some; eauto. }
  rewrite all_suffixes_lookup in Hi by assumption. exists i. split; congruence.
Qed.

(** C8.  For every non-empty string S, [all_suffixes S] has exactly
    [len(S)] elements; its element of index [i] is S without its first [i]
    characters, so the sequence runs from S itself down to the final
    character, every element is a non-empty suffix of S, and the lengths
    decrease by one at each step. *)
Theorem all_suffixes_longest_first (s : ustring) :
  s <> [] ->
  length (all_suffixes s) = length s /\
  (forall i, (i < length s)%nat -> all_suffixes s !! i = Some (drop i s)) /\
  head (all_suffixes s) = Some s /\
  last (all_suffixes s) = (fun x => [x]) <$> last s /\
  (forall x, x ∈ all_suffixes s -> x <> [] /\ x `suffix_of` s) /\
  (forall i x, all_suffixes s !! i = Some x -> length x = (length s - i)%nat).
Proof.
  intros Hne.
  assert (0 < length s)%nat as Hpos by (destruct s; simpl; [congruence|lia]).
  split; [apply all_suffixes_length|].
  split; [intros; now apply all_suffixes_lookup|].
  split.
  { rewrite head_lookup, all_suffixes_lookup by assumption. reflexivity. }
  split.
  { rewrite !last_lookup, all_suffixes_length.
    rewrite all_suffixes_lookup by lia.
    destruct (s !! Nat.pred (length s)) as [x|] eqn:E.
    - simpl. f_equal. 
      apply (drop_S s x) in E as E'.
      rewrite E'. f_equal. rewrite drop_ge; [reflexivity|lia].
    - apply lookup_ge_None in E. lia. }
  split.
  - intros x [i [Hi ->]]%all_suffixes_elem. split.
    + intros E. apply (f_equal length) in E. rewrite length_drop in E. simpl in E. lia.
    + apply suffix_drop.
  - intros i x Hx.
    assert (i < length s)%nat as Hlt.
    { rewrite <- all_suffixes_length. eapply lookup_lt_Some; eauto. }
    rewrite all_suffixes_lookup in Hx by assumption.
    injection Hx as <-. apply length_drop.
Qed.

Lemma all_suffixes_longest_first_witness :
  u "abcde" <> [] /\
  all_suffixes (u "abcde") = [u "abcde"; u "bcde"; u "cde"; u "de"; u "e"] /\
  length (all_suffixes (u "abcde")) = length (u "abcde").
Proof.
  assert (u "abcde" <> []) as H by (vm_compute; discriminate).
  split; [exact H|]. split; [vm_compute; reflexivity|].
  exact (proj1 (all_suffixes_longest_first (u "abcde") H)).
Defined.

(** ** The okurigana delimiter on the bare kanji *)

(** C7.  For every kanji k and every canonical reading r, whether or not r
    already holds the delimiter dot, [delimit_okurigana(k, r, k)] returns r
    unchanged: the example being the bare kanji, no split is attempted. *)
Theorem delimit_okurigana_bare_kanji (k r : ustring) :
  delimit_okurigana k r k = Ret r.
Proof. unfold delimit_okurigana. now rewrite ueqb_refl. Qed.

(** ** The constructor of Reading *)

Lemma match_katakana (s : ustring) :
  is_some (re_match KATAKANA s) =
  match s with
  | x :: _ => is_katakana x
  | [] => false
  end.
Proof.
  destruct s as [|x s]; [reflexivity|].
  unfold re_match, match_at, KATAKANA. simpl. unfold step1. simpl.
  rewrite orb_false_r. now destruct (is_katakana x).
Qed.

(** C10.  A Reading constructed from a (non-empty) raw string without an
    explicit kind: when the raw string begins with the ideographic space
    U+3000, that one character is stripped from the stored reading and
    [uncommon] is true, otherwise the reading is stored as it is and
    [uncommon] is false; the kind is 'On' exactly when the stored reading
    begins with a katakana code point and 'Kun' otherwise, never a third
    kind.  The other fields start empty. *)
Theorem Reading_init_autodetect (raw : ustring) (variation : option ustring) :
  raw <> [] ->
  exists r,
    Reading_init raw variation None = Ret r /\
    (reading r, uncommon r) =
      match raw with
      | x :: tail => if (x =? 0x3000)%N then (tail, true) else (raw, false)
      | [] => (raw, false)
      end /\
    kind r =
      match reading r with
      | x :: _ => if is_katakana x then u "On" else u "Kun"
      | [] => u "Kun"
      end /\
    (kind r = u "On" \/ kind r = u "Kun") /\
    variation_of r = variation /\ examples r = [] /\ rnotes r = [] /\
    alternate_orthographies r = [].
Proof.
  intros Hne. destruct raw as [|x tail]; [congruence|].
  unfold Reading_init.
  destruct (x =? 0x3000)%N eqn:E; simpl given; cbv iota beta;
    eexists; (split; [reflexivity|]); simpl reading; simpl kind;
    rewrite match_katakana.
  - repeat split; try reflexivity.
    + destruct tail as [|y tail]; [reflexivity|]. now destruct (is_katakana y).
    + destruct tail as [|y tail]; [now right|]. destruct (is_katakana y); auto.
  - repeat split; try reflexivity. destruct (is_katakana x); auto.
Qed.

Lemma Reading_init_autodetect_witness :
  exists r,
    Reading_init (u "　ジョウ") None None = Ret r /\
    reading r = u "ジョウ" /\ uncommon r = true /\ kind r = u "On".
Proof.
  assert (u "　ジョウ" <> []) as H by (vm_compute; discriminate).
  destruct (Reading_init_autodetect (u "　ジョウ") None H) as (r & Hr & Hru & Hk & _).
  exists r. split; [exact Hr|].
  vm_compute in Hr. injection Hr as <-. vm_compute. auto.
Defined.

(** ** The inflection classifier *)

Lemma cls_matches_chars (l : ustring) (x : N) :
  cls_matches (map CChar l) x = existsb (N.eqb x) l.
Proof.
  unfold cls_matches. induction l as [|y l IH]; simpl; [reflexivity|].
  now rewrite IH.
Qed.

Lemma existsb_eqb_In (x : N) (l : ustring) : existsb (N.eqb x) l = true <-> In x l.
Proof.
  rewrite existsb_exists. split.
  - intros (y & Hy & ->%N.eqb_eq). exact Hy.
  - intros H. exists x. split; [exact H|apply N.eqb_refl].
Qed.

Lemma match_at_set_char_end (set : ustring) (y : N) (p : nat) (s : ustring) :
  is_some (match_at (Seq (Cls (map CChar set)) (Seq (Chr y) Eol)) p s) =
  set_char_end set y s.
Proof.
  unfold match_at. simpl. unfold step1. simpl.
  destruct s as [|a [|b tl]]; simpl; try reflexivity.
  - rewrite cls_matches_chars. now destruct (existsb (N.eqb a) set).
  - rewrite cls_matches_chars. destruct (existsb (N.eqb a) set); [|reflexivity].
    simpl. destruct (b =? y)%N; [|reflexivity]. simpl.
    destruct tl as [|z [|? ?]]; try reflexivity. now destruct (z =? LF)%N.
Qed.

Lemma search_from_some (r : re) (p : nat) (s : ustring) :
  is_some (search_from r p s) = true <->
  exists i, (i <= length s)%nat /\ is_some (match_at r (p + i) (drop i s)) = true.
Proof.
  revert p; induction s as [|x s IH]; intros p; simpl.
  - destruct (match_at r p []) eqn:E; simpl.
    + split; [intros _|reflexivity]. exists 0%nat. rewrite Nat.add_0_r. simpl.
      rewrite E. auto.
    + split; [discriminate|]. intros (i & Hi & H).
      assert (i = 0)%nat as -> by lia. rewrite Nat.add_0_r in H. simpl in H.
      now rewrite E in H.
  - destruct (match_at r p (x :: s)) eqn:E; simpl.
    + split; [intros _|reflexivity]. exists 0%nat. rewrite Nat.add_0_r. simpl.
      rewrite E. split; [lia|reflexivity].
    + rewrite IH. split.
      * intros (i & Hi & H). exists (S i). split; [lia|].
        now rewrite Nat.add_succ_r.
      * intros (i & Hi & H). destruct i as [|i].
        -- rewrite Nat.add_0_r in H. simpl in H. now rewrite E in H.
        -- exists i. split; [lia|]. now rewrite Nat.add_succ_r in H.
Qed.

Lemma set_char_end_spec (set : ustring) (y : N) (s : ustring) :
  set_char_end set y s = true <->
  exists x, In x set /\ (s = [x; y] \/ s = [x; y; LF]).
Proof.
  unfold set_char_end. split.
  - destruct s as [|a [|b tl]]; try discriminate.
    rewrite !andb_true_iff, existsb_eqb_In, N.eqb_eq.
    intros [[Ha ->] Htl]. exists a. split; [exact Ha|].
    destruct tl as [|z [|? ?]]; try discriminate; [now left|].
    apply N.eqb_eq in Htl as ->. now right.
  - intros (x & Hx & [-> | ->]);
      rewrite !andb_true_iff, existsb_eqb_In, N.eqb_eq; auto.
Qed.

Lemma search_ichidan (rd : ustring) :
  is_some (re_search ichidan_re rd) = true <->
  ends_in_ichidan_shape rd \/
  exists rd', rd = rd' ++ [LF] /\ ends_in_ichidan_shape rd'.
Proof.
  unfold re_search, ichidan_re. rewrite search_from_some. split.
  - intros (i & Hi & H). rewrite match_at_set_char_end in H.
    apply set_char_end_spec in H as (x & Hx & [E | E]).
    + left. exists (take i rd), x. split; [exact Hx|].
      now rewrite <- E, take_drop.
    + right. exists (take i rd ++ [x; ch "る"]). split.
      * rewrite <- app_assoc. simpl. now rewrite <- E, take_drop.
      * exists (take i rd), x. auto.
  - intros [(stem & x & Hx & ->) | (rd' & -> & stem & x & Hx & ->)].
    + exists (length stem). split; [rewrite length_app; lia|].
      rewrite match_at_set_char_end, drop_app_length.
      apply set_char_end_spec. eauto.
    + exists (length stem). split; [rewrite !length_app; lia|].
      rewrite match_at_set_char_end, <- app_assoc, drop_app_length.
      apply set_char_end_spec. exists x. simpl. auto.
Qed.

Lemma in_exceptions (k : ustring) :
  existsb (ueqb k) ICHIDAN_EXCEPTIONS = true <-> In k ICHIDAN_EXCEPTIONS.
Proof.
  rewrite existsb_exists. split.
  - intros (y & Hy & ->%ueqb_spec). exact Hy.
  - intros H. exists k. split; [exact H|apply ueqb_refl].
Qed.

(** The source builds the pattern of the classifier from its constants. *)
Lemma ichidan_re_compiled :
  compile (ICHIDAN_BASE_ENDING ++ u "る$") = Compiled ichidan_re.
Proof. vm_compute. reflexivity. Qed.

(** C5, as stated, fails on a reading that ends in a line feed: the [$] of
    the pattern also matches before a final line feed, so the classifier
    answers true for a reading that does not end in the verbal ending. *)
Lemma is_ichidan_verb_trailing_line_feed :
  is_ichidan_verb (u "食") (u "たべる" ++ [LF]) = true /\
  ~ In (u "食") ICHIDAN_EXCEPTIONS /\
  ~ ends_in_ichidan_shape (u "たべる" ++ [LF]).
Proof.
  split; [vm_compute; reflexivity|]. split.
  - vm_compute. intros [H|[H|[]]]; discriminate H.
  - intros (stem & x & _ & E). apply (f_equal (@rev N)) in E.
    rewrite (rev_app_distr stem) in E. vm_compute in E. discriminate E.
Qed.

(** C5, amended.  [is_ichidan_verb(kanji, reading)] is false for every
    kanji of the exception list 昼, 汁 whatever the reading, and otherwise
    true exactly when the reading, a single final line feed apart, ends in
    one of the fixed e/i-row kana immediately followed by る; it is true
    for 食 たべる and for 干 ひる, false for 飲 のむ and for 昼 ひる. *)
Theorem is_ichidan_verb_spec :
  (forall k rd,
     is_ichidan_verb k rd = true <->
     ~ In k ICHIDAN_EXCEPTIONS /\
     (ends_in_ichidan_shape rd \/
      exists rd', rd = rd' ++ [LF] /\ ends_in_ichidan_shape rd')) /\
  (forall k rd, In k [u "昼"; u "汁"] -> is_ichidan_verb k rd = false) /\
  is_ichidan_verb (u "食") (u "たべる") = true /\
  is_ichidan_verb (u "飲") (u "のむ") = false /\
  is_ichidan_verb (u "干") (u "ひる") = true /\
  is_ichidan_verb (u "昼") (u "ひる") = false.
Proof.
  split; [|split].
  - intros k rd. unfold is_ichidan_verb.
    destruct (existsb (ueqb k) ICHIDAN_EXCEPTIONS) eqn:E.
    + apply in_exceptions in E. split; [discriminate|]. intros [H _]. contradiction.
    + assert (~ In k ICHIDAN_EXCEPTIONS) as Hk.
      { intros H%in_exceptions. congruence. }
      rewrite <- search_ichidan.
      destruct (is_some (re_search ichidan_re rd)); split; auto.
      * intros [_ H]. discriminate.
  - intros k rd Hk. unfold is_ichidan_verb.
    change [u "昼"; u "汁"] with ICHIDAN_EXCEPTIONS in Hk.
    apply in_exceptions in Hk. now rewrite Hk.
  - repeat split; vm_compute; reflexivity.
Qed.

(** ** The compound rule of the kanji-scoped notes *)

Lemma compound_part_returns (part : ustring) (w w' : World) :
  compound_part part w <> (Ret Next, w').
Proof.
  unfold compound_part. destruct (re_match COMPOUND_PART part) as [m|].
  - unfold mbind, M_bind.
    match goal with |- context [match ?x with _ => _ end] => destruct x as [[[]| |] ?] end;
      discriminate.
  - discriminate.
Qed.

(** C1 does not hold of the code.  The loop over the comma-separated
    segments of a compound note ends its first iteration with [return], so
    the loop over any list of segments does what the loop over its first
    segment does; with the note of 城, 茨城 is registered as a placename
    reading and 宮城 is registered nowhere. *)
Theorem compound_note_first_segment_only :
  (forall part parts w,
     for_each compound_part (part :: parts) w = for_each compound_part [part] w) /\
  (forall popularize fuel,
     let out := Kanji_append_to_notes popularize fuel castle_note castle in
     fst out = Ret tt /\
     split_on (ch "，") castle_note = [u "茨城（いばらき）県"; u "宮城（みやぎ）県"] /\
     placename_readings (the_kanji (snd out)) !! u "茨城" = Some (u "いばらき") /\
     placename_readings (the_kanji (snd out)) !! u "宮城" = None /\
     compound_readings (the_kanji (snd out)) !! u "宮城県" = None /\
     compound_readings (the_kanji (snd out)) !! u "宮城" = None).
Proof.
  split.
  - intros part parts w. simpl. unfold mbind, M_bind.
    destruct (compound_part part w) as [[[]| |] w'] eqn:E; try reflexivity.
    now apply compound_part_returns in E.
  - intros popularize fuel. vm_compute. repeat split; reflexivity.
Qed.

(** ** Patterns made of ordinary characters *)

Lemma plain_app (s t : ustring) : plain (s ++ t) = plain s && plain t.
Proof. apply forallb_app. Qed.

Lemma plain_drop (i : nat) (s : ustring) : plain s = true -> plain (drop i s) = true.
Proof.
  intros H. rewrite <- (take_drop i s), plain_app in H.
  now apply andb_true_iff in H.
Qed.

Lemma snoc_cases {A : Type} (l : list A) : l = [] \/ exists l' x, l = l' ++ [x].
Proof.
  induction l as [|x l _] using rev_ind; [now left|right; eauto].
Qed.

Lemma plain_removelast (s : ustring) : plain s = true -> plain (removelast s) = true.
Proof.
  destruct (snoc_cases s) as [->|(s' & x & ->)]; [auto|].
  rewrite removelast_last, plain_app. now intros [H _]%andb_true_iff.
Qed.

Lemma parse_ordinary (x : N) (s : ustring) (st : pstate) :
  metachar x = false -> p_set st = None ->
  parse (x :: s) 0 st = parse s 0 (push_atom (Chr x) st).
Proof.
  intros Hx Hset. cbn [parse]. rewrite Hset.
  unfold metachar in Hx. vm_compute (u _) in Hx. cbn [existsb] in Hx.
  repeat (apply orb_false_elim in Hx as [? Hx]).
  vm_compute (ch _). vm_compute (u _). cbn [existsb].
  repeat match goal with
         | H : (x =? _)%N = false |- _ => rewrite H; clear H
         end.
  reflexivity.
Qed.

Lemma parse_plain (s t : ustring) (st : pstate) :
  plain s = true -> p_set st = None ->
  parse (s ++ t) 0 st =
  parse t 0 (PState (p_stack st) (p_alts st) (rev (map Chr s) ++ p_seq st)
                    (p_groups st) None).
Proof.
  revert st; induction s as [|x s IH]; intros st Hs Hset.
  - simpl. destruct st; simpl in *; now subst.
  - simpl in Hs. apply andb_true_iff in Hs as [Hx Hs]. apply negb_true_iff in Hx.
    simpl app. rewrite parse_ordinary by assumption.
    rewrite IH by (assumption || reflexivity). simpl.
    now rewrite <- app_assoc.
Qed.

Lemma compile_plain (s : ustring) : plain s = true -> compile s = Compiled (lit s).
Proof.
  intros Hs. unfold compile. rewrite <- (app_nil_r s) at 1.
  rewrite parse_plain by (assumption || reflexivity). simpl.
  now rewrite app_nil_r.
Qed.

(** The atoms of a literal pattern, added one by one. *)
Lemma m_mk_seq_step (acc a : re) (st : mstate) (k : mstate -> option mstate) :
  m (match acc with Eps => a | _ => Seq a acc end) st k =
  m a st (fun st' => m acc st' k).
Proof. destruct acc; reflexivity. Qed.

Lemma lit_cons (x : N) (s : ustring) :
  lit (x :: s) = match lit s with Eps => Chr x | _ => Seq (Chr x) (lit s) end.
Proof. unfold lit, mk_seq. simpl. now rewrite fold_left_app. Qed.

Lemma m_lit (s : ustring) (p : nat) (e : ustring) (cs : list (nat * ustring))
      (k : mstate -> option mstate) :
  m (lit s) (MState p e cs) k =
  if starts_with s e then k (MState (p + length s) (drop (length s) e) cs) else None.
Proof.
  revert p e; induction s as [|x s IH]; intros p e.
  - simpl. now rewrite Nat.add_0_r.
  - rewrite lit_cons, m_mk_seq_step. simpl. unfold step1. simpl.
    destruct e as [|y e]; [reflexivity|].
    rewrite (N.eqb_sym y x). destruct (x =? y)%N; [|reflexivity].
    simpl. rewrite IH. now rewrite Nat.add_succ_r.
Qed.

Lemma search_lit (s e : ustring) : is_some (re_search (lit s) e) = contains s e.
Proof.
  unfold re_search. generalize 0%nat as p.
  induction e as [|y e IH]; intros p; simpl; unfold match_at; rewrite m_lit.
  - destruct (starts_with s []); reflexivity.
  - destruct (starts_with s (y :: e)); [reflexivity|]. simpl. apply IH.
Qed.

(** Searching for a plain string as a pattern is the substring test. *)
Lemma search_pattern_plain (s e : ustring) :
  plain s = true -> search_pattern s e = Ret (contains s e).
Proof.
  intros Hs. unfold search_pattern. now rewrite compile_plain, search_lit.
Qed.

(** The godan substitution replaces the last character. *)
Lemma match_last_char (p : nat) (s : ustring) :
  match_at LAST_CHAR p s =
  match s with
  | [x] => if (x =? LF)%N then None else Some (MState (S p) [] [])
  | [x; y] => if (x =? LF)%N then None
              else if (y =? LF)%N then Some (MState (S p) [y] []) else None
  | _ => None
  end.
Proof.
  unfold match_at, LAST_CHAR. simpl. unfold step1. simpl.
  destruct s as [|x [|y [|z s]]]; try reflexivity;
    destruct (x =? LF)%N; reflexivity.
Qed.

Lemma sub_from_last_char (repl s : ustring) (x : N) (p : nat) :
  x <> LF -> sub_from LAST_CHAR repl p 0 (s ++ [x]) = s ++ repl.
Proof.
  intros Hx. apply N.eqb_neq in Hx. revert p.
  induction s as [|y s IH]; intros p.
  - simpl. rewrite !match_last_char, Hx. simpl.
    replace (S p - p)%nat with 1%nat by lia. now rewrite app_nil_r.
  - cbn [app sub_from]. rewrite match_last_char.
    assert (match y :: s ++ [x] with
            | [a] => if (a =? LF)%N then None else Some (MState (S p) [] [])
            | [a; b] => if (a =? LF)%N then None
                        else if (b =? LF)%N then Some (MState (S p) [b] []) else None
            | _ => None
            end = None) as ->.
    { destruct s as [|z [|z' s]]; simpl; [|reflexivity..].
      rewrite Hx. now destruct (y =? LF)%N. }
    now rewrite IH.
Qed.

Lemma re_sub_last_char (repl s : ustring) (x : N) :
  x <> LF -> re_sub LAST_CHAR repl (s ++ [x]) = s ++ repl.
Proof. apply sub_from_last_char. Qed.

(** ** The okurigana delimiter *)

Lemma contains_nil (e : ustring) : contains [] e = true.
Proof. destruct e; reflexivity. Qed.

Lemma neg_index_last {A : Type} (l : list A) (x : A) : neg_index 1 (l ++ [x]) = Some x.
Proof.
  unfold neg_index. rewrite length_app, Nat.add_1_r. cbn [length Nat.leb].
  rewrite Nat.sub_succ, Nat.sub_0_r. now apply list_lookup_middle.
Qed.

Lemma neg_index_last_inv {A : Type} (l : list A) (x : A) :
  neg_index 1 l = Some x -> exists l', l = l' ++ [x].
Proof.
  destruct (snoc_cases l) as [->|(l' & y & ->)]; [discriminate|].
  rewrite neg_index_last. intros [= ->]. eauto.
Qed.

Lemma dict_get_in (x : N) (v : ustring) (d : list (N * ustring)) :
  dict_get x d = Some v -> In (x, v) d.
Proof.
  induction d as [|[k w] d IH]; simpl; [discriminate|].
  destruct (N.eqb_spec x k) as [->|_]; [intros [= ->]; now left|auto].
Qed.

Lemma godan_class_compiles (x : N) (cls : ustring) (atoms : list re) :
  dict_get x GODAN_INFLECTION = Some cls ->
  x <> LF /\ exists r, parse cls 0 (PState [] [] atoms 0 None) = Compiled r.
Proof.
  intros H%dict_get_in. unfold GODAN_INFLECTION in H. simpl In in H.
  repeat (destruct H as [H|H]); try contradiction;
    injection H as <- <-; (split; [vm_compute; discriminate|]);
    eexists; vm_compute; reflexivity.
Qed.

Lemma search_godan_total (o cls e : ustring) (last : N) :
  plain o = true -> neg_index 1 o = Some last ->
  dict_get last GODAN_INFLECTION = Some cls ->
  exists b, search_pattern (re_sub LAST_CHAR cls o) e = Ret b.
Proof.
  intros Ho (o' & ->)%neg_index_last_inv Hcls.
  rewrite plain_app in Ho. apply andb_true_iff in Ho as [Ho' _].
  destruct (godan_class_compiles last cls (rev (map Chr o') ++ []) Hcls) as (Hlf & r & Hr).
  rewrite re_sub_last_char by assumption.
  unfold search_pattern, compile. rewrite parse_plain by (assumption || reflexivity).
  simpl. rewrite Hr. eauto.
Qed.

Lemma try_suffix_shape (k r e suffix d : ustring) :
  try_suffix k r e suffix = Ret (Some d) -> d = dotted r suffix.
Proof.
  unfold try_suffix, dotted, mbind, res_bind, mret, res_ret.
  repeat match goal with
         | |- context [match ?x with _ => _ end] => destruct x
         | |- context [if ?x then _ else _] => destruct x
         end; congruence.
Qed.

Lemma try_suffix_total (k r e suffix : ustring) :
  plain k = true -> plain suffix = true ->
  try_suffix k r e suffix = Ret None \/
  try_suffix k r e suffix = Ret (Some (dotted r suffix)).
Proof.
  intros Hk Hs.
  assert (plain (k ++ suffix) = true) as Hks by (rewrite plain_app, Hk, Hs; reflexivity).
  unfold try_suffix, dotted. cbv zeta.
  rewrite (search_pattern_plain (k ++ suffix)) by assumption. cbn [mbind res_bind].
  destruct (contains (k ++ suffix) e) eqn:E1; [now right|].
  destruct (is_ichidan_verb k r).
  - rewrite search_pattern_plain by now apply plain_removelast.
    cbn [mbind res_bind mret res_ret].
    destruct (contains (removelast (k ++ suffix)) e) eqn:E2; [now right|].
    destruct (neg_index 1 (removelast (k ++ suffix))) as [last|] eqn:E3.
    + destruct (dict_get last GODAN_INFLECTION) as [cls|] eqn:E4; [|now left].
      destruct (search_godan_total _ cls e last (plain_removelast _ Hks) E3 E4) as [b ->].
      cbn [mbind res_bind]. destruct b; auto.
    + destruct (snoc_cases (removelast (k ++ suffix))) as [E|(l & x & E)];
        rewrite E in *; [now rewrite contains_nil in E2|].
      now rewrite neg_index_last in E3.
  - cbn [mbind res_bind mret res_ret].
    destruct (neg_index 1 (k ++ suffix)) as [last|] eqn:E3.
    + destruct (dict_get last GODAN_INFLECTION) as [cls|] eqn:E4; [|now left].
      destruct (search_godan_total _ cls e last Hks E3 E4) as [b ->].
      cbn [mbind res_bind]. destruct b; auto.
    + destruct (snoc_cases (k ++ suffix)) as [E|(l & x & E)];
        rewrite E in *; [now rewrite contains_nil in E1|].
      now rewrite neg_index_last in E3.
Qed.

(** The direct probe: [kanji + suffix] occurs in the example. *)
Lemma try_suffix_direct (k r e suffix : ustring) :
  plain k = true -> plain suffix = true ->
  contains (k ++ suffix) e = true ->
  try_suffix k r e suffix = Ret (Some (dotted r suffix)).
Proof.
  intros Hk Hs Hc. unfold try_suffix, dotted. cbv zeta.
  rewrite (search_pattern_plain (k ++ suffix)) by (rewrite plain_app, Hk, Hs; reflexivity).
  now rewrite Hc.
Qed.

Lemma suffix_loop_shape (k r e s : ustring) (l : list ustring) :
  suffix_loop k r e l = Ret s ->
  s = r \/ exists suffix, In suffix l /\ s = dotted r suffix.
Proof.
  induction l as [|suffix l IH]; simpl; [intros [= <-]; now left|].
  destruct (try_suffix k r e suffix) as [[d|]| |] eqn:E; cbn [mbind res_bind];
    try discriminate.
  - intros [= <-]. right. exists suffix. split; [now left|].
    now apply try_suffix_shape in E.
  - intros [H|(x & Hx & H)]%IH; [now left|]. right. eauto.
Qed.

Lemma suffix_loop_none (k r e : ustring) (l : list ustring) :
  (forall suffix, In suffix l -> try_suffix k r e suffix = Ret None) ->
  suffix_loop k r e l = Ret r.
Proof.
  induction l as [|suffix l IH]; intros H; simpl; [reflexivity|].
  rewrite (H suffix) by now left. cbn [mbind res_bind]. apply IH.
  intros x Hx. apply H. now right.
Qed.

Lemma suffix_loop_first (k r e d : ustring) (l1 l2 : list ustring) (suffix : ustring) :
  (forall x, In x l1 -> try_suffix k r e x = Ret None) ->
  try_suffix k r e suffix = Ret (Some d) ->
  suffix_loop k r e (l1 ++ suffix :: l2) = Ret d.
Proof.
  intros H1 H2. induction l1 as [|x l1 IH]; simpl.
  - now rewrite H2.
  - rewrite (H1 x) by now left. cbn [mbind res_bind]. apply IH.
    intros y Hy. apply H1. now right.
Qed.

Lemma suffix_loop_total (k r e : ustring) (l : list ustring) :
  plain k = true -> (forall x, In x l -> plain x = true) ->
  exists s, suffix_loop k r e l = Ret s.
Proof.
  intros Hk. induction l as [|suffix l IH]; intros Hl; simpl; [eauto|].
  destruct (try_suffix_total k r e suffix Hk) as [-> | ->];
    [apply Hl; now left| |]; cbn [mbind res_bind]; [|eauto].
  apply IH. intros x Hx. apply Hl. now right.
Qed.

Lemma dotted_drop (r : ustring) (i : nat) :
  (i < length r)%nat -> dotted r (drop i r) = take i r ++ u "." ++ drop i r.
Proof.
  intros Hi. unfold dotted, slice_drop_last. rewrite length_drop.
  do 2 f_equal. lia.
Qed.

(** Whenever the delimiter returns, it returns the reading as it is or the
    reading with one dot put in front of a non-empty suffix. *)
Lemma delimit_okurigana_shape (k r e s : ustring) :
  delimit_okurigana k r e = Ret s ->
  s = r \/ exists i, (i < length r)%nat /\ s = take i r ++ u "." ++ drop i r.
Proof.
  unfold delimit_okurigana. destruct (ueqb e k); [intros [= <-]; now left|].
  intros [H|(suffix & Hs & ->)]%suffix_loop_shape; [now left|]. right.
  apply list_elem_of_In, all_suffixes_elem in Hs as (i & Hi & ->).
  exists i. split; [exact Hi|now apply dotted_drop].
Qed.

(** C9, as stated, fails: the kanji and the suffix of the reading are put
    into a search pattern as they are, and a kanji argument that is not a
    well-formed pattern makes the search raise [regex.error]. *)
Lemma delimit_okurigana_raises :
  delimit_okurigana (u "(") (u "a") (u "b") = Raise RegexError /\
  ~ exists s, delimit_okurigana (u "(") (u "a") (u "b") = Ret s.
Proof.
  assert (delimit_okurigana (u "(") (u "a") (u "b") = Raise RegexError) as E
      by (vm_compute; reflexivity).
  split; [exact E|]. rewrite E. intros [s H]. discriminate H.
Qed.

(** C9, amended.  [is_ichidan_verb] and [delimit_okurigana] are functions
    of their arguments alone.  For every kanji and canonical reading free of
    pattern metacharacters, and every example, [delimit_okurigana] returns
    a result and raises nothing: the reading with a dot in front of one of
    its non-empty suffixes, or, when the search succeeds for no suffix,
    the canonical reading unchanged. *)
Theorem delimit_okurigana_total (k r e : ustring) :
  plain k = true -> plain r = true ->
  exists s,
    delimit_okurigana k r e = Ret s /\
    (s = r \/ exists i, (i < length r)%nat /\ s = take i r ++ u "." ++ drop i r) /\
    ((forall suffix, In suffix (all_suffixes r) -> try_suffix k r e suffix = Ret None) ->
     s = r).
Proof.
  intros Hk Hr.
  assert (exists s, delimit_okurigana k r e = Ret s) as [s Hs].
  { unfold delimit_okurigana. destruct (ueqb e k); [eauto|].
    apply suffix_loop_total; [exact Hk|].
    intros x (i & _ & ->)%list_elem_of_In%all_suffixes_elem. now apply plain_drop. }
  exists s. split; [exact Hs|]. split; [now apply delimit_okurigana_shape in Hs|].
  intros Hnone. unfold delimit_okurigana in Hs. destruct (ueqb e k); [congruence|].
  rewrite suffix_loop_none in Hs by assumption. congruence.
Qed.

Lemma delimit_okurigana_total_witness :
  plain (u "昼") = true /\ plain (u "ひる") = true /\
  exists s, delimit_okurigana (u "昼") (u "ひる") (u "真昼") = Ret s.
Proof.
  assert (plain (u "昼") = true) as Hk by (vm_compute; reflexivity).
  assert (plain (u "ひる") = true) as Hr by (vm_compute; reflexivity).
  split; [exact Hk|]. split; [exact Hr|].
  destruct (delimit_okurigana_total (u "昼") (u "ひる") (u "真昼") Hk Hr) as (s & Hs & _).
  exists s. exact Hs.
Defined.

(** ** The godan probe *)

Lemma lit_then_cons (x : N) (s : ustring) (acc : re) :
  lit_then (x :: s) acc =
  match lit_then s acc with Eps => Chr x | _ => Seq (Chr x) (lit_then s acc) end.
Proof. unfold lit_then. simpl. now rewrite fold_left_app. Qed.

Lemma m_lit_then (s : ustring) (acc : re) (p : nat) (e : ustring)
      (cs : list (nat * ustring)) (k : mstate -> option mstate) :
  m (lit_then s acc) (MState p e cs) k =
  if starts_with s e
  then m acc (MState (p + length s) (drop (length s) e) cs) k else None.
Proof.
  revert p e; induction s as [|x s IH]; intros p e.
  - simpl. now rewrite Nat.add_0_r.
  - rewrite lit_then_cons, m_mk_seq_step. simpl. unfold step1. simpl.
    destruct e as [|y e]; [reflexivity|].
    rewrite (N.eqb_sym y x). destruct (x =? y)%N; [|reflexivity].
    simpl. rewrite IH. now rewrite Nat.add_succ_r.
Qed.

Lemma contains_drop (s e : ustring) :
  contains s e = true <-> exists i, (i <= length e)%nat /\ starts_with s (drop i e) = true.
Proof.
  induction e as [|y e IH].
  - simpl. rewrite orb_false_r. split.
    + intros H. exists 0%nat. auto.
    + intros (i & Hi & H). now destruct i.
  - cbn [contains]. rewrite orb_true_iff, IH. split.
    + intros [H|(i & Hi & H)]; [exists 0%nat; split; [lia|exact H]|].
      exists (S i). split; [simpl; lia|exact H].
    + intros ([|i] & Hi & H); [now left|]. right. exists i. split; [simpl in Hi; lia|exact H].
Qed.

Lemma starts_with_snoc (s e : ustring) (x : N) :
  starts_with (s ++ [x]) e = true <->
  starts_with s e = true /\ exists t, drop (length s) e = x :: t.
Proof.
  revert e; induction s as [|y s IH]; intros e.
  - simpl. destruct e as [|z e]; [split; [discriminate|intros [_ [t H]]; discriminate H]|].
    rewrite andb_true_r, N.eqb_eq. split.
    + intros ->. eauto.
    + intros [_ [t [= -> _]]]. reflexivity.
  - simpl. destruct e as [|z e]; [split; [discriminate|intros [H _]; discriminate H]|].
    rewrite !andb_true_iff, IH. tauto.
Qed.

(** The inflected forms that stand for the godan ending [last]. *)
Lemma godan_class_parses (last : N) (cls : ustring) (atoms : list re) :
  dict_get last GODAN_INFLECTION = Some cls ->
  last <> LF /\
  parse cls 0 (PState [] [] atoms 0 None) =
  Compiled (mk_seq (Cls (map CChar (godan_forms last)) :: atoms)).
Proof.
  intros H%dict_get_in. unfold GODAN_INFLECTION in H. simpl In in H.
  repeat (destruct H as [H|H]); try contradiction;
    injection H as <- <-; (split; [vm_compute; discriminate|reflexivity]).
Qed.

Lemma search_godan (stem cls e : ustring) (last : N) :
  plain stem = true ->
  dict_get last GODAN_INFLECTION = Some cls ->
  (exists x, In x (godan_forms last) /\ contains (stem ++ [x]) e = true) ->
  search_pattern (re_sub LAST_CHAR cls (stem ++ [last])) e = Ret true.
Proof.
  intros Hs Hcls (x & Hx & Hc).
  destruct (godan_class_parses last cls (rev (map Chr stem) ++ []) Hcls) as [Hlf Hp].
  rewrite re_sub_last_char by assumption.
  unfold search_pattern, compile. rewrite parse_plain by (assumption || reflexivity).
  simpl p_stack. simpl p_alts. simpl p_seq. simpl p_groups. rewrite Hp. f_equal.
  rewrite app_nil_r.
  change (mk_seq (Cls (map CChar (godan_forms last)) :: rev (map Chr stem)))
    with (lit_then stem (Cls (map CChar (godan_forms last)))).
  apply contains_drop in Hc as (i & Hi & Hc).
  apply starts_with_snoc in Hc as (Hst & t & Ht).
  apply search_from_some. exists i. split; [exact Hi|].
  unfold match_at. rewrite m_lit_then, Hst, Ht. simpl. unfold step1. simpl.
  rewrite cls_matches_chars. now apply existsb_eqb_In in Hx as ->.
Qed.

(** C6.  [delimit_okurigana] tries the suffixes of the canonical reading
    from the longest to the shortest: the first suffix for which a probe
    matches gives the result, the reading with a dot in front of that
    suffix.  The first probe is the search of kanji + suffix as a substring
    of the example; for an ichidan verb the probe with its last character
    dropped comes second; last, a probe that ends in a godan ending is
    searched with any of the inflected forms of that ending in its place.
    In particular 頼 たよる gives たよ.る with the example 頼る and with the
    inflected example 頼り, 干 ひる gives ひ.る with 干物, and 静 しずか gives
    しず.か with 静かだ. *)
Theorem delimit_okurigana_longest_first :
  delimit_okurigana (u "頼") (u "たよる") (u "頼る") = Ret (u "たよ.る") /\
  delimit_okurigana (u "頼") (u "たよる") (u "頼り") = Ret (u "たよ.る") /\
  delimit_okurigana (u "静") (u "しずか") (u "静かだ") = Ret (u "しず.か") /\
  delimit_okurigana (u "干") (u "ひる") (u "干物") = Ret (u "ひ.る") /\
  (forall k r e i d,
     e <> k -> (i < length r)%nat ->
     (forall j, (j < i)%nat -> try_suffix k r e (drop j r) = Ret None) ->
     try_suffix k r e (drop i r) = Ret (Some d) ->
     delimit_okurigana k r e = Ret (take i r ++ u "." ++ drop i r)) /\
  (forall k r e suffix,
     plain k = true -> plain suffix = true ->
     contains (k ++ suffix) e = true ->
     try_suffix k r e suffix = Ret (Some (dotted r suffix))) /\
  (forall k r e suffix,
     plain k = true -> plain suffix = true ->
     is_ichidan_verb k r = true ->
     contains (removelast (k ++ suffix)) e = true ->
     try_suffix k r e suffix = Ret (Some (dotted r suffix))) /\
  (forall k r e suffix stem last,
     plain k = true -> plain suffix = true ->
     (if is_ichidan_verb k r then removelast (k ++ suffix) else k ++ suffix)
       = stem ++ [last] ->
     (exists x, In x (godan_forms last) /\ contains (stem ++ [x]) e = true) ->
     try_suffix k r e suffix = Ret (Some (dotted r suffix))).
Proof.
  split; [vm_compute; reflexivity|].
  split; [vm_compute; reflexivity|].
  split; [vm_compute; reflexivity|].
  split; [vm_compute; reflexivity|].
  split; [|split; [|split]].
  - intros k r e i d Hne Hi Hnone Hsome.
    unfold delimit_okurigana. apply ueqb_neq in Hne as ->.
    pose proof (all_suffixes_lookup r i Hi) as Hl.
    rewrite <- (take_drop_middle _ _ _ Hl).
    apply try_suffix_shape in Hsome as Hd. rewrite Hd, dotted_drop in Hsome by assumption.
    apply suffix_loop_first; [|exact Hsome].
    intros x Hx%list_elem_of_In. apply list_elem_of_lookup in Hx as [j Hj].
    apply lookup_take_Some in Hj as [Hj Hji].
    apply lookup_lt_Some in Hj as Hlt. rewrite all_suffixes_length in Hlt.
    rewrite all_suffixes_lookup in Hj by assumption. injection Hj as <-.
    now apply Hnone.
  - intros; now apply try_suffix_direct.
  - intros k r e suffix Hk Hs Hi Hc.
    assert (plain (k ++ suffix) = true) as Hks by (rewrite plain_app, Hk, Hs; reflexivity).
    unfold try_suffix, dotted. cbv zeta.
    rewrite (search_pattern_plain (k ++ suffix)) by assumption. cbn [mbind res_bind].
    destruct (contains (k ++ suffix) e); [reflexivity|]. rewrite Hi.
    rewrite search_pattern_plain by now apply plain_removelast.
    cbn [mbind res_bind mret res_ret]. now rewrite Hc.
  - intros k r e suffix stem last Hk Hs Hok (x & Hx & Hc).
    assert (plain (k ++ suffix) = true) as Hks by (rewrite plain_app, Hk, Hs; reflexivity).
    destruct (dict_get last GODAN_INFLECTION) as [cls|] eqn:Hcls;
      [|unfold godan_forms in Hx; rewrite Hcls in Hx; contradiction].
    assert (plain stem = true) as Hstem.
    { assert (plain (stem ++ [last]) = true) as H.
      { rewrite <- Hok. destruct (is_ichidan_verb k r); [now apply plain_removelast|exact Hks]. }
      rewrite plain_app in H. now apply andb_true_iff in H. }
    pose proof (search_godan stem cls e last Hstem Hcls (ex_intro _ x (conj Hx Hc))) as Hg.
    unfold try_suffix, dotted. cbv zeta.
    rewrite (search_pattern_plain (k ++ suffix)) by assumption. cbn [mbind res_bind].
    destruct (contains (k ++ suffix) e); [reflexivity|].
    destruct (is_ichidan_verb k r).
    + rewrite search_pattern_plain by now apply plain_removelast.
      cbn [mbind res_bind mret res_ret].
      destruct (contains (removelast (k ++ suffix)) e); [reflexivity|].
      rewrite Hok, neg_index_last, Hcls, Hg. reflexivity.
    + cbn [mbind res_bind mret res_ret].
      rewrite Hok, neg_index_last, Hcls, Hg. reflexivity.
Qed.

Lemma delimit_okurigana_longest_first_witness :
  u "静かだ" <> u "静" /\ (2 < length (u "しずか"))%nat /\
  delimit_okurigana (u "静") (u "しずか") (u "静かだ") =
    Ret (take 2 (u "しずか") ++ u "." ++ drop 2 (u "しずか")).
Proof.
  assert (u "静かだ" <> u "静") as Hne by (vm_compute; discriminate).
  assert (2 < length (u "しずか"))%nat as Hi by (vm_compute; lia).
  split; [exact Hne|]. split; [exact Hi|].
  destruct delimit_okurigana_longest_first as (_ & _ & _ & _ & H & _).
  apply (H (u "静") (u "しずか") (u "静かだ") 2%nat (u "しず.か") Hne Hi).
  - intros [|[|j]] Hj; [vm_compute; reflexivity..|lia].
  - vm_compute; reflexivity.
Defined.

(** ** Steps of the engine *)

Lemma bind_ret {A B : Type} (x : M A) (f : A -> M B) (w w' : World) (a : A) :
  x w = (Ret a, w') -> (x ≫= f) w = f a w'.
Proof. unfold mbind, M_bind. now intros ->. Qed.

Lemma bind_raise {A B : Type} (x : M A) (f : A -> M B) (w w' : World) (e : exn) :
  x w = (Raise e, w') -> (x ≫= f) w = (Raise e, w').
Proof. unfold mbind, M_bind. now intros ->. Qed.

Lemma deref_ok (self : nat) (r : Reading) (w : World) :
  store w !! self = Some r -> deref self w = (Ret r, w).
Proof. unfold deref. now intros ->. Qed.

Lemma update_reading_ok (self : nat) (f : Reading -> Reading) (r : Reading) (w : World) :
  store w !! self = Some r ->
  update_reading self f w = (Ret tt, mkWorld (the_kanji w) (<[self := f r]> (store w))).
Proof. unfold update_reading. now intros ->. Qed.

Lemma Kanji_add_reading_ok (rd : ustring) (k v : option ustring) (r : Reading) (w : World) :
  Reading_init rd v k = Ret r ->
  Kanji_add_reading rd k v w =
  (Ret tt, mkWorld (set_readings (readings (the_kanji w) ++ [length (store w)]) (the_kanji w))
                   (store w ++ [r])).
Proof. unfold Kanji_add_reading, lift, mbind, M_bind. now intros ->. Qed.

Lemma Kanji_add_examples_ok (recur : nat -> ustring -> M unit) (s : ustring)
      (l : list nat) (last : nat) (w : World) :
  readings (the_kanji w) = l ++ [last] ->
  Kanji_add_examples recur s w = recur last s w.
Proof.
  intros H. unfold Kanji_add_examples, get_kanji, index_from_end, mbind, M_bind.
  now rewrite H, neg_index_last.
Qed.

Lemma neg_index_second {A : Type} (l : list A) (x y : A) :
  neg_index 2 (l ++ [x; y]) = Some x.
Proof.
  unfold neg_index. rewrite length_app. cbn [length].
  replace (length l + 2)%nat with (S (S (length l))) by lia. cbn [Nat.leb].
  replace (S (S (length l)) - 2)%nat with (length l) by lia.
  now apply list_lookup_middle.
Qed.

Lemma swap_last_two_ok (l : list nat) (a b : nat) (w : World) :
  readings (the_kanji w) = l ++ [a; b] ->
  swap_last_two w = (Ret tt, mkWorld (set_readings (l ++ [b; a]) (the_kanji w)) (store w)).
Proof.
  intros H. unfold swap_last_two, get_kanji, index_from_end, mbind, M_bind.
  rewrite H, neg_index_second.
  change (l ++ [a; b]) with (l ++ [a] ++ [b]) at 1. rewrite app_assoc, neg_index_last.
  unfold mret, M_ret, update_kanji. do 3 f_equal.
  rewrite length_app. cbn [length].
  replace (length l + 2 - 1)%nat with (length l + 1)%nat by lia.
  replace (length l + 2 - 2)%nat with (length l + 0)%nat by lia.
  rewrite !insert_app_r. reflexivity.
Qed.

Lemma set_readings_twice (a b : list nat) (k : Kanji) :
  set_readings a (set_readings b k) = set_readings a k.
Proof. reflexivity. Qed.

Lemma readings_set_readings (a : list nat) (k : Kanji) : readings (set_readings a k) = a.
Proof. reflexivity. Qed.

Lemma kanji_set_readings (a : list nat) (k : Kanji) : kanji (set_readings a k) = kanji k.
Proof. reflexivity. Qed.

(** ** The loops of [add_examples] *)

Lemma M_bind_assoc {A B C : Type} (x : M A) (f : A -> M B) (g : B -> M C) (w : World) :
  ((x ≫= f) ≫= g) w = (x ≫= fun a => f a ≫= g) w.
Proof. unfold mbind, M_bind. destruct (x w) as [[a|e|y] w']; reflexivity. Qed.

Lemma M_ret_bind {A B : Type} (a : A) (f : A -> M B) (w : World) :
  (mret a ≫= f) w = f a w.
Proof. reflexivity. Qed.

Lemma gloss_loop_nil (recur : nat -> ustring -> M unit) (self : nat) (w : World) :
  gloss_loop recur self [] w = (Ret tt, w).
Proof. reflexivity. Qed.

(** An example without a gloss is appended to the examples of [self]. *)
Lemma gloss_loop_plain (recur : nat -> ustring -> M unit) (self : nat)
      (ex : ustring) (rest : list ustring) (r : Reading) (w : World) :
  re_match GLOSS ex = None ->
  store w !! self = Some r ->
  gloss_loop recur self (ex :: rest) w =
  gloss_loop recur self rest
    (mkWorld (the_kanji w)
             (<[self := set_examples (examples r ++ [Example_init ex]) r]> (store w))).
Proof.
  intros H Hs. cbn [gloss_loop]. rewrite H.
  now rewrite (bind_ret _ _ _ _ _ (update_reading_ok _ _ _ _ Hs)).
Qed.

(** An example with a gloss becomes a reading of its own, put before the
    last reading. *)
Lemma gloss_loop_gloss (recur : nat -> ustring -> M unit) (self : nat)
      (ex : ustring) (rest : list ustring) (gm : mstate) (r : Reading) (w : World) :
  re_match GLOSS ex = Some gm ->
  store w !! self = Some r ->
  gloss_loop recur self (ex :: rest) w =
  (Kanji_add_reading
     (if contains (u "っ") (group 2 (caps gm))
      then re_sub SOKUON_TAIL (u "っ") (group 2 (caps gm)) else group 2 (caps gm))
     None (Some (reading r));;
   Kanji_add_examples recur (group 1 (caps gm));;
   swap_last_two;;
   gloss_loop recur self rest) w.
Proof.
  intros H Hs. cbn [gloss_loop]. rewrite H. rewrite M_bind_assoc.
  rewrite (bind_ret _ _ _ _ _ (deref_ok _ _ _ Hs)).
  unfold mbind, M_bind.
  destruct (Kanji_add_reading _ _ _ w) as [[[]| |] w1]; try reflexivity.
  destruct (Kanji_add_examples _ _ w1) as [[[]| |] w2]; reflexivity.
Qed.

Lemma okurigana_loop_done (recur : nat -> ustring -> M unit) (self n i : nat)
      (clean : ustring) (r : Reading) (w : World) :
  store w !! self = Some r -> examples r !! i = None ->
  okurigana_loop recur self n i clean w = (Ret tt, w).
Proof.
  intros Hs Hi. destruct n as [|n]; [reflexivity|]. cbn [okurigana_loop].
  rewrite (bind_ret _ _ _ _ _ (deref_ok _ _ _ Hs)). now rewrite Hi.
Qed.

Section OkuriganaStep.

Variable recur : nat -> ustring -> M unit.
Variables (self n i : nat) (clean d : ustring) (r : Reading) (ex : Example) (w : World).
Hypothesis self_is_r : store w !! self = Some r.
Hypothesis ith_example : examples r !! i = Some ex.
Hypothesis delimited : delimit_okurigana (kanji (the_kanji w)) clean (example ex) = Ret d.

Lemma okurigana_loop_head :
  okurigana_loop recur self (S n) i clean w =
  (if contains (u ".") d then
     if ueqb clean (reading r) then
       update_reading self (set_reading d);;
       okurigana_loop recur self n (S i) clean
     else if negb (ueqb (reading r) d) then
       update_reading self (fun r => set_examples (delete i (examples r)) r);;
       let '(clean_reading, variation_of) :=
         if ueqb (example ex) (u "恐らく")
         then (u "おそらく", Some (u "おそ.れる"))
         else (clean, None) in
       Kanji_add_reading clean_reading None variation_of;;
       Kanji_add_examples recur (example ex);;
       swap_last_two;;
       okurigana_loop recur self n (S i) clean_reading
     else okurigana_loop recur self n (S i) clean
   else okurigana_loop recur self n (S i) clean) w.
Proof.
  cbn [okurigana_loop].
  rewrite (bind_ret _ _ _ _ _ (deref_ok _ _ _ self_is_r)). rewrite ith_example.
  unfold get_kanji at 1. unfold mbind at 1, M_bind at 1.
  unfold lift at 1, mbind at 1, M_bind at 1. rewrite delimited. reflexivity.
Qed.

(** No split found: the example stays and the reading is kept. *)
Lemma okurigana_loop_no_split :
  contains (u ".") d = false ->
  okurigana_loop recur self (S n) i clean w = okurigana_loop recur self n (S i) clean w.
Proof. intros H. now rewrite okurigana_loop_head, H. Qed.

(** The first split found becomes the reading. *)
Lemma okurigana_loop_first_split :
  contains (u ".") d = true -> clean = reading r ->
  okurigana_loop recur self (S n) i clean w =
  okurigana_loop recur self n (S i) clean
    (mkWorld (the_kanji w) (<[self := set_reading d r]> (store w))).
Proof.
  intros H E. rewrite okurigana_loop_head, H.
  apply ueqb_spec in E. rewrite E.
  now rewrite (bind_ret _ _ _ _ _ (update_reading_ok _ _ _ _ self_is_r)).
Qed.

(** A split that agrees with the reading changes nothing. *)
Lemma okurigana_loop_same_split :
  contains (u ".") d = true -> clean <> reading r -> reading r = d ->
  okurigana_loop recur self (S n) i clean w = okurigana_loop recur self n (S i) clean w.
Proof.
  intros H Hne E. rewrite okurigana_loop_head, H.
  apply ueqb_neq in Hne. apply ueqb_spec in E. now rewrite Hne, E.
Qed.

(** A split that disagrees moves the example to a new reading. *)
Lemma okurigana_loop_conflict :
  contains (u ".") d = true -> clean <> reading r -> reading r <> d ->
  example ex <> u "恐らく" ->
  okurigana_loop recur self (S n) i clean w =
  (Kanji_add_reading clean None None;;
   Kanji_add_examples recur (example ex);;
   swap_last_two;;
   okurigana_loop recur self n (S i) clean)
    (mkWorld (the_kanji w)
             (<[self := set_examples (delete i (examples r)) r]> (store w))).
Proof.
  intros H Hne Hd Hex. rewrite okurigana_loop_head, H.
  apply ueqb_neq in Hne, Hd, Hex. rewrite Hne, Hd, Hex. cbn [negb].
  now rewrite (bind_ret _ _ _ _ _ (update_reading_ok _ _ _ _ self_is_r)).
Qed.

End OkuriganaStep.

(** ** Gloss promotion *)

Section GlossPromotion.

Variable popularize : ustring -> ustring.
Hypothesis popularize_gloss : popularize (u "三日（みっか）") = u "三日（みっか）".
Hypothesis popularize_text : popularize (u "三日") = u "三日".

Lemma split_gloss_example :
  split_examples popularize (u "三日（みっか）") = [u "三日（みっか）"].
Proof.
  unfold split_examples.
  change (contains (u "「") (u "三日（みっか）")) with false. cbv iota.
  rewrite popularize_gloss. vm_compute. reflexivity.
Qed.

Lemma split_gloss_text : split_examples popularize (u "三日") = [u "三日"].
Proof.
  unfold split_examples.
  change (contains (u "「") (u "三日")) with false. cbv iota.
  rewrite popularize_text. vm_compute. reflexivity.
Qed.

(** The new reading receives the text without its gloss; no okurigana is
    found in it. *)
Lemma text_example_step (fuel n : nat) (w : World) :
  kanji (the_kanji w) = u "三" ->
  store w !! n = Some mitsu ->
  Reading_add_examples popularize (S fuel) n (u "三日") w =
  (Ret tt, mkWorld (the_kanji w) (<[n := mitsu_with_example]> (store w))).
Proof.
  intros Hk Hn. cbn [Reading_add_examples]. rewrite split_gloss_text.
  assert (n < length (store w))%nat as Hlt by (eapply lookup_lt_Some; eauto).
  rewrite (bind_ret _ _ _ (mkWorld (the_kanji w) (<[n := mitsu_with_example]> (store w))) tt).
  2:{ rewrite (gloss_loop_plain _ _ _ _ mitsu) by (assumption || (vm_compute; reflexivity)).
      reflexivity. }
  assert (store (mkWorld (the_kanji w) (<[n := mitsu_with_example]> (store w))) !! n
          = Some mitsu_with_example) as Hn'.
  { simpl. now apply list_lookup_insert_eq. }
  rewrite (bind_ret _ _ _ _ _ (deref_ok _ _ _ Hn')).
  change (ueqb (kind mitsu_with_example) (u "Kun")) with true. cbv iota.
  change (length (examples mitsu_with_example)) with 1%nat.
  rewrite (okurigana_loop_no_split _ _ _ _ _ (u "みっ") mitsu_with_example
             (mkExample (u "三日") None false)); [| exact Hn' | reflexivity | | ].
  - now apply (okurigana_loop_done _ _ _ _ _ mitsu_with_example).
  - simpl the_kanji. rewrite Hk. vm_compute. reflexivity.
  - vm_compute. reflexivity.
Qed.

(** C3.  On a kanji 三 whose last reading has the kana み and no example
    yet, adding the examples string 三日（みっか） creates exactly one new
    Reading: its kana is みっ, the gloss cut after its first small tsu, it
    is a variation of み, and it carries the text 三日, stripped of the
    gloss, as its only example.  In the sequence of readings it sits
    immediately before the reading that received the string, which stays
    last and is not changed; the readings before it are not changed
    either. *)
Theorem gloss_promotion (fuel self : nat) (rs : list nat) (r : Reading) (w : World) :
  kanji (the_kanji w) = u "三" ->
  readings (the_kanji w) = rs ++ [self] ->
  store w !! self = Some r ->
  reading r = u "み" -> examples r = [] ->
  Reading_add_examples popularize (S (S fuel)) self (u "三日（みっか）") w =
  (Ret tt,
   mkWorld (set_readings (rs ++ [length (store w); self]) (the_kanji w))
           (store w ++ [mitsu_with_example])) /\
  reading mitsu_with_example = u "みっ" /\
  variation_of mitsu_with_example = Some (u "み") /\
  map example (examples mitsu_with_example) = [u "三日"].
Proof.
  intros Hk Hrs Hself Hr Hex. split; [|repeat split].
  assert (self < length (store w))%nat as Hlt by (eapply lookup_lt_Some; eauto).
  cbn [Reading_add_examples]. rewrite split_gloss_example.
  set (w3 := mkWorld (set_readings (rs ++ [length (store w); self]) (the_kanji w))
                     (store w ++ [mitsu_with_example])).
  rewrite (bind_ret _ _ _ w3 tt).
  - assert (store w3 !! self = Some r) as Hself3.
    { subst w3. simpl. now rewrite lookup_app_l. }
    rewrite (bind_ret _ _ _ _ _ (deref_ok _ _ _ Hself3)).
    destruct (ueqb (kind r) (u "Kun")); [|reflexivity].
    apply (okurigana_loop_done _ _ _ _ _ r); [exact Hself3|]. now rewrite Hex.
  - assert (exists gm, re_match GLOSS (u "三日（みっか）") = Some gm /\
                       group 1 (caps gm) = u "三日" /\
                       (if contains (u "っ") (group 2 (caps gm))
                        then re_sub SOKUON_TAIL (u "っ") (group 2 (caps gm))
                        else group 2 (caps gm)) = u "みっ") as (gm & Hgm & Hg1 & Hg2).
    { eexists. split; [vm_compute; reflexivity|]. split; vm_compute; reflexivity. }
    rewrite (gloss_loop_gloss _ _ _ _ gm r) by assumption.
    rewrite Hg1, Hg2, Hr.
    assert (Reading_init (u "みっ") (Some (u "み")) None = Ret mitsu) as Hinit
        by (vm_compute; reflexivity).
    rewrite (bind_ret _ _ _ _ _ (Kanji_add_reading_ok _ _ _ mitsu _ Hinit)).
    set (w1 := mkWorld _ _).
    assert (readings (the_kanji w1) = (rs ++ [self]) ++ [length (store w)]) as Hrs1.
    { subst w1. simpl. now rewrite Hrs. }
    assert (store w1 !! length (store w) = Some mitsu) as Hnew.
    { subst w1. simpl. now apply list_lookup_middle. }
    rewrite (bind_ret _ _ _ (mkWorld (the_kanji w1)
                                     (<[length (store w) := mitsu_with_example]> (store w1))) tt).
    2:{ rewrite (Kanji_add_examples_ok _ _ _ _ _ Hrs1).
        apply text_example_step; [subst w1; exact Hk|exact Hnew]. }
    set (w2 := mkWorld _ _).
    assert (readings (the_kanji w2) = rs ++ [self; length (store w)]) as Hrs2.
    { subst w2 w1. simpl. now rewrite Hrs, <- app_assoc. }
    rewrite (bind_ret _ _ _ _ _ (swap_last_two_ok _ _ _ _ Hrs2)).
    rewrite gloss_loop_nil. f_equal. subst w3 w2 w1. simpl. f_equal.
    replace (length (store w)) with (length (store w) + 0)%nat at 1 by lia.
    now rewrite insert_app_r.
Qed.

End GlossPromotion.

Lemma gloss_promotion_witness :
  Reading_add_examples joyo_popularize 2 1 (u "三日（みっか）")
                       (entry "三" ["サン"; "み"]%string) =
  (Ret tt,
   mkWorld (set_readings [0; 2; 1]%nat (the_kanji (entry "三" ["サン"; "み"]%string)))
           (store (entry "三" ["サン"; "み"]%string) ++ [mitsu_with_example])).
Proof.
  refine (proj1 (gloss_promotion joyo_popularize _ _ 0%nat 1%nat [0%nat]
                   (mkReading (u "み") false [] (u "Kun") None [] [])
                   (entry "三" ["サン"; "み"]%string) _ _ _ _ _));
    vm_compute; reflexivity.
Defined.

(** ** Conflicting okurigana splits *)

Lemma starts_with_single (x : N) (s : ustring) :
  starts_with [x] s = match s with y :: _ => (x =? y)%N | [] => false end.
Proof. destruct s as [|y s]; simpl; [reflexivity|]. now rewrite andb_true_r. Qed.

Lemma contains_single (x : N) (s : ustring) : contains [x] s = true <-> In x s.
Proof.
  induction s as [|y s IH]; [simpl; split; [discriminate|tauto]|].
  cbn [contains]. rewrite starts_with_single, orb_true_iff, IH, N.eqb_eq. simpl.
  split; (intros [H|H]; [left; congruence|now right]).
Qed.

Lemma str_replace_single (x : N) (s : ustring) :
  str_replace [x] [] s = filter (fun y => y <> x) s.
Proof.
  unfold str_replace. induction s as [|y s IH]; [reflexivity|].
  cbn [replace_aux]. rewrite starts_with_single. cbn [length Nat.pred app].
  destruct (N.eqb_spec x y) as [->|Hne].
  - rewrite filter_cons_False by tauto. exact IH.
  - rewrite filter_cons_True by congruence. now rewrite IH.
Qed.

Lemma str_replace_absent (x : N) (s : ustring) :
  contains [x] s = false -> str_replace [x] [] s = s.
Proof.
  intros H. rewrite str_replace_single.
  induction s as [|y s IH]; [reflexivity|].
  assert (y <> x) as Hy.
  { intros ->. assert (contains [x] (x :: s) = true) as E by (apply contains_single; now left).
    congruence. }
  rewrite filter_cons_True by assumption. f_equal. apply IH.
  destruct (contains [x] s) eqn:E; [|reflexivity].
  apply contains_single in E.
  assert (contains [x] (y :: s) = true) as E' by (apply contains_single; now right).
  congruence.
Qed.

(** Taking the dot out of a delimited reading gives the reading back. *)
Lemma undelimit (k r e d : ustring) :
  contains (u ".") r = false -> delimit_okurigana k r e = Ret d ->
  str_replace (u ".") [] d = r.
Proof.
  intros Hr [->|(i & Hi & ->)]%delimit_okurigana_shape; [now apply str_replace_absent|].
  change (u ".") with [ch "."] in *. rewrite str_replace_single, !filter_app.
  rewrite filter_cons_False, filter_nil by tauto. simpl.
  rewrite <- filter_app, take_drop, <- str_replace_single. now apply str_replace_absent.
Qed.

Lemma Reading_init_kun (s : ustring) (v : option ustring) :
  kun_kana s = true ->
  Reading_init s v None = Ret (mkReading s false [] (u "Kun") v [] []).
Proof.
  destruct s as [|x s]; [discriminate|]. simpl kun_kana.
  intros [H1 H2]%andb_true_iff. apply negb_true_iff in H1, H2.
  unfold Reading_init. rewrite H1. simpl given. cbv iota beta.
  now rewrite match_katakana, H2.
Qed.

Lemma undot_absent (s : ustring) :
  contains (u ".") s = false -> str_replace (u ".") [] s = s.
Proof. apply (str_replace_absent (ch ".")). Qed.

Section Conflict.

Variable popularize : ustring -> ustring.

Variables (clean e1 e2 d1 d2 : ustring).
Variables (self : nat) (rs : list nat) (r : Reading) (w : World).

Hypothesis simple1 : simple_example popularize e1.
Hypothesis simple2 : simple_example popularize e2.
Hypothesis last_reading : readings (the_kanji w) = rs ++ [self].
Hypothesis self_is_r : store w !! self = Some r.
Hypothesis kun : kind r = u "Kun".
Hypothesis no_example_yet : examples r = [].
Hypothesis undelimited : reading r = clean.
Hypothesis no_dot : contains (u ".") clean = false.
Hypothesis kana : kun_kana clean = true.
Hypothesis split1 : delimit_okurigana (kanji (the_kanji w)) clean e1 = Ret d1.
Hypothesis split2 : delimit_okurigana (kanji (the_kanji w)) clean e2 = Ret d2.
Hypothesis dot1 : contains (u ".") d1 = true.
Hypothesis dot2 : contains (u ".") d2 = true.
Hypothesis disagree : d1 <> d2.
Hypothesis ordinary : e2 <> u "恐らく".

Lemma clean_not_d1 : clean <> d1.
Proof. intros E. rewrite E in no_dot. congruence. Qed.

Lemma first_example (fuel : nat) :
  Reading_add_examples popularize (S fuel) self e1 w = (Ret tt, (world_after_first d1 e1 self r w)).
Proof.
  destruct simple1 as (Hs & Hg & Hi).
  assert (self < length (store w))%nat as Hlt by (eapply lookup_lt_Some; eauto).
  cbn [Reading_add_examples]. rewrite Hs.
  set (r' := set_examples [mkExample e1 None false] r).
  set (w' := mkWorld (the_kanji w) (<[self := r']> (store w))).
  assert (store w' !! self = Some r') as Hself'.
  { subst w'. simpl. now apply list_lookup_insert_eq. }
  rewrite (bind_ret _ _ _ w' tt).
  2:{ rewrite (gloss_loop_plain _ _ _ _ r) by assumption.
      rewrite Hi, no_example_yet. reflexivity. }
  rewrite (bind_ret _ _ _ _ _ (deref_ok _ _ _ Hself')).
  change (kind r') with (kind r). rewrite kun.
  change (ueqb (u "Kun") (u "Kun")) with true. cbv iota.
  change (reading r') with (reading r). rewrite undelimited.
  change (length (examples r')) with 1%nat.
  rewrite (undot_absent _ no_dot).
  rewrite (okurigana_loop_first_split _ _ _ _ _ d1 r' (mkExample e1 None false));
    [|exact Hself'|reflexivity|exact split1|exact dot1|now rewrite <- undelimited].
  f_equal. unfold world_after_first, after_first. subst w'. simpl. f_equal.
  now rewrite list_insert_insert_eq.
Qed.

Lemma disputed_example (fuel n : nat) (w' : World) :
  kanji (the_kanji w') = kanji (the_kanji w) ->
  store w' !! n = Some (created clean) ->
  Reading_add_examples popularize (S fuel) n e2 w' =
  (Ret tt, mkWorld (the_kanji w') (<[n := (variant clean d2 e2)]> (store w'))).
Proof.
  intros Hk Hn. destruct simple2 as (Hs & Hg & Hi).
  assert (n < length (store w'))%nat as Hlt by (eapply lookup_lt_Some; eauto).
  cbn [Reading_add_examples]. rewrite Hs.
  set (r' := set_examples [mkExample e2 None false] (created clean)).
  set (w1 := mkWorld (the_kanji w') (<[n := r']> (store w'))).
  assert (store w1 !! n = Some r') as Hn1.
  { subst w1. simpl. now apply list_lookup_insert_eq. }
  rewrite (bind_ret _ _ _ w1 tt).
  2:{ rewrite (gloss_loop_plain _ _ _ _ (created clean)) by assumption. now rewrite Hi. }
  rewrite (bind_ret _ _ _ _ _ (deref_ok _ _ _ Hn1)).
  change (ueqb (kind r') (u "Kun")) with true. cbv iota.
  change (reading r') with clean. change (length (examples r')) with 1%nat.
  rewrite (undot_absent _ no_dot).
  rewrite (okurigana_loop_first_split _ _ _ _ _ d2 r' (mkExample e2 None false));
    [|exact Hn1|reflexivity| |exact dot2|reflexivity].
  - f_equal. subst w1. simpl. f_equal. now rewrite list_insert_insert_eq.
  - subst w1. simpl the_kanji. rewrite Hk. exact split2.
Qed.

Lemma second_example (fuel : nat) :
  Reading_add_examples popularize (S (S fuel)) self e2 (world_after_first d1 e1 self r w) =
  (Ret tt, (world_after_second clean d1 d2 e1 e2 self rs r w)).
Proof.
  destruct simple2 as (Hs & Hg & Hi).
  assert (self < length (store w))%nat as Hlt by (eapply lookup_lt_Some; eauto).
  assert (store (world_after_first d1 e1 self r w) !! self = Some (after_first d1 e1 r)) as Hself1.
  { simpl. now apply list_lookup_insert_eq. }
  cbn [Reading_add_examples]. rewrite Hs.
  set (both := [mkExample e1 None false; mkExample e2 None false]).
  set (r2 := set_examples both (after_first d1 e1 r)).
  set (w2 := mkWorld (the_kanji w) (<[self := r2]> (store w))).
  assert (store w2 !! self = Some r2) as Hself2.
  { subst w2. simpl. now apply list_lookup_insert_eq. }
  rewrite (bind_ret _ _ _ w2 tt).
  2:{ rewrite (gloss_loop_plain _ _ _ _ (after_first d1 e1 r)) by assumption.
      rewrite Hi. rewrite gloss_loop_nil. f_equal. subst w2. simpl. f_equal.
      now rewrite list_insert_insert_eq. }
  rewrite (bind_ret _ _ _ _ _ (deref_ok _ _ _ Hself2)).
  change (kind r2) with (kind r). rewrite kun.
  change (ueqb (u "Kun") (u "Kun")) with true. cbv iota.
  change (reading r2) with d1. change (length (examples r2)) with 2%nat.
  rewrite (undelimit _ _ _ _ no_dot split1).
  (* the first example agrees with the reading *)
  rewrite (okurigana_loop_same_split _ _ _ _ _ d1 r2 (mkExample e1 None false));
    [|exact Hself2|reflexivity|exact split1|exact dot1|exact clean_not_d1|reflexivity].
  (* the second one does not *)
  rewrite (okurigana_loop_conflict _ _ _ _ _ d2 r2 (mkExample e2 None false));
    [|exact Hself2|reflexivity|exact split2|exact dot2|exact clean_not_d1
     |exact disagree|exact ordinary].
  change (set_examples (delete 1%nat (examples r2)) r2) with (after_first d1 e1 r).
  subst w2. cbn [store the_kanji]. rewrite list_insert_insert_eq.
  rewrite (bind_ret _ _ _ _ _ (Kanji_add_reading_ok _ _ _ (created clean) _ (Reading_init_kun _ _ kana))).
  set (w3 := mkWorld _ _).
  assert (readings (the_kanji w3) = (rs ++ [self]) ++ [length (store w)]) as Hrs3.
  { subst w3. simpl. now rewrite last_reading, length_insert. }
  assert (store w3 !! length (store w) = Some (created clean)) as Hnew.
  { subst w3. simpl. apply list_lookup_middle. now rewrite length_insert. }
  rewrite (bind_ret _ _ _ (mkWorld (the_kanji w3)
                                   (<[length (store w) := (variant clean d2 e2)]> (store w3))) tt).
  2:{ rewrite (Kanji_add_examples_ok _ _ _ _ _ Hrs3).
      apply disputed_example; [reflexivity|exact Hnew]. }
  set (w4 := mkWorld _ _).
  assert (readings (the_kanji w4) = rs ++ [self; length (store w)]) as Hrs4.
  { subst w4 w3. simpl. now rewrite last_reading, length_insert, <- app_assoc. }
  rewrite (bind_ret _ _ _ _ _ (swap_last_two_ok _ _ _ _ Hrs4)).
  cbn [okurigana_loop mret M_ret]. f_equal.
  unfold world_after_second. subst w4 w3. simpl. rewrite length_insert. f_equal.
  replace (length (store w)) with (length (<[self := (after_first d1 e1 r)]> (store w)) + 0)%nat
    at 1 by (rewrite length_insert; lia).
  now rewrite insert_app_r.
Qed.

End Conflict.

(** C2.  A Kun reading, last of its kanji and without example, receives
    two simple examples, each by a call of its own, and the okurigana
    splits computed for them disagree.  After the first call the reading
    holds the first example and the first split.  The second call removes
    the second example from the reading again, creates a Reading from the
    undelimited kana without variant label, attaches the disputed example
    to it (which delimits this new reading by the second split), and puts
    it immediately before the original reading, which stays last and keeps
    the first split and the first example only.  For the example 恐らく the
    new reading is created from the root おそらく with the variant label
    おそ.れる, whatever the kana of the original reading are. *)
Theorem conflict_resolution :
  (forall popularize clean e1 e2 d1 d2 self rs r w fuel1 fuel2,
     simple_example popularize e1 -> simple_example popularize e2 ->
     readings (the_kanji w) = rs ++ [self] -> store w !! self = Some r ->
     kind r = u "Kun" -> examples r = [] -> reading r = clean ->
     contains (u ".") clean = false -> kun_kana clean = true ->
     delimit_okurigana (kanji (the_kanji w)) clean e1 = Ret d1 ->
     delimit_okurigana (kanji (the_kanji w)) clean e2 = Ret d2 ->
     contains (u ".") d1 = true -> contains (u ".") d2 = true -> d1 <> d2 ->
     e2 <> u "恐らく" ->
     let original := set_reading d1 (set_examples [mkExample e1 None false] r) in
     let created := mkReading clean false [] (u "Kun") None [] [] in
     let variant := set_reading d2 (set_examples [mkExample e2 None false] created) in
     let w1 := mkWorld (the_kanji w) (<[self := original]> (store w)) in
     Reading_add_examples popularize (S fuel1) self e1 w = (Ret tt, w1) /\
     Reading_init clean None None = Ret created /\
     Reading_add_examples popularize (S (S fuel2)) self e2 w1 =
       (Ret tt,
        mkWorld (set_readings (rs ++ [length (store w); self]) (the_kanji w))
                (<[self := original]> (store w) ++ [variant])) /\
     str_replace (u ".") [] d2 = clean) /\
  (let out := Reading_add_examples joyo_popularize 2 1 (u "恐らく") fear in
   store fear !! 1%nat =
     Some (mkReading (u "おそ.れる") false [mkExample (u "恐れる") None false]
                     (u "Kun") None [] []) /\
   fst out = Ret tt /\
   readings (the_kanji (snd out)) = [0; 2; 1]%nat /\
   store (snd out) !! 1%nat = store fear !! 1%nat /\
   Reading_init (u "おそらく") (Some (u "おそ.れる")) None =
     Ret (mkReading (u "おそらく") false [] (u "Kun") (Some (u "おそ.れる")) [] []) /\
   store (snd out) !! 2%nat =
     Some (mkReading (u "おそ.らく") false [mkExample (u "恐らく") None false]
                     (u "Kun") (Some (u "おそ.れる")) [] [])).
Proof.
  split.
  - intros popularize clean e1 e2 d1 d2 self rs r w fuel1 fuel2
           H1 H2 H3 H4 H5 H6 H7 H8 H9 H10 H11 H12 H13 H14 H15.
    cbv zeta. split; [|split; [|split]].
    + eapply first_example; eassumption.
    + now apply Reading_init_kun.
    + eapply second_example; eassumption.
    + eapply undelimit; eassumption.
  - vm_compute. repeat split; reflexivity.
Qed.

Lemma conflict_resolution_witness :
  exists w1 w2,
    Reading_add_examples joyo_popularize 1 1 (u "食べる")
                         (entry "食" ["ショク"; "たべる"]%string) = (Ret tt, w1) /\
    Reading_add_examples joyo_popularize 2 1 (u "食う") w1 = (Ret tt, w2) /\
    readings (the_kanji w2) = [0; 2; 1]%nat.
Proof.
  pose (w := entry "食" ["ショク"; "たべる"]%string).
  pose (r := mkReading (u "たべる") false [] (u "Kun") None [] []).
  assert (simple_example joyo_popularize (u "食べる")) as H1
      by (repeat split; vm_compute; reflexivity).
  assert (simple_example joyo_popularize (u "食う")) as H2
      by (repeat split; vm_compute; reflexivity).
  assert (readings (the_kanji w) = [0%nat] ++ [1%nat]) as H3 by (vm_compute; reflexivity).
  assert (store w !! 1%nat = Some r) as H4 by (vm_compute; reflexivity).
  assert (kind r = u "Kun") as H5 by (vm_compute; reflexivity).
  assert (examples r = []) as H6 by reflexivity.
  assert (reading r = u "たべる") as H7 by reflexivity.
  assert (contains (u ".") (u "たべる") = false) as H8 by (vm_compute; reflexivity).
  assert (kun_kana (u "たべる") = true) as H9 by (vm_compute; reflexivity).
  assert (delimit_okurigana (kanji (the_kanji w)) (u "たべる") (u "食べる")
          = Ret (u "た.べる")) as H10 by (vm_compute; reflexivity).
  assert (delimit_okurigana (kanji (the_kanji w)) (u "たべる") (u "食う")
          = Ret (u "たべ.る")) as H11 by (vm_compute; reflexivity).
  assert (contains (u ".") (u "た.べる") = true) as H12 by (vm_compute; reflexivity).
  assert (contains (u ".") (u "たべ.る") = true) as H13 by (vm_compute; reflexivity).
  assert (u "た.べる" <> u "たべ.る") as H14 by (vm_compute; discriminate).
  assert (u "食う" <> u "恐らく") as H15 by (vm_compute; discriminate).
  destruct (proj1 conflict_resolution joyo_popularize _ _ _ _ _ 1%nat [0%nat] r w 0%nat 0%nat
              H1 H2 H3 H4 H5 H6 H7 H8 H9 H10 H11 H12 H13 H14 H15)
    as (Ha & _ & Hb & _).
  eexists _, _. split; [exact Ha|]. split; [exact Hb|]. reflexivity.
Defined.

(** ** The exceptions of [add_examples] *)

Lemma mild_ret {A : Type} (a : A) : mild (mret a).
Proof. intros w e w' H. discriminate H. Qed.

Lemma mild_bind {A B : Type} (x : M A) (f : A -> M B) :
  mild x -> (forall a, mild (f a)) -> mild (x ≫= f).
Proof.
  intros Hx Hf w e w'. unfold mbind, M_bind.
  destruct (x w) as [[a|e0|y] w0] eqn:E.
  - apply Hf.
  - intros [= <- <-]. eapply Hx; eauto.
  - discriminate.
Qed.

Lemma mild_lift {A : Type} (r : res A) :
  (forall e, r = Raise e -> benign e) -> mild (lift r).
Proof. intros H w e w' [= E _]. now apply H. Qed.

Lemma mild_get_kanji : mild get_kanji.
Proof. intros w e w' H. discriminate H. Qed.

Lemma mild_update_kanji (f : Kanji -> Kanji) : mild (update_kanji f).
Proof. intros w e w' H. discriminate H. Qed.

Lemma mild_deref (self : nat) : mild (deref self).
Proof. intros w e w'. unfold deref. destruct (store w !! self); discriminate. Qed.

Lemma mild_update_reading (self : nat) (f : Reading -> Reading) :
  mild (update_reading self f).
Proof. intros w e w'. unfold update_reading. destruct (store w !! self); discriminate. Qed.

Lemma mild_alloc (r : Reading) : mild (alloc r).
Proof. intros w e w' H. discriminate H. Qed.

Lemma mild_index_from_end {A : Type} (n : nat) (l : list A) : mild (index_from_end n l).
Proof.
  intros w e w'. unfold index_from_end. destruct (neg_index n l).
  - discriminate.
  - intros [= <- _]. now left.
Qed.

Lemma Reading_init_benign (rd : ustring) (v k : option ustring) (e : exn) :
  Reading_init rd v k = Raise e -> benign e.
Proof.
  unfold Reading_init. destruct rd as [|x rd]; [intros [= <-]; now left|].
  destruct (x =? 0x3000)%N; discriminate.
Qed.

Lemma search_pattern_benign (p s : ustring) (e : exn) :
  search_pattern p s = Raise e -> benign e.
Proof.
  unfold search_pattern. destruct (compile p); try discriminate.
  intros [= <-]. now right.
Qed.

Lemma godan_probe_benign (ok s : ustring) (found : res (option ustring)) (e : exn) :
  (forall e', found <> Raise e') ->
  match neg_index 1 ok with
  | None => Raise IndexError
  | Some last =>
    match dict_get last GODAN_INFLECTION with
    | Some inflected =>
      match3 ← search_pattern (re_sub LAST_CHAR inflected ok) s;
      if match3 : bool then found else mret None
    | None => mret None
    end
  end = Raise e -> benign e.
Proof.
  intros Hfound. destruct (neg_index 1 ok) as [last|]; [|intros [= <-]; now left].
  destruct (dict_get last GODAN_INFLECTION) as [inflected|]; [|discriminate].
  destruct (search_pattern _ s) as [[]|e'|] eqn:E; cbn [mbind res_bind];
    try discriminate.
  - intros H. now apply Hfound in H.
  - intros [= <-]. now apply search_pattern_benign in E.
Qed.

Lemma try_suffix_benign (k r s suffix : ustring) (e : exn) :
  try_suffix k r s suffix = Raise e -> benign e.
Proof.
  unfold try_suffix. cbv zeta.
  destruct (search_pattern (k ++ suffix) s) as [[]|e1|] eqn:E1; cbn [mbind res_bind];
    try discriminate.
  - destruct (is_ichidan_verb k r).
    + destruct (search_pattern (removelast (k ++ suffix)) s) as [[]|e2|] eqn:E2;
        cbn [mbind res_bind mret res_ret]; try discriminate.
      * apply godan_probe_benign. discriminate.
      * intros [= <-]. now apply search_pattern_benign in E2.
    + cbn [mbind res_bind mret res_ret]. apply godan_probe_benign. discriminate.
  - intros [= <-]. now apply search_pattern_benign in E1.
Qed.

Lemma delimit_okurigana_benign (k r s : ustring) (e : exn) :
  delimit_okurigana k r s = Raise e -> benign e.
Proof.
  unfold delimit_okurigana. destruct (ueqb s k); [discriminate|].
  induction (all_suffixes r) as [|suffix l IH]; simpl; [discriminate|].
  destruct (try_suffix k r s suffix) as [[d|]| |] eqn:E; cbn [mbind res_bind];
    try discriminate; [exact IH|].
  intros [= <-]. now apply try_suffix_benign in E.
Qed.

Lemma mild_Kanji_add_reading (rd : ustring) (k v : option ustring) :
  mild (Kanji_add_reading rd k v).
Proof.
  unfold Kanji_add_reading. apply mild_bind.
  - apply mild_lift, Reading_init_benign.
  - intros r. apply mild_bind; [apply mild_alloc|]. intros n. apply mild_update_kanji.
Qed.

Lemma mild_swap_last_two : mild swap_last_two.
Proof.
  unfold swap_last_two. apply mild_bind; [apply mild_get_kanji|]. intros k.
  apply mild_bind; [apply mild_index_from_end|]. intros a.
  apply mild_bind; [apply mild_index_from_end|]. intros b. apply mild_update_kanji.
Qed.

Section MildLoops.

Variable recur : nat -> ustring -> M unit.
Hypothesis mild_recur : forall n s, mild (recur n s).

Lemma mild_Kanji_add_examples (s : ustring) : mild (Kanji_add_examples recur s).
Proof.
  unfold Kanji_add_examples. apply mild_bind; [apply mild_get_kanji|]. intros k.
  apply mild_bind; [apply mild_index_from_end|]. intros n. apply mild_recur.
Qed.

Lemma mild_gloss_loop (self : nat) (l : list ustring) : mild (gloss_loop recur self l).
Proof.
  induction l as [|ex l IH]; cbn [gloss_loop]; [apply mild_ret|].
  apply mild_bind; [|intros _; exact IH].
  destruct (re_match GLOSS ex); [|apply mild_update_reading].
  apply mild_bind; [apply mild_deref|]. intros r.
  apply mild_bind; [apply mild_Kanji_add_reading|]. intros _.
  apply mild_bind; [apply mild_Kanji_add_examples|]. intros _. apply mild_swap_last_two.
Qed.

Lemma mild_okurigana_loop (self n i : nat) (clean : ustring) :
  mild (okurigana_loop recur self n i clean).
Proof.
  revert i clean; induction n as [|n IH]; intros i clean; cbn [okurigana_loop];
    [apply mild_ret|].
  apply mild_bind; [apply mild_deref|]. intros r.
  destruct (examples r !! i) as [ex|]; [|apply mild_ret].
  apply mild_bind; [apply mild_get_kanji|]. intros k.
  apply mild_bind; [apply mild_lift, delimit_okurigana_benign|]. intros d.
  destruct (contains (u ".") d); [|apply IH].
  destruct (ueqb clean (reading r)).
  { apply mild_bind; [apply mild_update_reading|]. intros _. apply IH. }
  destruct (negb (ueqb (reading r) d)); [|apply IH].
  apply mild_bind; [apply mild_update_reading|]. intros _.
  destruct (ueqb (example ex) (u "恐らく"));
    (apply mild_bind; [apply mild_Kanji_add_reading|]; intros _;
     apply mild_bind; [apply mild_Kanji_add_examples|]; intros _;
     apply mild_bind; [apply mild_swap_last_two|]; intros _; apply IH).
Qed.

End MildLoops.

Lemma mild_Reading_add_examples (popularize : ustring -> ustring) (fuel self : nat)
      (s : ustring) :
  mild (Reading_add_examples popularize fuel self s).
Proof.
  revert self s; induction fuel as [|fuel IH]; intros self s.
  - intros w e w' H. discriminate H.
  - cbn [Reading_add_examples]. apply mild_bind.
    + now apply mild_gloss_loop.
    + intros _. apply mild_bind; [apply mild_deref|]. intros r.
      destruct (ueqb (kind r) (u "Kun")); [now apply mild_okurigana_loop|apply mild_ret].
Qed.

(** ** The errors of the reading-scoped notes *)

Lemma get_kanji_bind {B : Type} (f : Kanji -> M B) (w : World) :
  (get_kanji ≫= f) w = f (the_kanji w) w.
Proof. reflexivity. Qed.

Lemma update_reading_fst (self : nat) (f : Reading -> Reading) (r : Reading) (w : World) :
  store w !! self = Some r -> fst (update_reading self f w) = Ret tt.
Proof. intros H. now rewrite (update_reading_ok _ _ _ _ H). Qed.

Lemma note_rules_run (self : nat) (string : ustring) (r : Reading) (w : World) :
  store w !! self = Some r ->
  fst (note_rules self string w) = note_rules_status w r string /\
  (forall msg, note_rules_status w r string = Raise (RuntimeError msg) ->
               snd (note_rules self string w) = w).
Proof.
  intros Hs.
  assert (self < length (store w))%nat as Hlt by (eapply lookup_lt_Some; eauto).
  unfold note_rules, note_rules_status.
  destruct (re_match ALTERNATE string) as [m0|].
  { rewrite (bind_ret _ _ _ _ _ (update_reading_ok _ _ _ _ Hs)).
    destruct (is_some (re_match ORTHOGRAPHIES (group 1 (caps m0)))).
    - rewrite M_ret_bind. split; [|discriminate].
      eapply update_reading_fst. simpl. now apply list_lookup_insert_eq.
    - split; [reflexivity|discriminate]. }
  destruct (is_some (re_match OPENER string)).
  { rewrite (bind_ret _ _ _ _ _ (update_reading_ok _ _ _ _ Hs)).
    split; [|discriminate]. now destruct (is_some (re_search FULL_STOP string)). }
  destruct (is_some (re_match CLOSER string)).
  { split; [|discriminate]. now apply (update_reading_fst _ _ r). }
  rewrite get_kanji_bind. fold (continuation w string).
  destruct (continuation w string).
  { rewrite (bind_ret _ _ _ _ _ (deref_ok _ _ _ Hs)).
    destruct (rnotes r) as [|x notes].
    - unfold index_from_end.
      destruct (neg_index 2 (readings (the_kanji w))) as [previous|];
        [|split; [reflexivity|discriminate]].
      rewrite M_bind_assoc, M_ret_bind, M_bind_assoc. unfold deref at 1.
      unfold mbind at 1, M_bind at 1.
      destruct (store w !! previous) as [r2|] eqn:E2;
        [|split; [reflexivity|discriminate]].
      destruct (rnotes r2) as [|y notes2]; [split; [reflexivity|discriminate]|].
      rewrite (bind_ret _ _ _ _ _ (update_reading_ok _ _ _ _ E2)).
      split; [reflexivity|discriminate].
    - rewrite (bind_ret _ _ _ _ _ (update_reading_ok _ _ _ _ Hs)).
      split; [reflexivity|discriminate]. }
  destruct (is_some (re_match ALSO_WRITTEN string));
    [split; [now apply (update_reading_fst _ _ r)|discriminate]|].
  destruct (is_some (re_match DIVERTED string));
    [split; [now apply (update_reading_fst _ _ r)|discriminate]|].
  destruct (is_some (re_match MEANING string));
    [split; [now apply (update_reading_fst _ _ r)|discriminate]|].
  destruct (is_some (re_search BECOMES string));
    [split; [now apply (update_reading_fst _ _ r)|discriminate]|].
  split; reflexivity.
Qed.

Ltac case_scrutinee :=
  match goal with
  | |- context [match ?x with _ => _ end] => destruct x eqn:?
  end.

Lemma note_rules_status_errors (string : ustring) (r : Reading) (w : World) :
  (forall msg,
     note_rules_status w r string = Raise (ValueError msg) <->
     msg = half_note /\
     negb (is_some (re_match ALTERNATE string)) &&
     negb (is_some (re_match OPENER string)) &&
     negb (is_some (re_match CLOSER string)) &&
     continuation w string && no_open_note w r = true) /\
  (forall msg,
     note_rules_status w r string = Raise (RuntimeError msg) <->
     msg = unknown_note string /\
     negb (is_some (re_match ALTERNATE string)) &&
     negb (is_some (re_match OPENER string)) &&
     negb (is_some (re_match CLOSER string)) &&
     negb (continuation w string) && no_later_rule string = true).
Proof.
  unfold note_rules_status, no_open_note, no_later_rule.
  split; intros msg.
  - repeat case_scrutinee; cbn [negb andb is_some ueqb];
      (split; [intros H; try discriminate H; injection H as <-; split; reflexivity
              |intros [E H]; try discriminate H; now subst]).
  - repeat case_scrutinee; cbn [negb andb is_some ueqb];
      (split; [intros H; try discriminate H; injection H as <-; split; reflexivity
              |intros [E H]; try discriminate H; now subst]).
Qed.

Lemma mild_raise_index {A : Type} : mild (@raise A IndexError).
Proof. intros w e w' [= <- _]. now left. Qed.

Lemma hardcoded_mild (popularize : ustring -> ustring) (fuel self : nat) (string : ustring) :
  existsb (ueqb string) hardcoded_notes = true ->
  mild (Reading_append_to_notes popularize fuel self string).
Proof.
  intros H. unfold Reading_append_to_notes.
  unfold hardcoded_notes in H. cbn [existsb] in H.
  destruct (ueqb string (u "多く文語の「亡き」で使う。")).
  { apply mild_bind; [apply mild_Reading_add_examples|]. intros _.
    apply mild_bind; apply mild_update_reading || (intros _; apply mild_update_reading). }
  destruct (ueqb string (u "「三位一体」，「従三位」は，「サン")).
  { apply mild_bind; [apply mild_update_reading|]. intros _. apply mild_update_kanji. }
  destruct (ueqb string (u "ミイッタイ」，「ジュサンミ」。")).
  { apply mild_bind; [apply mild_get_kanji|]. intros k.
    apply mild_bind; [apply mild_index_from_end|]. intros previous.
    apply mild_bind; [apply mild_update_reading|]. intros _.
    apply mild_bind; [apply mild_update_kanji|]. intros _.
    apply mild_bind; [apply mild_Kanji_add_reading|]. intros _.
    apply mild_bind; [apply mild_get_kanji|]. intros k1.
    apply mild_bind; [apply mild_index_from_end|]. intros last.
    apply mild_bind; [apply mild_update_reading|]. intros _.
    apply mild_bind; [apply mild_get_kanji|]. intros k2.
    apply mild_bind; [apply mild_index_from_end|]. intros last2.
    apply mild_Reading_add_examples. }
  destruct (ueqb string (u "「春雨」，「小雨」，「霧雨」などは，")).
  { apply mild_bind; [apply mild_update_reading|]. intros _. apply mild_update_kanji. }
  destruct (ueqb string (u "「はるさめ」，「こさめ」，「きりさめ」。")).
  { apply mild_bind; [apply mild_update_reading|]. intros _.
    apply mild_bind; [apply mild_update_kanji|]. intros _.
    apply mild_bind; [apply mild_Kanji_add_reading|]. intros _.
    apply mild_bind; [apply mild_get_kanji|]. intros k1.
    apply mild_bind; [apply mild_index_from_end|]. intros last.
    apply mild_bind; [apply mild_update_reading|]. intros _.
    apply mild_bind; [apply mild_get_kanji|]. intros k2.
    apply mild_bind; [apply mild_index_from_end|]. intros last2.
    apply mild_Reading_add_examples. }
  discriminate H.
Qed.

Lemma not_hardcoded (popularize : ustring -> ustring) (fuel self : nat) (string : ustring) :
  existsb (ueqb string) hardcoded_notes = false ->
  Reading_append_to_notes popularize fuel self string =
  ((if ueqb string (u "「憂き」は，文語の連体形。") then
      r ← deref self;
      match mark_first_literary (u "憂き") (examples r) with
      | Some es => update_reading self (set_examples es)
      | None => raise StopIteration
      end
    else mret tt);;
   note_rules self string).
Proof.
  intros H. unfold Reading_append_to_notes.
  unfold hardcoded_notes in H. cbn [existsb] in H.
  repeat (apply orb_false_elim in H as [? H]).
  repeat match goal with E : ueqb string _ = false |- _ => rewrite E; clear E end.
  reflexivity.
Qed.

(** The note on 憂き is taken by the opener rule. *)
Lemma literary_note_status (r : Reading) (w : World) :
  note_rules_status w r (u "「憂き」は，文語の連体形。") = Ret tt /\
  no_earlier_rule (u "「憂き」は，文語の連体形。") = false.
Proof.
  unfold note_rules_status, no_earlier_rule.
  assert (re_match ALTERNATE (u "「憂き」は，文語の連体形。") = None) as ->
      by (vm_compute; reflexivity).
  assert (is_some (re_match OPENER (u "「憂き」は，文語の連体形。")) = true) as ->
      by (vm_compute; reflexivity).
  split; [reflexivity|]. cbn [negb]. now rewrite andb_false_r.
Qed.

(** C4, amended.  For a reading [self] of the store, reading-scoped
    [append_to_notes] raises the ValueError of the broken continuation
    exactly when the line is none of the hardcoded notes and matches none of
    the rules tried before (⇔, opener, closer), the pending flag of the kanji is
    set, the line ends in 。 (a final line feed apart), the notes of the
    reading are empty, and the kanji has a second-to-last reading whose notes
    are empty as well; it raises the RuntimeError of the unknown format,
    which carries the raw line, exactly when the line is none of the
    hardcoded notes, the continuation rule does not apply and no other rule
    matches, and then nothing at all is stored: the world is as it was. *)
Theorem note_errors (popularize : ustring -> ustring) (fuel self : nat)
        (string : ustring) (r : Reading) (w : World) :
  store w !! self = Some r ->
  let out := Reading_append_to_notes popularize fuel self string w in
  (forall msg,
     fst out = Raise (ValueError msg) <->
     msg = half_note /\
     no_earlier_rule string && continuation w string && no_open_note w r = true) /\
  (forall msg,
     fst out = Raise (RuntimeError msg) <->
     msg = unknown_note string /\
     no_earlier_rule string && negb (continuation w string) && no_later_rule string = true) /\
  (forall msg, fst out = Raise (RuntimeError msg) -> snd out = w).
Proof.
  intros Hs. cbv zeta. unfold no_earlier_rule.
  destruct (existsb (ueqb string) hardcoded_notes) eqn:Eh.
  { pose proof (hardcoded_mild popularize fuel self string Eh w) as Hm.
    destruct (Reading_append_to_notes popularize fuel self string w) as [o w'].
    cbn [fst snd negb andb].
    assert (forall e, o = Raise e -> benign e) as Hb.
    { intros e ->. now apply (Hm e w'). }
    assert (forall e, ~ benign e -> o <> Raise e) as Hn.
    { intros e He E. now apply He, Hb. }
    split; [|split]; intros msg; try split;
      try (intros [_ H]; discriminate H);
      intros H; exfalso; revert H; apply Hn; intros [H|H]; discriminate H. }
  rewrite not_hardcoded by assumption. cbn [negb andb].
  destruct (note_rules_status_errors string r w) as [HV HR].
  destruct (ueqb string (u "「憂き」は，文語の連体形。")) eqn:Eu.
  - apply ueqb_spec in Eu. subst string.
    assert (forall w1 r1, store w1 !! self = Some r1 ->
                          fst (note_rules self (u "「憂き」は，文語の連体形。") w1) = Ret tt)
      as Hret.
    { intros w1 r1 H1. rewrite (proj1 (note_rules_run _ _ _ _ H1)).
      apply literary_note_status. }
    destruct (literary_note_status r w) as [_ Hno]. unfold no_earlier_rule in Hno.
    rewrite Eh in Hno. cbn [negb andb] in Hno. rewrite Hno. cbn [andb].
    rewrite M_bind_assoc, (bind_ret _ _ _ _ _ (deref_ok _ _ _ Hs)).
    destruct (mark_first_literary (u "憂き") (examples r)) as [es|].
    + rewrite (bind_ret _ _ _ _ _ (update_reading_ok _ _ _ _ Hs)).
      erewrite Hret; [|simpl; apply list_lookup_insert_eq; eapply lookup_lt_Some; eauto].
      split; [|split]; intros msg; try split; try discriminate;
        intros [_ H]; discriminate H.
    + cbn [fst]. split; [|split]; intros msg; try split; try discriminate;
        intros [_ H]; discriminate H.
  - rewrite M_ret_bind. destruct (note_rules_run self string r w Hs) as [-> Hw].
    split; [exact HV|]. split; [exact HR|exact Hw].
Qed.

Lemma note_errors_witness :
  fst (Reading_append_to_notes joyo_popularize 1 1 (u "あいう。") river_pending)
    = Raise (ValueError half_note) /\
  Reading_append_to_notes joyo_popularize 1 1 (u "あいう。") river
    = (Raise (RuntimeError (unknown_note (u "あいう。"))), river).
Proof.
  pose (r := mkReading (u "かわ") false [] (u "Kun") None [] []).
  assert (store river_pending !! 1%nat = Some r) as Hp by (vm_compute; reflexivity).
  assert (store river !! 1%nat = Some r) as Hr by (vm_compute; reflexivity).
  destruct (note_errors joyo_popularize 1 1 (u "あいう。") r river_pending Hp) as (HV & _ & _).
  destruct (note_errors joyo_popularize 1 1 (u "あいう。") r river Hr) as (_ & HR & Hw).
  split.
  - apply HV. split; [reflexivity|vm_compute; reflexivity].
  - assert (fst (Reading_append_to_notes joyo_popularize 1 1 (u "あいう。") river)
            = Raise (RuntimeError (unknown_note (u "あいう。")))) as E.
    { apply HR. split; [reflexivity|vm_compute; reflexivity]. }
    specialize (Hw _ E).
    destruct (Reading_append_to_notes joyo_popularize 1 1 (u "あいう。") river) as [o w'].
    simpl in E, Hw. now subst.
Defined.

(** C4, as stated, fails in both directions.  A line that begins with ⇔
    and goes on with something else than kanji, hiragana or a comma is
    taken by the rule of the alternate orthographies, whose assertion then
    fails: an error is raised although the continuation is not broken (no
    note is pending) and a rule matches the line.  And while a note is
    pending, a line that ends in 。 and is taken by the opener rule is
    stored without any error, although neither the current reading nor the
    second-to-last one has an open note. *)
Lemma note_errors_elsewhere :
  (fst (Reading_append_to_notes joyo_popularize 1 1 (u "⇔ abc") river)
     = Raise AssertionError /\
   claimed_broken_continuation river 1 (u "⇔ abc") = false /\
   is_some (re_match ALTERNATE (u "⇔ abc")) = true) /\
  (claimed_broken_continuation river_pending 1 (u "「川」は，あ。") = true /\
   fst (Reading_append_to_notes joyo_popularize 1 1 (u "「川」は，あ。") river_pending)
     = Ret tt).
Proof. vm_compute. repeat split; reflexivity. Qed.

(* ===================================================================== *)
(** * Further properties *)
(* ===================================================================== *)

(** ** More on [all_suffixes] *)

Lemma range_down_NoDup_map (s : ustring) (n : nat) :
  (n <= length s)%nat ->
  NoDup (map (fun k => slice_last k s) (range_down n)).
Proof.
  induction n as [|n IH]; intros Hn; [constructor|].
  cbn [range_down map]. constructor; [|apply IH; lia].
  intros Hin. apply list_elem_of_In, in_map_iff in Hin as (k & Hk & Hin).
  assert (k <= n)%nat as Hkn.
  { clear -Hin. induction n as [|n IH]; simpl in Hin; [contradiction|].
    destruct Hin as [<-|H]; [lia|]. apply IH in H. lia. }
  assert (1 <= k)%nat as Hk1.
  { clear -Hin. induction n as [|n IH]; simpl in Hin; [contradiction|].
    destruct Hin as [<-|H]; [lia|now apply IH]. }
  apply (f_equal length) in Hk. unfold slice_last in Hk.
  destruct k as [|k]; [lia|]. rewrite !length_skipn in Hk. lia.
Qed.

(** X1.  [all_suffixes(S)] lists exactly the non-empty suffixes of S, each
    of them once; for the empty string it is the empty list. *)
Theorem all_suffixes_exactly (s : ustring) :
  (forall x, x ∈ all_suffixes s <-> x <> [] /\ x `suffix_of` s) /\
  NoDup (all_suffixes s) /\
  all_suffixes [] = [].
Proof.
  split; [|split; [|reflexivity]].
  - intros x. split.
    + intros (i & Hi & ->)%all_suffixes_elem. split; [|apply suffix_drop].
      intros E. apply (f_equal length) in E. rewrite length_drop in E. simpl in E. lia.
    + intros [Hne [pre ->]]. apply list_elem_of_lookup. exists (length pre).
      rewrite all_suffixes_lookup.
      * now rewrite drop_app_length.
      * rewrite length_app. destruct x; [congruence|simpl; lia].
  - unfold all_suffixes. now apply range_down_NoDup_map.
Qed.

(** ** More on the okurigana delimiter *)

Lemma starts_with_app_l (a b e : ustring) :
  starts_with (a ++ b) e = true -> starts_with a e = true.
Proof.
  revert e; induction a as [|x a IH]; intros e; [reflexivity|].
  simpl. destruct e as [|y e]; [discriminate|].
  rewrite !andb_true_iff. intros [H1 H2]. split; [exact H1|now apply IH].
Qed.

Lemma contains_app_l (a b e : ustring) :
  contains (a ++ b) e = true -> contains a e = true.
Proof.
  rewrite !contains_drop. intros (i & Hi & H). exists i. split; [exact Hi|].
  now apply starts_with_app_l in H.
Qed.

Lemma contains_absent_app (a b e : ustring) :
  contains a e = false -> contains (a ++ b) e = false.
Proof.
  intros H. destruct (contains (a ++ b) e) eqn:E; [|reflexivity].
  apply contains_app_l in E. congruence.
Qed.

Lemma starts_with_refl (s : ustring) : starts_with s s = true.
Proof. induction s as [|x s IH]; simpl; [reflexivity|]. now rewrite N.eqb_refl. Qed.

Lemma contains_refl (s : ustring) : contains s s = true.
Proof. destruct s; simpl; [reflexivity|]. now rewrite N.eqb_refl, starts_with_refl. Qed.

Lemma search_godan_absent (stem cls e : ustring) (last : N) :
  plain stem = true ->
  dict_get last GODAN_INFLECTION = Some cls ->
  (forall x, contains (stem ++ [x]) e = false) ->
  search_pattern (re_sub LAST_CHAR cls (stem ++ [last])) e = Ret false.
Proof.
  intros Hs Hcls Hno.
  destruct (godan_class_parses last cls (rev (map Chr stem) ++ []) Hcls) as [Hlf Hp].
  rewrite re_sub_last_char by assumption.
  unfold search_pattern, compile. rewrite parse_plain by (assumption || reflexivity).
  simpl p_stack. simpl p_alts. simpl p_seq. simpl p_groups. rewrite Hp. f_equal.
  rewrite app_nil_r.
  change (mk_seq (Cls (map CChar (godan_forms last)) :: rev (map Chr stem)))
    with (lit_then stem (Cls (map CChar (godan_forms last)))).
  destruct (is_some (re_search _ e)) eqn:E; [|reflexivity]. exfalso.
  apply search_from_some in E as (i & Hi & E).
  unfold match_at in E. rewrite m_lit_then in E.
  destruct (starts_with stem (drop i e)) eqn:Hst; [|discriminate].
  simpl in E. unfold step1 in E. simpl in E.
  destruct (drop (length stem) (drop i e)) as [|x t] eqn:Ht; [discriminate|].
  assert (contains (stem ++ [x]) e = true) as Hc.
  { apply contains_drop. exists i. split; [exact Hi|].
    apply starts_with_snoc. split; [exact Hst|eauto]. }
  rewrite Hno in Hc. discriminate.
Qed.

Lemma removelast_app_nonempty {A : Type} (k t : list A) :
  t <> [] -> removelast (k ++ t) = k ++ removelast t.
Proof. intros H. now apply removelast_app. Qed.

(** The godan probe of [ok] finds nothing when [ok] begins with a kanji
    that is not in the example. *)
Lemma godan_probe_absent (k t e : ustring) (found : res (option ustring)) :
  plain (k ++ t) = true -> contains k e = false ->
  (forall x, last k = Some x -> dict_get x GODAN_INFLECTION = None) ->
  match neg_index 1 (k ++ t) with
  | None => Raise IndexError
  | Some last =>
    match dict_get last GODAN_INFLECTION with
    | Some inflected =>
      match3 ← search_pattern (re_sub LAST_CHAR inflected (k ++ t)) e;
      if match3 : bool then found else mret None
    | None => mret None
    end
  end = Ret None.
Proof.
  intros Hp Hk Hlast.
  assert (k <> []) as Hne by (intros ->; now rewrite contains_nil in Hk).
  destruct (snoc_cases t) as [->|(t' & x & ->)].
  - rewrite app_nil_r in *. destruct (snoc_cases k) as [->|(k' & x & ->)]; [congruence|].
    rewrite neg_index_last. rewrite (Hlast x); [reflexivity|]. apply last_snoc.
  - rewrite app_assoc, neg_index_last.
    destruct (dict_get x GODAN_INFLECTION) as [cls|] eqn:Hcls; [|reflexivity].
    rewrite search_godan_absent; [reflexivity| |exact Hcls|].
    + rewrite app_assoc, plain_app in Hp. now apply andb_true_iff in Hp.
    + intros y. rewrite <- app_assoc. now apply contains_absent_app.
Qed.

Lemma try_suffix_absent (k r e suffix : ustring) :
  plain k = true -> plain suffix = true -> suffix <> [] ->
  contains k e = false ->
  (forall x, last k = Some x -> dict_get x GODAN_INFLECTION = None) ->
  try_suffix k r e suffix = Ret None.
Proof.
  intros Hk Hs Hne Hc Hlast.
  assert (plain (k ++ suffix) = true) as Hks by (rewrite plain_app, Hk, Hs; reflexivity).
  unfold try_suffix. cbv zeta.
  rewrite (search_pattern_plain (k ++ suffix)) by assumption.
  rewrite (contains_absent_app k suffix e Hc). cbn [mbind res_bind].
  destruct (is_ichidan_verb k r).
  - rewrite search_pattern_plain by now apply plain_removelast.
    rewrite removelast_app_nonempty by assumption.
    rewrite (contains_absent_app k _ e Hc). cbn [mbind res_bind mret res_ret].
    apply godan_probe_absent; try assumption.
    rewrite <- removelast_app_nonempty by assumption. now apply plain_removelast.
  - cbn [mbind res_bind mret res_ret]. now apply godan_probe_absent.
Qed.

(** X2.  When the example does not contain the kanji, the delimiter
    returns the canonical reading unchanged and raises nothing (for a kanji
    and a reading free of pattern metacharacters, the kanji not ending in a
    godan ending kana). *)
Theorem delimit_okurigana_kanji_absent (k r e : ustring) :
  plain k = true -> plain r = true ->
  (forall x, last k = Some x -> dict_get x GODAN_INFLECTION = None) ->
  contains k e = false ->
  delimit_okurigana k r e = Ret r.
Proof.
  intros Hk Hr Hlast Hc. unfold delimit_okurigana.
  assert (ueqb e k = false) as ->.
  { apply ueqb_neq. intros ->. now rewrite contains_refl in Hc. }
  apply suffix_loop_none. intros suffix Hin.
  apply list_elem_of_In, all_suffixes_elem in Hin as (i & Hi & ->).
  apply try_suffix_absent; try assumption; [now apply plain_drop|].
  intros E. apply (f_equal length) in E. rewrite length_drop in E. simpl in E. lia.
Qed.

Lemma delimit_okurigana_kanji_absent_witness :
  delimit_okurigana (u "昼") (u "ひる") (u "朝夕") = Ret (u "ひる").
Proof.
  apply delimit_okurigana_kanji_absent; try (vm_compute; reflexivity).
  intros x Hx. vm_compute in Hx. injection Hx as <-. vm_compute. reflexivity.
Defined.

(** X3.  The delimiter only ever puts one dot into a reading that has
    none, in front of a non-empty suffix: whatever it returns, taking the
    dot out again (as [add_examples] does to recompute the undelimited
    reading) gives the canonical reading back, and the result is the
    reading itself or one character longer, never ending in the dot. *)
Theorem delimit_okurigana_round_trip (k r e d : ustring) :
  contains (u ".") r = false ->
  delimit_okurigana k r e = Ret d ->
  str_replace (u ".") [] d = r /\
  (d = r \/
   length d = S (length r) /\ contains (u ".") d = true /\ last d = last r /\
   last d <> Some (ch ".")).
Proof.
  intros Hr Hd. split; [now apply (undelimit k r e)|].
  apply delimit_okurigana_shape in Hd as [->|(i & Hi & ->)]; [now left|]. right.
  assert (drop i r <> []) as Hne.
  { intros E. apply (f_equal length) in E. rewrite length_drop in E. simpl in E. lia. }
  assert (last (take i r ++ u "." ++ drop i r) = last r) as Hlast.
  { destruct (last (drop i r)) as [x|] eqn:E; [|apply last_None in E; congruence].
    transitivity (Some x).
    - now rewrite !last_app, E.
    - pose proof (take_drop i r) as Htd. rewrite <- Htd at 1. now rewrite last_app, E. }
  split; [|split; [|split]].
  - rewrite !length_app, length_take, length_drop. simpl. lia.
  - apply (contains_single (ch ".")). apply in_or_app. right. now left.
  - exact Hlast.
  - rewrite Hlast. intros E. apply last_Some in E as [l' E].
    assert (In (ch ".") r) as Hin by (rewrite E; apply in_or_app; right; now left).
    apply (contains_single (ch ".")) in Hin.
    change [ch "."] with (u ".") in Hin. congruence.
Qed.

Lemma delimit_okurigana_round_trip_witness :
  str_replace (u ".") [] (u "たよ.る") = u "たよる".
Proof.
  refine (proj1 (delimit_okurigana_round_trip (u "頼") (u "たよる") (u "頼り") (u "たよ.る") _ _));
    vm_compute; reflexivity.
Defined.

(** ** Creating readings *)

(** X4.  [Reading.__init__] raises IndexError on the empty raw reading,
    whatever the other arguments.  A kind that is given and not empty is
    stored as it is, without autodetection, while the uncommon mark is
    handled as usual; a kind given as the empty string counts as absent. *)
Theorem Reading_init_kind_argument :
  (forall v k, Reading_init [] v k = Raise IndexError) /\
  (forall x tail v k,
     k <> [] ->
     Reading_init (x :: tail) v (Some k) =
     Ret (if (x =? 0x3000)%N
          then mkReading tail true [] k v [] []
          else mkReading (x :: tail) false [] k v [] [])) /\
  (forall raw v, Reading_init raw v (Some []) = Reading_init raw v None).
Proof.
  split; [reflexivity|]. split; [|reflexivity].
  intros x tail v k Hk. unfold Reading_init.
  destruct k as [|y k]; [congruence|]. simpl given.
  now destruct (x =? 0x3000)%N.
Qed.

Lemma Reading_init_kind_argument_witness :
  Reading_init (u "　じょう") None (Some (u "On")) =
  Ret (mkReading (u "じょう") true [] (u "On") None [] []).
Proof.
  assert (u "On" <> []) as H by (vm_compute; discriminate).
  exact (proj1 (proj2 Reading_init_kind_argument) _ _ None (u "On") H).
Defined.

(** X5.  [Kanji.add_reading] with a non-empty raw reading creates one
    Reading, puts it at the end of the readings, and leaves every other
    object alone; [Kanji.add_examples] then hands its examples to that new
    reading.  With the empty raw reading it raises IndexError and changes
    nothing, and [Kanji.add_examples] on a kanji without readings raises
    IndexError and changes nothing either. *)
Theorem add_reading_then_add_examples :
  (forall rd kd v w,
     rd <> [] ->
     exists r,
       Reading_init rd v kd = Ret r /\
       Kanji_add_reading rd kd v w =
       (Ret tt, mkWorld (set_readings (readings (the_kanji w) ++ [length (store w)])
                                      (the_kanji w))
                        (store w ++ [r])) /\
       forall recur s,
         Kanji_add_examples recur s (snd (Kanji_add_reading rd kd v w)) =
         recur (length (store w)) s (snd (Kanji_add_reading rd kd v w))) /\
  (forall kd v w, Kanji_add_reading [] kd v w = (Raise IndexError, w)) /\
  (forall recur s w,
     readings (the_kanji w) = [] ->
     Kanji_add_examples recur s w = (Raise IndexError, w)).
Proof.
  split; [|split].
  - intros rd kd v w Hne.
    assert (exists r, Reading_init rd v kd = Ret r) as [r Hr].
    { unfold Reading_init. destruct rd as [|x rd]; [congruence|].
      destruct (x =? 0x3000)%N; eauto. }
    exists r. split; [exact Hr|].
    rewrite (Kanji_add_reading_ok _ _ _ _ _ Hr). split; [reflexivity|].
    intros recur s. now apply (Kanji_add_examples_ok _ _ (readings (the_kanji w))).
  - reflexivity.
  - intros recur s w H. unfold Kanji_add_examples, get_kanji, mbind, M_bind.
    now rewrite H.
Qed.

Lemma add_reading_then_add_examples_witness :
  exists r,
    Reading_init (u "かわ") None None = Ret r /\
    store (snd (Kanji_add_reading (u "かわ") None None (entry "川" ["セン"]%string)))
    = store (entry "川" ["セン"]%string) ++ [r] /\
    readings (the_kanji (entry "川" [])) = [].
Proof.
  assert (u "かわ" <> []) as H by (vm_compute; discriminate).
  destruct (proj1 add_reading_then_add_examples (u "かわ") None None
              (entry "川" ["セン"]%string) H) as (r & Hr & Hw & _).
  exists r. split; [exact Hr|]. rewrite Hw. split; reflexivity.
Defined.

(** ** What the engine keeps *)

Lemma registry_evolves_refl (w : World) : registry_evolves w w.
Proof.
  split; [lia|]. rewrite Nat.sub_diag. simpl. now rewrite app_nil_r.
Qed.

Lemma registry_evolves_trans (w1 w2 w3 : World) :
  registry_evolves w1 w2 -> registry_evolves w2 w3 -> registry_evolves w1 w3.
Proof.
  intros [H1 P1] [H2 P2]. split; [lia|].
  rewrite P2, P1, <- app_assoc. apply Permutation_app_head.
  replace (length (store w3) - length (store w1))%nat
    with ((length (store w2) - length (store w1)) + (length (store w3) - length (store w2)))%nat
    by lia.
  rewrite seq_app.
  replace (length (store w1) + (length (store w2) - length (store w1)))%nat
    with (length (store w2)) by lia.
  reflexivity.
Qed.

Section Evolution.

Variable QK : Kanji -> Kanji -> Prop.
Variable Q : Reading -> Reading -> Prop.
Hypothesis QK_refl : forall k, QK k k.
Hypothesis QK_trans : forall a b c, QK a b -> QK b c -> QK a c.
Hypothesis Q_refl : forall r, Q r r.
Hypothesis Q_trans : forall a b c, Q a b -> Q b c -> Q a c.
Hypothesis QK_readings : forall k v, QK k (set_readings v k).
Hypothesis Q_examples : forall r v, Q r (set_examples v r).
Hypothesis Q_dot : forall r d, undot d = undot (reading r) -> Q r (set_reading d r).

Lemma evolves_refl (w : World) : evolves QK Q w w.
Proof.
  split; [apply registry_evolves_refl|]. split; [apply QK_refl|]. eauto.
Qed.

Lemma evolves_trans (w1 w2 w3 : World) :
  evolves QK Q w1 w2 -> evolves QK Q w2 w3 -> evolves QK Q w1 w3.
Proof.
  intros (R1 & K1 & S1) (R2 & K2 & S2).
  split; [eapply registry_evolves_trans; eauto|]. split; [eauto|].
  intros i r Hr. destruct (S1 i r Hr) as (r' & Hr' & Q1).
  destruct (S2 i r' Hr') as (r'' & Hr'' & Q2). eauto.
Qed.

Lemma keeps_bind {A B : Type} (x : M A) (f : A -> M B) (w : World) :
  keeps (evolves QK Q) x w ->
  (forall a w1, x w = (Ret a, w1) -> keeps (evolves QK Q) (f a) w1) ->
  keeps (evolves QK Q) (x ≫= f) w.
Proof.
  intros Hx Hf o w'. unfold mbind, M_bind.
  destruct (x w) as [[a|e|y] w1] eqn:E.
  - intros H. eapply evolves_trans; [exact (Hx _ _ E)|]. exact (Hf a w1 eq_refl o w' H).
  - intros [= <- <-]. exact (Hx _ _ E).
  - intros [= <- <-]. exact (Hx _ _ E).
Qed.

Lemma keeps_unchanged {A : Type} (x : M A) (w : World) :
  snd (x w) = w -> keeps (evolves QK Q) x w.
Proof.
  intros H o w' E. rewrite E in H. simpl in H. subst w'. apply evolves_refl.
Qed.

Lemma keeps_update_reading (self : nat) (f : Reading -> Reading) (w : World) :
  (forall r, store w !! self = Some r -> Q r (f r)) ->
  keeps (evolves QK Q) (update_reading self f) w.
Proof.
  intros Hf o w'. unfold update_reading.
  destruct (store w !! self) as [r|] eqn:E; intros [= <- <-]; [|apply evolves_refl].
  split; [|split].
  - split; simpl; rewrite length_insert; [lia|].
    rewrite Nat.sub_diag. simpl. now rewrite app_nil_r.
  - apply QK_refl.
  - intros i r0 Hi. simpl. destruct (decide (i = self)) as [->|Hne].
    + rewrite list_lookup_insert_eq by (eapply lookup_lt_Some; eauto).
      rewrite E in Hi. injection Hi as <-. eauto.
    + rewrite list_lookup_insert_ne by congruence. eauto.
Qed.

Lemma keeps_Kanji_add_reading (rd : ustring) (k v : option ustring) (w : World) :
  keeps (evolves QK Q) (Kanji_add_reading rd k v) w.
Proof.
  intros o w'. destruct (Reading_init rd v k) as [r|e|y] eqn:E.
  - rewrite (Kanji_add_reading_ok _ _ _ _ _ E). intros [= <- <-].
    split; [|split].
    + split; simpl; rewrite length_app; simpl; [lia|].
      replace (length (store w) + 1 - length (store w))%nat with 1%nat by lia.
      reflexivity.
    + apply QK_readings.
    + intros i r0 Hi. simpl. rewrite lookup_app_l by (eapply lookup_lt_Some; eauto). eauto.
  - unfold Kanji_add_reading, lift, mbind, M_bind. rewrite E.
    intros [= <- <-]. apply evolves_refl.
  - unfold Kanji_add_reading, lift, mbind, M_bind. rewrite E.
    intros [= <- <-]. apply evolves_refl.
Qed.

Lemma neg_index_second_inv {A : Type} (l : list A) (a b : A) :
  neg_index 2 l = Some a -> neg_index 1 l = Some b -> exists l', l = l' ++ [a; b].
Proof.
  intros Ha Hb. apply neg_index_last_inv in Hb as [l1 ->].
  destruct (snoc_cases l1) as [->|(l2 & x & ->)]; [discriminate|].
  rewrite <- app_assoc in Ha. simpl in Ha. rewrite neg_index_second in Ha.
  injection Ha as ->. exists l2. now rewrite <- app_assoc.
Qed.

Lemma keeps_swap_last_two (w : World) : keeps (evolves QK Q) swap_last_two w.
Proof.
  intros o w'.
  destruct (neg_index 2 (readings (the_kanji w))) as [a|] eqn:Ea.
  - destruct (neg_index 1 (readings (the_kanji w))) as [b|] eqn:Eb.
    + destruct (neg_index_second_inv _ _ _ Ea Eb) as [l Hl].
      rewrite (swap_last_two_ok _ _ _ _ Hl). intros [= <- <-].
      split; [|split; [apply QK_readings|eauto]].
      split; simpl; [lia|]. rewrite Nat.sub_diag, Hl. simpl. rewrite app_nil_r.
      apply Permutation_app_head. apply perm_swap.
    + unfold swap_last_two, get_kanji, index_from_end, mbind, M_bind.
      rewrite Ea, Eb. intros [= <- <-]. apply evolves_refl.
  - unfold swap_last_two, get_kanji, index_from_end, mbind, M_bind.
    rewrite Ea. intros [= <- <-]. apply evolves_refl.
Qed.

Lemma keeps_index_from_end {A : Type} (n : nat) (l : list A) (w : World) :
  keeps (evolves QK Q) (index_from_end n l) w.
Proof.
  apply keeps_unchanged. unfold index_from_end. now destruct (neg_index n l).
Qed.

Lemma keeps_deref (self : nat) (w : World) : keeps (evolves QK Q) (deref self) w.
Proof. apply keeps_unchanged. unfold deref. now destruct (store w !! self). Qed.

Section Loops.

Variable recur : nat -> ustring -> M unit.
Hypothesis keeps_recur : forall n s w, keeps (evolves QK Q) (recur n s) w.

Lemma keeps_Kanji_add_examples (s : ustring) (w : World) :
  keeps (evolves QK Q) (Kanji_add_examples recur s) w.
Proof.
  unfold Kanji_add_examples. apply keeps_bind; [now apply keeps_unchanged|].
  intros k w1 _. apply keeps_bind; [apply keeps_index_from_end|].
  intros n w2 _. apply keeps_recur.
Qed.

Lemma keeps_gloss_loop (self : nat) (l : list ustring) (w : World) :
  keeps (evolves QK Q) (gloss_loop recur self l) w.
Proof.
  revert w; induction l as [|ex l IH]; intros w; cbn [gloss_loop];
    [now apply keeps_unchanged|].
  apply keeps_bind; [|intros _ w1 _; apply IH].
  destruct (re_match GLOSS ex).
  - apply keeps_bind; [apply keeps_deref|]. intros r w1 _.
    apply keeps_bind; [apply keeps_Kanji_add_reading|]. intros _ w2 _.
    apply keeps_bind; [apply keeps_Kanji_add_examples|]. intros _ w3 _.
    apply keeps_swap_last_two.
  - apply keeps_update_reading. intros r _. apply Q_examples.
Qed.

Lemma keeps_okurigana_loop (self n i : nat) (clean : ustring) (w : World) :
  contains (u ".") clean = false ->
  keeps (evolves QK Q) (okurigana_loop recur self n i clean) w.
Proof.
  revert i clean w; induction n as [|n IH]; intros i clean w Hclean;
    cbn [okurigana_loop]; [now apply keeps_unchanged|].
  apply keeps_bind; [apply keeps_deref|]. intros r w1 Hr.
  assert (w1 = w /\ store w !! self = Some r) as [-> Hself].
  { unfold deref in Hr. destruct (store w !! self); [|discriminate].
    injection Hr as -> ->. auto. }
  destruct (examples r !! i) as [ex|]; [|now apply keeps_unchanged].
  apply keeps_bind; [now apply keeps_unchanged|]. intros k w1 Hk.
  assert (w1 = w /\ k = the_kanji w) as [-> ->].
  { unfold get_kanji in Hk. injection Hk as -> ->. auto. }
  apply keeps_bind; [now apply keeps_unchanged|]. intros d w1 Hd.
  assert (w1 = w /\ delimit_okurigana (kanji (the_kanji w)) clean (example ex) = Ret d)
    as [-> Hdel].
  { unfold lift in Hd. injection Hd as -> ->. auto. }
  destruct (contains (u ".") d); [|now apply IH].
  destruct (ueqb clean (reading r)) eqn:Eclean.
  { apply keeps_bind; [|intros _ w1 _; now apply IH].
    apply keeps_update_reading. intros r0 Hr0.
    rewrite Hself in Hr0. injection Hr0 as <-. apply Q_dot.
    apply ueqb_spec in Eclean. rewrite <- Eclean. unfold undot.
    rewrite (undelimit _ _ _ _ Hclean Hdel). symmetry. now apply undot_absent. }
  destruct (negb (ueqb (reading r) d)); [|now apply IH].
  apply keeps_bind; [apply keeps_update_reading; intros; apply Q_examples|].
  intros _ w1 _.
  destruct (ueqb (example ex) (u "恐らく"));
    (apply keeps_bind; [apply keeps_Kanji_add_reading|]; intros _ w2 _;
     apply keeps_bind; [apply keeps_Kanji_add_examples|]; intros _ w3 _;
     apply keeps_bind; [apply keeps_swap_last_two|]; intros _ w4 _;
     apply IH; (exact Hclean || (vm_compute; reflexivity))).
Qed.

End Loops.

Lemma undot_has_no_dot (s : ustring) : contains (u ".") (undot s) = false.
Proof.
  unfold undot. change (u ".") with [ch "."]. rewrite str_replace_single.
  destruct (contains [ch "."] (filter (fun y => y <> ch ".") s)) eqn:E; [|reflexivity].
  apply contains_single, list_elem_of_In, list_elem_of_filter in E as [E _]. congruence.
Qed.

Lemma keeps_Reading_add_examples (popularize : ustring -> ustring) (fuel self : nat)
      (s : ustring) (w : World) :
  keeps (evolves QK Q) (Reading_add_examples popularize fuel self s) w.
Proof.
  revert self s w; induction fuel as [|fuel IH]; intros self s w.
  - now apply keeps_unchanged.
  - cbn [Reading_add_examples]. apply keeps_bind; [now apply keeps_gloss_loop|].
    intros _ w1 _. apply keeps_bind; [apply keeps_deref|]. intros r w2 _.
    destruct (ueqb (kind r) (u "Kun")); [|now apply keeps_unchanged].
    apply keeps_okurigana_loop; [exact IH|apply undot_has_no_dot].
Qed.

Lemma keeps_update_kanji (f : Kanji -> Kanji) (w : World) :
  (forall k, QK k (f k)) -> (forall k, readings (f k) = readings k) ->
  keeps (evolves QK Q) (update_kanji f) w.
Proof.
  intros Hf Hrd o w' [= <- <-]. split; [|split; [apply Hf|eauto]].
  split; simpl; [lia|]. rewrite Nat.sub_diag, Hrd. simpl. now rewrite app_nil_r.
Qed.

Lemma keeps_for_each {A : Type} (body : A -> M flow) (l : list A) (w : World) :
  (forall x w1, keeps (evolves QK Q) (body x) w1) ->
  keeps (evolves QK Q) (for_each body l) w.
Proof.
  intros Hbody. revert w; induction l as [|x l IH]; intros w; cbn [for_each].
  - now apply keeps_unchanged.
  - apply keeps_bind; [apply Hbody|]. intros [|] w1 _; [apply IH|now apply keeps_unchanged].
Qed.

Section Notes.

Hypothesis Q_rnotes : forall r v, Q r (set_rnotes v r).
Hypothesis Q_alternate : forall r v, Q r (set_alternate_orthographies v r).
Hypothesis Q_variation : forall r v, Q r (set_variation_of v r).
Hypothesis QK_notes : forall k v, QK k (set_notes v k).
Hypothesis QK_pending : forall k v, QK k (set_pending_note v k).
Hypothesis QK_documentation : forall k v, QK k (set_joyo_documentation v k).
Hypothesis QK_placename : forall k v, QK k (set_placename_readings v k).
Hypothesis QK_compound : forall k v, QK k (set_compound_readings v k).

Variable popularize : ustring -> ustring.

Ltac keeps_auto :=
  repeat first
    [ match goal with
      | |- keeps _ (mbind _ _) _ => apply keeps_bind; [|intros ? ? _]
      | |- keeps _ (update_reading _ _) _ =>
        apply keeps_update_reading; intros ? _; cbv beta
      | |- keeps _ (update_kanji _) _ =>
        apply keeps_update_kanji; [intros ?; cbv beta|intros ?; reflexivity]
      | |- keeps _ (deref _) _ => apply keeps_deref
      | |- keeps _ (index_from_end _ _) _ => apply keeps_index_from_end
      | |- keeps _ (Kanji_add_reading _ _ _) _ => apply keeps_Kanji_add_reading
      | |- keeps _ (Reading_add_examples _ _ _ _) _ => apply keeps_Reading_add_examples
      | |- keeps _ (mret _) _ => apply keeps_unchanged; reflexivity
      | |- keeps _ (raise _) _ => apply keeps_unchanged; reflexivity
      | |- keeps _ get_kanji _ => apply keeps_unchanged; reflexivity
      | |- keeps _ (if ?c then _ else _) _ => destruct c
      | |- keeps _ (match ?c with _ => _ end) _ => destruct c
      end
    | solve [auto] ].

Lemma keeps_note_rules (self : nat) (string : ustring) (w : World) :
  keeps (evolves QK Q) (note_rules self string) w.
Proof. unfold note_rules. keeps_auto. Qed.

Lemma keeps_Reading_append_to_notes (fuel self : nat) (string : ustring) (w : World) :
  keeps (evolves QK Q) (Reading_append_to_notes popularize fuel self string) w.
Proof.
  unfold Reading_append_to_notes.
  repeat match goal with
         | |- keeps _ (if ueqb ?a ?b then _ else _) _ => destruct (ueqb a b)
         end; keeps_auto; apply keeps_note_rules.
Qed.

Lemma keeps_compound_part (part : ustring) (w : World) :
  keeps (evolves QK Q) (compound_part part) w.
Proof.
  unfold compound_part. destruct (re_match COMPOUND_PART part); [|keeps_auto].
  apply keeps_bind; [|intros ? ? _; keeps_auto].
  destruct (_ && _); apply keeps_for_each; intros x w1;
    unfold Kanji_add_placename_reading, Kanji_add_compound_reading; keeps_auto.
Qed.

Lemma keeps_Kanji_append_to_notes (fuel : nat) (string : ustring) (w : World) :
  keeps (evolves QK Q) (Kanji_append_to_notes popularize fuel string) w.
Proof.
  unfold Kanji_append_to_notes. cbv zeta.
  assert (forall w1, keeps (evolves QK Q)
            (k ← get_kanji; last ← index_from_end 1 (readings k);
             Reading_append_to_notes popularize fuel last (strip string)) w1) as Hto.
  { intros w1. keeps_auto. apply keeps_Reading_append_to_notes. }
  destruct (is_some (re_match ACCEPTED_FORM (strip string))); [keeps_auto|].
  destruct (re_match APPENDIX (strip string)); [keeps_auto|].
  destruct (is_some (re_match COMPOUND (strip string))); [|apply Hto].
  apply keeps_bind; [keeps_auto|]. intros _ w1 _.
  apply keeps_bind; [apply keeps_for_each; intros; apply keeps_compound_part|].
  intros [|] w2 _; [apply Hto|keeps_auto].
Qed.

End Notes.

End Evolution.

Lemma registry_evolves_well_formed (w w' : World) :
  registry_evolves w w' -> well_formed w -> well_formed w'.
Proof.
  intros [Hlen Hperm] [Hnd Hb]. split.
  - rewrite Hperm. apply NoDup_app. split; [exact Hnd|]. split; [|apply NoDup_seq].
    intros x Hx Hs%elem_of_seq. specialize (Hb x Hx). lia.
  - intros i Hi. rewrite Hperm in Hi.
    apply elem_of_app in Hi as [Hi|Hi%elem_of_seq]; [specialize (Hb i Hi)|]; lia.
Qed.

Lemma same_but_readings_refl (k : Kanji) : same_but_readings k k.
Proof. now destruct k. Qed.

Lemma same_but_readings_trans (a b c : Kanji) :
  same_but_readings a b -> same_but_readings b c -> same_but_readings a c.
Proof.
  unfold same_but_readings. destruct a, b, c. cbn. intros [= -> -> -> -> -> -> -> -> -> ->].
  intros [= -> -> -> -> -> -> -> -> -> ->]. reflexivity.
Qed.

Lemma same_but_dot_and_examples_trans (a b c : Reading) :
  same_but_dot_and_examples a b -> same_but_dot_and_examples b c ->
  same_but_dot_and_examples a c.
Proof. unfold same_but_dot_and_examples. intuition congruence. Qed.

Lemma same_character_trans (a b c : Kanji) :
  same_character a b -> same_character b c -> same_character a c.
Proof. unfold same_character. intuition congruence. Qed.

Lemma same_sound_trans (a b c : Reading) :
  same_sound a b -> same_sound b c -> same_sound a c.
Proof. unfold same_sound. intuition congruence. Qed.

(** X6. [Reading.add_examples], however it ends (returning, raising, or
    with its calls nested deeper than the bound), leaves every field of the
    kanji but its list of readings as it was, and changes of the Reading
    objects that existed their examples and the okurigana dot of their
    reading only: kana, mark, kind, variation, notes and alternate
    orthographies stay.  No Reading object is lost, and the list of
    readings holds the same references as before plus one for each Reading
    created, in some order. *)
Theorem Reading_add_examples_frame (popularize : ustring -> ustring)
        (fuel self : nat) (examples_str : ustring) (w : World) :
  evolves same_but_readings same_but_dot_and_examples w
          (snd (Reading_add_examples popularize fuel self examples_str w)).
Proof.
  destruct (Reading_add_examples popularize fuel self examples_str w) as [o w'] eqn:E.
  refine (keeps_Reading_add_examples same_but_readings same_but_dot_and_examples
            same_but_readings_refl same_but_readings_trans _
            same_but_dot_and_examples_trans _ _ _ popularize fuel self examples_str w o w' E).
  - intros r. unfold same_but_dot_and_examples. tauto.
  - intros k v. now destruct k.
  - intros r v. unfold same_but_dot_and_examples. simpl. tauto.
  - intros r d Hd. unfold same_but_dot_and_examples. simpl. tauto.
Qed.

(** X7. [Kanji.append_to_notes], and with it [Reading.append_to_notes],
    however it ends, never changes the character of the kanji, its standard
    and accepted forms or its old forms, and never changes the kana (the
    okurigana dot apart), the uncommon mark or the kind of a Reading that
    existed.  No Reading object is lost, and the list of readings holds the
    same references as before plus one for each Reading created. *)
Theorem Kanji_append_to_notes_frame (popularize : ustring -> ustring)
        (fuel : nat) (string : ustring) (w : World) :
  evolves same_character same_sound w
          (snd (Kanji_append_to_notes popularize fuel string w)) /\
  forall self,
    evolves same_character same_sound w
            (snd (Reading_append_to_notes popularize fuel self string w)).
Proof.
  assert (forall r, same_sound r r) as Q_refl by (intros r; unfold same_sound; tauto).
  assert (forall k, same_character k k) as QK_refl
      by (intros k; unfold same_character; tauto).
  split; [|intros self].
  - destruct (Kanji_append_to_notes popularize fuel string w) as [o w'] eqn:E.
    refine (keeps_Kanji_append_to_notes same_character same_sound
              QK_refl same_character_trans Q_refl same_sound_trans
              _ _ _ _ _ _ _ _ _ _ _ popularize fuel string w o w' E);
      intros; try apply QK_refl; try apply Q_refl;
      unfold same_sound, same_character; simpl; tauto.
  - destruct (Reading_append_to_notes popularize fuel self string w) as [o w'] eqn:E.
    refine (keeps_Reading_append_to_notes same_character same_sound
              QK_refl same_character_trans Q_refl same_sound_trans
              _ _ _ _ _ _ _ popularize fuel self string w o w' E);
      intros; try apply QK_refl; try apply Q_refl;
      unfold same_sound, same_character; simpl; tauto.
Qed.

(** ** The list of readings stays well formed *)

Lemma registry_evolves_of {QK : Kanji -> Kanji -> Prop} {Q : Reading -> Reading -> Prop}
      (w w' : World) : evolves QK Q w w' -> registry_evolves w w'.
Proof. now intros [H _]. Qed.

Lemma Kanji_add_reading_registry (rd : ustring) (k v : option ustring) (w : World) :
  registry_evolves w (snd (Kanji_add_reading rd k v w)).
Proof.
  destruct (Kanji_add_reading rd k v w) as [o w'] eqn:E.
  apply (@registry_evolves_of (fun _ _ => True) (fun _ _ => True)).
  now refine (keeps_Kanji_add_reading _ _ _ _ _ rd k v w o w' E).
Qed.

Lemma Reading_add_examples_registry (popularize : ustring -> ustring) (fuel self : nat)
      (s : ustring) (w : World) :
  registry_evolves w (snd (Reading_add_examples popularize fuel self s w)).
Proof.
  destruct (Reading_add_examples popularize fuel self s w) as [o w'] eqn:E.
  apply (@registry_evolves_of (fun _ _ => True) (fun _ _ => True)).
  now refine (keeps_Reading_add_examples _ _ _ _ _ _ _ _ _ popularize fuel self s w o w' E).
Qed.

Lemma Kanji_append_to_notes_registry (popularize : ustring -> ustring) (fuel : nat)
      (s : ustring) (w : World) :
  registry_evolves w (snd (Kanji_append_to_notes popularize fuel s w)).
Proof.
  destruct (Kanji_append_to_notes popularize fuel s w) as [o w'] eqn:E.
  apply (@registry_evolves_of (fun _ _ => True) (fun _ _ => True)).
  now refine (keeps_Kanji_append_to_notes _ _ _ _ _ _ _ _ _ _ _ _ _ _ _ _ _
                popularize fuel s w o w' E).
Qed.

(** X8. When the references of the list of readings are distinct and each
    one points to a Reading object, they still are after [Kanji.add_reading],
    after [Reading.add_examples] and after [Kanji.append_to_notes], whether
    the call returns or raises: no reading is listed twice and none is
    dangling, also after the readings were swapped and new ones inserted. *)
Theorem well_formed_preserved (popularize : ustring -> ustring) (fuel : nat) (w : World) :
  well_formed w ->
  (forall rd k v, well_formed (snd (Kanji_add_reading rd k v w))) /\
  (forall self s, well_formed (snd (Reading_add_examples popularize fuel self s w))) /\
  (forall s, well_formed (snd (Kanji_append_to_notes popularize fuel s w))).
Proof.
  intros Hw. split; [|split]; intros.
  - eapply registry_evolves_well_formed; [apply Kanji_add_reading_registry|exact Hw].
  - eapply registry_evolves_well_formed; [apply Reading_add_examples_registry|exact Hw].
  - eapply registry_evolves_well_formed; [apply Kanji_append_to_notes_registry|exact Hw].
Qed.

Lemma well_formed_preserved_witness :
  well_formed river /\
  well_formed (snd (Reading_add_examples joyo_popularize 3 1 (u "川，川岸") river)).
Proof.
  assert (well_formed river) as Hw.
  { split.
    - change (readings (the_kanji river)) with [0; 1]%nat.
      repeat (apply NoDup_cons; split; [rewrite ?elem_of_cons, elem_of_nil; lia|]).
      apply NoDup_nil_2.
    - change (readings (the_kanji river)) with [0; 1]%nat.
      change (length (store river)) with 2%nat.
      intros i Hi. repeat (apply elem_of_cons in Hi as [->|Hi]; [lia|]).
      now apply elem_of_nil in Hi. }
  split; [exact Hw|].
  apply (well_formed_preserved joyo_popularize 3 river Hw).
Defined.

(** ** The old forms of a kanji *)

Lemma add_old_kanji_list (s : ustring) (x : ustring) (l : list ustring) (w : World) :
  kanji (the_kanji w) = u "弁" ->
  old_kanji (the_kanji w) = OldList (x :: l) ->
  Kanji_add_old_kanji s w =
  (Ret tt, mkWorld (set_old_kanji (OldList (x :: l ++ [s])) (the_kanji w)) (store w)).
Proof.
  intros Hk Ho. unfold Kanji_add_old_kanji, get_kanji, mbind, M_bind.
  now rewrite Ho, Hk, ueqb_refl.
Qed.

Lemma add_old_kanji_all (rest : list ustring) (x : ustring) (l : list ustring)
      (w : World) :
  kanji (the_kanji w) = u "弁" ->
  old_kanji (the_kanji w) = OldList (x :: l) ->
  for_each (fun s => Kanji_add_old_kanji s;; mret Next) rest w =
  (Ret Next, mkWorld (set_old_kanji (OldList (x :: l ++ rest)) (the_kanji w)) (store w)).
Proof.
  revert l w; induction rest as [|s rest IH]; intros l w Hk Ho.
  - simpl. rewrite app_nil_r, <- Ho. now destruct w as [[] ?].
  - cbn [for_each].
    erewrite bind_ret
      by (erewrite bind_ret by (apply add_old_kanji_list; eassumption); reflexivity).
    rewrite (IH (l ++ [s])) by (simpl; auto). simpl. now rewrite <- app_assoc.
Qed.

(** X9. [Kanji.add_old_kanji] called with the forms [first], then those of
    [rest], on 弁 without old forms: a single form is stored as the string
    itself; with more forms the result is a list that holds the characters
    of [first], one by one, followed by the forms of [rest] in their order,
    which is the list of the forms when [first] is one character.  On any
    other kanji that has a form already the call raises AssertionError and
    changes nothing. *)
Theorem add_old_kanji_accumulates (first : ustring) (rest : list ustring) (w : World) :
  old_kanji (the_kanji w) = OldNone ->
  first <> [] ->
  (kanji (the_kanji w) = u "弁" ->
   for_each (fun s => Kanji_add_old_kanji s;; mret Next) (first :: rest) w =
   (Ret Next,
    mkWorld (set_old_kanji
               match rest with
               | [] => OldStr first
               | _ => OldList (map (fun c => [c]) first ++ rest)
               end (the_kanji w))
            (store w))) /\
  (kanji (the_kanji w) <> u "弁" ->
   forall s,
     (Kanji_add_old_kanji first;; Kanji_add_old_kanji s) w =
     (Raise AssertionError,
      mkWorld (set_old_kanji (OldStr first) (the_kanji w)) (store w))).
Proof.
  intros Ho Hf. destruct first as [|c first]; [congruence|].
  assert (Kanji_add_old_kanji (c :: first) w =
          (Ret tt, mkWorld (set_old_kanji (OldStr (c :: first)) (the_kanji w)) (store w)))
    as Hfirst.
  { unfold Kanji_add_old_kanji, get_kanji, mbind, M_bind. now rewrite Ho. }
  split.
  - intros Hk. cbn [for_each].
    erewrite bind_ret by (erewrite bind_ret by exact Hfirst; reflexivity).
    destruct rest as [|s rest]; [reflexivity|].
    cbn [for_each].
    erewrite bind_ret; cycle 1.
    { erewrite bind_ret; [reflexivity|].
      unfold Kanji_add_old_kanji, get_kanji, mbind, M_bind.
      cbn [the_kanji old_kanji set_old_kanji kanji].
      rewrite Hk, ueqb_refl. reflexivity. }
    erewrite (add_old_kanji_all rest [c] (map (fun c => [c]) first ++ [s]));
      [|exact Hk|reflexivity].
    cbn. now rewrite <- app_assoc.
  - intros Hk s. erewrite bind_ret by exact Hfirst.
    unfold Kanji_add_old_kanji, get_kanji, mbind, M_bind.
    cbn [the_kanji old_kanji set_old_kanji kanji].
    destruct (ueqb (kanji (the_kanji w)) (u "弁")) eqn:E; [|reflexivity].
    now apply ueqb_spec in E.
Qed.

Lemma add_old_kanji_accumulates_witness :
  old_kanji (the_kanji (snd (for_each (fun s => Kanji_add_old_kanji s;; mret Next)
                              [u "辨"; u "瓣"; u "辯"] (entry "弁" [])))) =
  OldList [u "辨"; u "瓣"; u "辯"].
Proof.
  destruct (add_old_kanji_accumulates (u "辨") [u "瓣"; u "辯"] (entry "弁" []))
    as [H _]; [reflexivity|discriminate|].
  rewrite H by reflexivity. reflexivity.
Defined.

(** ** Kanji-scoped notes *)

Lemma lstrip_spaces_app (a x : ustring) :
  forallb is_space a = true -> lstrip (a ++ x) = lstrip x.
Proof.
  induction a as [|c a IH]; [reflexivity|]. cbn [forallb app lstrip].
  intros [-> H]%andb_true_iff. auto.
Qed.

Lemma lstrip_app_kept (x y : ustring) :
  lstrip x <> [] -> lstrip (x ++ y) = lstrip x ++ y.
Proof.
  induction x as [|c x IH]; [now intros []|]. cbn [app lstrip].
  destruct (is_space c); auto.
Qed.

Lemma lstrip_nil_spaces (x : ustring) : lstrip x = [] -> forallb is_space x = true.
Proof.
  induction x as [|c x IH]; [reflexivity|]. cbn [lstrip forallb].
  destruct (is_space c); [auto|discriminate].
Qed.

Lemma forallb_rev {A : Type} (f : A -> bool) (l : list A) :
  forallb f (rev l) = forallb f l.
Proof.
  induction l as [|x l IH]; [reflexivity|]. cbn [rev forallb].
  rewrite forallb_app, IH. cbn [forallb]. rewrite andb_true_r. apply andb_comm.
Qed.

Lemma strip_margins (a s b : ustring) :
  forallb is_space a = true -> forallb is_space b = true ->
  strip (a ++ s ++ b) = strip s.
Proof.
  intros Ha Hb. unfold strip. rewrite (lstrip_spaces_app a) by exact Ha.
  destruct (lstrip s) as [|c t] eqn:E.
  - rewrite (lstrip_spaces_app s) by now apply lstrip_nil_spaces.
    rewrite <- (app_nil_r b), (lstrip_spaces_app b) by exact Hb. reflexivity.
  - rewrite lstrip_app_kept by congruence. rewrite E, rev_app_distr.
    rewrite lstrip_spaces_app by now rewrite forallb_rev. reflexivity.
Qed.

(** X10. [Kanji.append_to_notes] ignores the white space around the note
    line: with any white space before and after the line, a line feed
    included, it does what it does with the line alone, to the same
    result. *)
Theorem Kanji_append_to_notes_margins (popularize : ustring -> ustring) (fuel : nat)
        (a string b : ustring) (w : World) :
  forallb is_space a = true -> forallb is_space b = true ->
  Kanji_append_to_notes popularize fuel (a ++ string ++ b) w =
  Kanji_append_to_notes popularize fuel string w.
Proof.
  intros Ha Hb. unfold Kanji_append_to_notes. now rewrite strip_margins.
Qed.

Lemma Kanji_append_to_notes_margins_witness :
  Kanji_append_to_notes joyo_popularize 3 ([0x3000%N; ch " "] ++ castle_note ++ [LF]) castle =
  Kanji_append_to_notes joyo_popularize 3 castle_note castle.
Proof.
  apply (Kanji_append_to_notes_margins joyo_popularize 3 [0x3000%N; ch " "] castle_note [LF]);
    reflexivity.
Defined.

Lemma split_on_nonempty (sep : N) (s : ustring) : split_on sep s <> [].
Proof.
  induction s as [|x s IH]; [discriminate|]. cbn [split_on].
  destruct (x =? sep)%N; [discriminate|]. now destruct (split_on sep s).
Qed.

Lemma same_but_tables_refl (k : Kanji) : same_but_tables k k.
Proof. now destruct k. Qed.

Lemma same_but_tables_trans (a b c : Kanji) :
  same_but_tables a b -> same_but_tables b c -> same_but_tables a c.
Proof.
  unfold same_but_tables. destruct a, b, c. cbn.
  intros [= -> -> -> -> -> -> -> -> ->] [= -> -> -> -> -> -> -> -> ->]. reflexivity.
Qed.

Lemma for_each_update_tables {A : Type} (f : A -> Kanji -> Kanji) (l : list A) (w : World) :
  (forall x k, same_but_tables k (f x k)) ->
  exists k', for_each (fun x => update_kanji (f x);; mret Next) l w =
             (Ret Next, mkWorld k' (store w)) /\
             same_but_tables (the_kanji w) k'.
Proof.
  intros Hf. revert w; induction l as [|x l IH]; intros w.
  - exists (the_kanji w). split; [now destruct w|apply same_but_tables_refl].
  - destruct (IH (mkWorld (f x (the_kanji w)) (store w))) as (k' & E & P).
    exists k'. split; [exact E|].
    eapply same_but_tables_trans; [apply Hf|exact P].
Qed.

Lemma compound_part_outcome (part : ustring) (w : World) :
  (exists k', compound_part part w = (Ret Return, mkWorld k' (store w)) /\
              same_but_tables (the_kanji w) k') \/
  compound_part part w = (Raise TypeError, w).
Proof.
  unfold compound_part. destruct (re_match COMPOUND_PART part) as [m|]; [left|now right].
  match goal with
  | |- context [if ?c then _ else _] => destruct c
  end.
  - destruct (for_each_update_tables
                (fun ort k => set_placename_readings
                                (<[ort := group 3 (caps m)]> (placename_readings k)) k)
                (split_on (ch "・") (group 2 (caps m))) w) as (k' & E & P);
      [intros x k; now destruct k|].
    exists k'. split; [|exact P].
    unfold Kanji_add_placename_reading. now erewrite bind_ret by exact E.
  - destruct (for_each_update_tables
                (fun ort k => set_compound_readings
                                (<[group 1 (caps m) ++ ort ++ group 4 (caps m) :=
                                   group 1 (caps m) ++ group 3 (caps m) ++ group 4 (caps m)]>
                                 (compound_readings k)) k)
                (split_on (ch "・") (group 2 (caps m))) w) as (k' & E & P);
      [intros x k; now destruct k|].
    exists k'. split; [|exact P].
    unfold Kanji_add_compound_reading. now erewrite bind_ret by exact E.
Qed.

(** X11. A note line that matches the compound pattern (and neither the
    accepted-form nor the appendix pattern) is never passed on to a
    reading: [Kanji.append_to_notes] returns, or raises TypeError when the
    first segment does not match the pattern to its end; the Reading
    objects are untouched, the notes of the kanji are the stripped line,
    and nothing else of the kanji changes but the two tables of placename
    and compound readings.  With the TypeError the tables are unchanged
    too, and the notes stay set. *)
Theorem compound_note_outcome (popularize : ustring -> ustring) (fuel : nat)
        (string : ustring) (w : World) :
  re_match ACCEPTED_FORM (strip string) = None ->
  re_match APPENDIX (strip string) = None ->
  re_match COMPOUND (strip string) <> None ->
  let out := Kanji_append_to_notes popularize fuel string w in
  (fst out = Ret tt \/ fst out = Raise TypeError) /\
  store (snd out) = store w /\
  same_but_tables (set_notes (strip string) (the_kanji w)) (the_kanji (snd out)) /\
  (fst out = Raise TypeError ->
   snd out = mkWorld (set_notes (strip string) (the_kanji w)) (store w)).
Proof.
  intros H1 H2 H3. cbv zeta. unfold Kanji_append_to_notes. cbv zeta.
  rewrite H1, H2. cbn [is_some].
  destruct (re_match COMPOUND (strip string)) as [m|]; [clear H3|congruence].
  cbn [is_some].
  erewrite bind_ret by reflexivity.
  set (w1 := mkWorld (set_notes (strip string) (the_kanji w)) (store w)).
  destruct (split_on (ch "，") (strip string)) as [|p ps] eqn:Es;
    [now apply split_on_nonempty in Es|].
  cbn [for_each].
  destruct (compound_part_outcome p w1) as [(k' & E & P)|E].
  - erewrite bind_ret by (erewrite bind_ret by exact E; reflexivity).
    cbn. split; [now left|]. split; [reflexivity|]. split; [exact P|discriminate].
  - erewrite bind_raise by (erewrite bind_raise by exact E; reflexivity).
    cbn. split; [now right|]. split; [reflexivity|].
    split; [apply same_but_tables_refl|reflexivity].
Qed.

Lemma compound_note_outcome_witness :
  fst (Kanji_append_to_notes joyo_popularize 3 castle_note castle) = Ret tt \/
  fst (Kanji_append_to_notes joyo_popularize 3 castle_note castle) = Raise TypeError.
Proof.
  assert (re_match ACCEPTED_FORM (strip castle_note) = None) as H1
      by (vm_compute; reflexivity).
  assert (re_match APPENDIX (strip castle_note) = None) as H2
      by (vm_compute; reflexivity).
  assert (re_match COMPOUND (strip castle_note) <> None) as H3
      by (vm_compute; discriminate).
  exact (proj1 (compound_note_outcome joyo_popularize 3 castle_note castle H1 H2 H3)).
Defined.

Lemma match_first_char (c : N) (r : re) (s : ustring) :
  re_match (Seq (Chr c) r) s <> None -> exists t, s = c :: t.
Proof.
  unfold re_match, match_at. cbn [m]. unfold step1. cbn [rest].
  destruct s as [|x t]; [congruence|].
  destruct (x =? c)%N eqn:E; [|congruence]. apply N.eqb_eq in E. subst. eauto.
Qed.

Lemma appendix_not_accepted_form (s : ustring) :
  re_match APPENDIX s <> None -> re_match ACCEPTED_FORM s = None.
Proof.
  intros [t ->]%match_first_char.
  destruct (re_match ACCEPTED_FORM _) eqn:E; [|reflexivity].
  assert (re_match ACCEPTED_FORM (65290%N :: t) <> None) as H by congruence.
  apply match_first_char in H as [t' H]. discriminate H.
Qed.

(** X12. The two lines of a note on an accepted form: a line matching the
    accepted-form pattern followed by a line matching the appendix pattern
    leave the kanji with the first line (stripped) followed by the
    reference of the second as its notes, the reference as its
    documentation section, and no pending note; no Reading object is
    touched.  An appendix line alone replaces the notes by its reference
    when no note is pending, and is appended to them when one is, also when
    it was a note of a reading that set the flag. *)
Theorem accepted_form_then_appendix (popularize : ustring -> ustring) (fuel : nat)
        (line1 line2 : ustring) (m2 : mstate) (w : World) :
  re_match ACCEPTED_FORM (strip line1) <> None ->
  re_match APPENDIX (strip line2) = Some m2 ->
  let reference := group 1 (caps m2) in
  (Kanji_append_to_notes popularize fuel line1;;
   Kanji_append_to_notes popularize fuel line2) w =
  (Ret tt,
   mkWorld (set_joyo_documentation (Some reference)
              (set_pending_note false
                 (set_notes (strip line1 ++ reference) (the_kanji w))))
           (store w)) /\
  Kanji_append_to_notes popularize fuel line2 w =
  (Ret tt,
   mkWorld (set_joyo_documentation (Some reference)
              (if pending_note (the_kanji w)
               then set_pending_note false
                      (set_notes (notes (the_kanji w) ++ reference) (the_kanji w))
               else set_notes reference (the_kanji w)))
           (store w)).
Proof.
  intros H1 H2. cbv zeta.
  assert (forall w1, Kanji_append_to_notes popularize fuel line2 w1 =
    (Ret tt,
     mkWorld (set_joyo_documentation (Some (group 1 (caps m2)))
                (if pending_note (the_kanji w1)
                 then set_pending_note false
                        (set_notes (notes (the_kanji w1) ++ group 1 (caps m2)) (the_kanji w1))
                 else set_notes (group 1 (caps m2)) (the_kanji w1)))
             (store w1))) as Happ.
  { intros w1. unfold Kanji_append_to_notes. cbv zeta.
    rewrite appendix_not_accepted_form by congruence. cbn [is_some]. rewrite H2.
    rewrite get_kanji_bind. now destruct (pending_note (the_kanji w1)). }
  split; [|apply Happ].
  erewrite bind_ret; cycle 1.
  { unfold Kanji_append_to_notes. cbv zeta.
    destruct (re_match ACCEPTED_FORM (strip line1)); [|congruence]. reflexivity. }
  rewrite Happ. reflexivity.
Qed.

Lemma accepted_form_then_appendix_witness :
  notes (the_kanji (snd ((Kanji_append_to_notes joyo_popularize 3 (u "［餌］＝許容字体，");;
                          Kanji_append_to_notes joyo_popularize 3 (u "＊［（付）第２の３参照］"))
                           (entry "餌" ["ジ"; "えさ"]%string)))) =
  u "［餌］＝許容字体，（付）第２の３".
Proof.
  assert (re_match ACCEPTED_FORM (strip (u "［餌］＝許容字体，")) <> None) as H1
      by (vm_compute; discriminate).
  destruct (re_match APPENDIX (strip (u "＊［（付）第２の３参照］"))) as [m2|] eqn:E;
    [|vm_compute in E; discriminate E].
  destruct (accepted_form_then_appendix joyo_popularize 3 _ _ m2
              (entry "餌" ["ジ"; "えさ"]%string) H1 E) as [H _].
  rewrite H. cbn [snd the_kanji notes set_joyo_documentation set_pending_note set_notes].
  vm_compute in E. injection E as <-. reflexivity.
Defined.

(** ** Notes in two lines *)

Lemma opens_note_ordinary (string : ustring) :
  opens_note string = true -> ueqb string (u "「憂き」は，文語の連体形。") = false.
Proof.
  intros H. destruct (ueqb string _) eqn:E; [|reflexivity].
  apply ueqb_spec in E. subst string. vm_compute in H. discriminate H.
Qed.

Lemma closes_note_ordinary (string : ustring) :
  closes_note string = true -> ueqb string (u "「憂き」は，文語の連体形。") = false.
Proof.
  intros H. destruct (ueqb string _) eqn:E; [|reflexivity].
  apply ueqb_spec in E. subst string. vm_compute in H. discriminate H.
Qed.

Lemma opens_note_run (popularize : ustring -> ustring) (fuel self : nat)
      (string : ustring) (r : Reading) (w : World) :
  store w !! self = Some r ->
  opens_note string = true ->
  string <> [] /\
  Reading_append_to_notes popularize fuel self string w =
  (Ret tt, mkWorld (set_pending_note true (the_kanji w))
                   (<[self := set_rnotes string r]> (store w))).
Proof.
  intros Hs Ho. pose proof (opens_note_ordinary _ Ho) as Hu.
  split; [intros ->; vm_compute in Ho; discriminate Ho|].
  unfold opens_note in Ho.
  apply andb_true_iff in Ho as [Ho H4]. apply andb_true_iff in Ho as [Ho H3].
  apply andb_true_iff in Ho as [H1 H2].
  apply negb_true_iff in H1, H2, H4.
  rewrite not_hardcoded by exact H1. rewrite Hu. rewrite M_ret_bind.
  unfold note_rules.
  destruct (re_match ALTERNATE string); [discriminate H2|].
  rewrite H3, H4.
  now rewrite (bind_ret _ _ _ _ _ (update_reading_ok _ _ _ _ Hs)).
Qed.

Lemma closes_note_rules (popularize : ustring -> ustring) (fuel self : nat)
      (string : ustring) (w : World) :
  closes_note string = true ->
  pending_note (the_kanji w) = true ->
  Reading_append_to_notes popularize fuel self string w =
  (r ← deref self;
   match rnotes r with
   | _ :: _ => update_reading self (fun r => set_rnotes (rnotes r ++ string) r)
   | [] =>
     previous ← index_from_end 2 (readings (the_kanji w));
     r2 ← deref previous;
     match rnotes r2 with
     | _ :: _ => update_reading previous (fun r => set_rnotes (rnotes r ++ string) r)
     | [] => raise (ValueError half_note)
     end
   end;;
   update_kanji (set_pending_note false)) w.
Proof.
  intros Hc Hp. pose proof (closes_note_ordinary _ Hc) as Hu.
  unfold closes_note, no_earlier_rule in Hc.
  apply andb_true_iff in Hc as [Hc H5]. apply andb_true_iff in Hc as [Hc H4].
  apply andb_true_iff in Hc as [Hc H3]. apply andb_true_iff in Hc as [H1 H2].
  apply negb_true_iff in H1, H2, H3, H4.
  rewrite not_hardcoded by exact H1. rewrite Hu. rewrite M_ret_bind.
  unfold note_rules.
  destruct (re_match ALTERNATE string); [discriminate H2|].
  rewrite H3, H4, get_kanji_bind, Hp, H5. reflexivity.
Qed.

(** X13. A note of a reading in two lines.  When the first line is taken by
    the opener rule and does not end in 。, and the second is taken by the
    continuation rule, the note of the reading is the first line followed by
    the second, and no note is pending afterwards; nothing else changes.
    This holds when both lines arrive at the same reading, and also when a
    new reading was added to the kanji in between and the second line
    arrives there: the line is appended to the note of the reading before
    it, and the new reading stays without note. *)
Theorem note_in_two_lines (popularize : ustring -> ustring) (fuel self : nat)
        (line1 line2 : ustring) (r : Reading) (w : World) :
  store w !! self = Some r ->
  opens_note line1 = true ->
  closes_note line2 = true ->
  (Reading_append_to_notes popularize fuel self line1;;
   Reading_append_to_notes popularize fuel self line2) w =
  (Ret tt, mkWorld (set_pending_note false (the_kanji w))
                   (<[self := set_rnotes (line1 ++ line2) r]> (store w))) /\
  (forall l rd k v r',
     readings (the_kanji w) = l ++ [self] ->
     Reading_init rd v k = Ret r' ->
     (Reading_append_to_notes popularize fuel self line1;;
      Kanji_add_reading rd k v;;
      Reading_append_to_notes popularize fuel (length (store w)) line2) w =
     (Ret tt,
      mkWorld (set_pending_note false
                 (set_readings (l ++ [self; length (store w)]) (the_kanji w)))
              (<[self := set_rnotes (line1 ++ line2) r]> (store w) ++ [r']))).
Proof.
  intros Hs Ho Hc.
  assert (self < length (store w))%nat as Hlt by (eapply lookup_lt_Some; eauto).
  destruct (opens_note_run popularize fuel self line1 r w Hs Ho) as [Hne H1].
  destruct line1 as [|c line1]; [congruence|]. clear Hne.
  split.
  - rewrite (bind_ret _ _ _ _ _ H1).
    rewrite closes_note_rules by (exact Hc || reflexivity).
    erewrite bind_ret by (apply deref_ok; cbn [store]; now apply list_lookup_insert_eq).
    cbn [rnotes set_rnotes].
    erewrite bind_ret by (apply update_reading_ok; cbn [store];
                          now apply list_lookup_insert_eq).
    unfold update_kanji. cbn [the_kanji store set_rnotes rnotes].
    rewrite list_insert_insert_eq. reflexivity.
  - intros l rd k v r' Hl Hi.
    rewrite (bind_ret _ _ _ _ _ H1).
    rewrite (bind_ret _ _ _ _ _ (Kanji_add_reading_ok _ _ _ _ _ Hi)).
    cbn [the_kanji store readings set_pending_note].
    rewrite length_insert, Hl.
    rewrite closes_note_rules by (exact Hc || reflexivity).
    assert (Reading_init rd v k = Ret r' -> rnotes r' = []) as Hr'.
    { unfold Reading_init. destruct rd; [discriminate|].
      destruct (_ =? _)%N; intros [= <-]; reflexivity. }
    erewrite bind_ret; cycle 1.
    { apply deref_ok. cbn [store].
      rewrite lookup_app_r by (rewrite length_insert; lia).
      rewrite length_insert, Nat.sub_diag. reflexivity. }
    rewrite Hr' by exact Hi.
    cbn [the_kanji readings set_readings set_pending_note].
    unfold index_from_end.
    replace ((l ++ [self]) ++ [length (store w)]) with (l ++ [self; length (store w)])
      by now rewrite <- app_assoc.
    rewrite neg_index_second.
    erewrite bind_ret; cycle 1.
    { rewrite M_ret_bind.
      erewrite bind_ret; cycle 1.
      { apply deref_ok. cbn [store]. rewrite lookup_app_l by (rewrite length_insert; lia).
        now apply list_lookup_insert_eq. }
      cbn [rnotes set_rnotes]. apply update_reading_ok. cbn [store].
      rewrite lookup_app_l by (rewrite length_insert; lia).
      now apply list_lookup_insert_eq. }
    unfold update_kanji. cbn [the_kanji store set_rnotes rnotes].
    f_equal. f_equal.
    rewrite insert_app_l by (rewrite length_insert; lia).
    now rewrite list_insert_insert_eq.
Qed.

Lemma note_in_two_lines_witness :
  option_map rnotes
    (store (snd ((Reading_append_to_notes joyo_popularize 3 1 (u "「河岸」などは，");;
                  Reading_append_to_notes joyo_popularize 3 1 (u "「かし」。")) river)) !! 1%nat)
  = Some (u "「河岸」などは，「かし」。").
Proof.
  destruct (store river !! 1%nat) as [r|] eqn:Hs; [|vm_compute in Hs; discriminate Hs].
  assert (opens_note (u "「河岸」などは，") = true) as Ho by (vm_compute; reflexivity).
  assert (closes_note (u "「かし」。") = true) as Hc by (vm_compute; reflexivity).
  destruct (note_in_two_lines joyo_popularize 3 1 _ _ r river Hs Ho Hc) as [H _].
  rewrite H. cbn [snd store].
  rewrite list_lookup_insert_eq by (vm_compute; lia). reflexivity.
Defined.

(** ** Examples that agree *)

Lemma set_examples_same (r : Reading) : set_examples (examples r) r = r.
Proof. now destruct r. Qed.

Lemma gloss_loop_no_gloss (recur : nat -> ustring -> M unit) (self : nat)
      (l : list ustring) (r : Reading) (w : World) :
  no_gloss l = true ->
  store w !! self = Some r ->
  gloss_loop recur self l w =
  (Ret tt, mkWorld (the_kanji w)
                   (<[self := set_examples (examples r ++ map Example_init l) r]> (store w))).
Proof.
  revert r w; induction l as [|e l IH]; intros r w Hl Hs.
  - cbn [map gloss_loop]. rewrite app_nil_r, set_examples_same, list_insert_id by exact Hs.
    now destruct w.
  - cbn [no_gloss forallb] in Hl. apply andb_true_iff in Hl as [He Hl].
    apply negb_true_iff in He.
    destruct (re_match GLOSS e) eqn:E; [discriminate He|].
    rewrite (gloss_loop_plain _ _ _ _ _ _ E Hs).
    assert (self < length (store w))%nat as Hlt by (eapply lookup_lt_Some; eauto).
    erewrite IH; [|exact Hl|cbn [store]; now apply list_lookup_insert_eq].
    cbn [the_kanji store examples set_examples map].
    rewrite list_insert_insert_eq, <- app_assoc. reflexivity.
Qed.

Section Agreement.

Variable recur : nat -> ustring -> M unit.
Variables (self : nat) (K : Kanji) (st : list Reading) (r : Reading).
Variables (all : list Example) (d : ustring).

Let clean := undot (reading r).
Let W (cur : ustring) : World :=
  mkWorld K (<[self := set_reading cur (set_examples all r)]> st).
Let current (i : nat) : ustring :=
  if existsb (yields_dot (kanji K) clean) (take i all) then d else reading r.

Hypothesis Hself : (self < length st)%nat.
Hypothesis Hstart : reading r = clean \/ reading r = d.
Hypothesis Hall : forallb (agrees (kanji K) clean d) all = true.

Lemma okurigana_loop_agreeing (n i : nat) :
  (n + i = length all)%nat ->
  okurigana_loop recur self n i clean (W (current i)) =
  (Ret tt, W (current (length all))).
Proof.
  revert i; induction n as [|n IH]; intros i Hn.
  - cbn [okurigana_loop]. simpl in Hn. now subst i.
  - cbn [okurigana_loop].
    assert (store (W (current i)) !! self = Some (set_reading (current i) (set_examples all r)))
      as Hs by (cbn [W store]; now apply list_lookup_insert_eq).
    rewrite (bind_ret _ _ _ _ _ (deref_ok _ _ _ Hs)).
    cbn [examples set_reading set_examples].
    destruct (all !! i) as [ex|] eqn:Ei;
      [|apply lookup_ge_None in Ei; lia].
    rewrite get_kanji_bind. cbn [the_kanji W].
    assert (current (S i) =
            if yields_dot (kanji K) clean ex then d else current i) as Hnext.
    { unfold current. rewrite (take_S_r _ _ _ Ei), existsb_app. cbn [existsb].
      rewrite orb_false_r.
      destruct (existsb _ (take i all)), (yields_dot (kanji K) clean ex); reflexivity. }
    assert (agrees (kanji K) clean d ex = true) as Hag.
    { rewrite forallb_forall in Hall. apply Hall.
      apply list_elem_of_In. eapply list_elem_of_lookup_2; eauto. }
    unfold agrees in Hag. unfold yields_dot in Hnext.
    destruct (delimit_okurigana (kanji K) clean (example ex)) as [d'| |] eqn:Ed;
      try discriminate Hag.
    erewrite bind_ret by (unfold lift; reflexivity).
    cbn [reading set_reading].
    destruct (contains (u ".") d') eqn:Edot.
    + cbn [negb orb] in Hag. apply ueqb_spec in Hag. subst d'.
      destruct (ueqb clean (current i)) eqn:Ec.
      * erewrite bind_ret by (apply update_reading_ok; exact Hs).
        cbn [the_kanji store W set_reading set_examples uncommon examples kind
             variation_of rnotes alternate_orthographies].
        rewrite list_insert_insert_eq.
        change (mkWorld K (<[self := set_reading d (set_examples all r)]> st)) with (W d).
        rewrite <- Hnext. apply IH. lia.
      * assert (current i = d) as Hcur.
        { unfold current in *. destruct (existsb _ (take i all)); [reflexivity|].
          destruct Hstart as [H|H]; [|exact H].
          rewrite <- H, ueqb_refl in Ec. discriminate Ec. }
        rewrite Hcur, ueqb_refl. cbn [negb].
        rewrite <- Hnext. apply IH. lia.
    + rewrite <- Hnext. apply IH. lia.
Qed.

End Agreement.



(** ** The markers of an example *)

Lemma replace_aux_sublist (old : ustring) (skip : nat) (s : ustring) :
  sublist (replace_aux old [] skip s) s.
Proof.
  revert skip; induction s as [|x s IH]; intros skip; cbn [replace_aux].
  - constructor.
  - destruct skip as [|k]; [|now apply sublist_cons].
    destruct (starts_with old (x :: s)); cbn [app].
    + now apply sublist_cons.
    + now apply sublist_skip.
Qed.

Lemma suffix_mark_prefix (e : ustring) :
  is_some (re_match SUFFIX_MARK e) = starts_with (u "……") e.
Proof.
  unfold re_match, match_at. cbn [SUFFIX_MARK m at_ Nat.eqb]. unfold step1. cbn [rest].
  destruct e as [|a e]; [reflexivity|].
  change (u "……") with [8230%N; 8230%N]. cbn [starts_with].
  rewrite (N.eqb_sym 8230 a). destruct (a =? 8230)%N; [|reflexivity].
  cbn [at_ rest caps andb]. destruct e as [|b e]; [reflexivity|].
  rewrite (N.eqb_sym 8230 b). destruct (b =? 8230)%N; reflexivity.
Qed.

(** X15. The part of speech of an example is read off its markers in a
    fixed order: Adverb when it holds 〔副〕 anywhere, else Conjunction when it
    holds 〔接〕 anywhere, else Suffix when it starts with ……, a marker
    further in not counting; without a part of speech the text is the string
    as given.  In every case the text is the string with characters taken
    out at most, in the same order, and the example is not marked
    literary. *)
Theorem Example_init_markers (e : ustring) :
  let ex := Example_init e in
  (pos ex = Some (u "Adverb") <-> contains (u "〔副〕") e = true) /\
  (pos ex = Some (u "Conjunction") <->
   contains (u "〔副〕") e = false /\ contains (u "〔接〕") e = true) /\
  (pos ex = Some (u "Suffix") <->
   contains (u "〔副〕") e = false /\ contains (u "〔接〕") e = false /\
   starts_with (u "……") e = true) /\
  (pos ex = None -> example ex = e) /\
  sublist (example ex) e /\
  literary ex = false.
Proof.
  cbv zeta. unfold Example_init. rewrite suffix_mark_prefix.
  assert (u "Adverb" <> u "Conjunction") as H1 by (vm_compute; discriminate).
  assert (u "Adverb" <> u "Suffix") as H2 by (vm_compute; discriminate).
  assert (u "Conjunction" <> u "Suffix") as H3 by (vm_compute; discriminate).
  destruct (contains (u "〔副〕") e); [|destruct (contains (u "〔接〕") e);
    [|destruct (starts_with (u "……") e)]];
    cbn [pos example literary];
    (split; [|split; [|split; [|split; [|split; [|reflexivity]]]]]);
    try (apply replace_aux_sublist);
    try reflexivity;
    try (intros H; discriminate H);
    try (split; [intros H|intros H]);
    try tauto; try congruence;
    try (exfalso; injection H; congruence);
    try (destruct H as [? ?]; congruence);
    try (destruct H as (? & ? & ?); congruence).
Qed.

(** ** The note of the alternate orthographies *)

Lemma star_some (ma : matcher) (n : nat) (st : mstate) :
  is_some (star ma n st Some) = true.
Proof.
  destruct n as [|n]; [reflexivity|]. cbn [star].
  now destruct (ma st _).
Qed.

Lemma orthographies_first_char (s : ustring) :
  is_some (re_match ORTHOGRAPHIES s) = admissible_start s.
Proof.
  unfold re_match, match_at. cbn [ORTHOGRAPHIES m]. unfold step1. cbn [rest].
  destruct s as [|x s]; [reflexivity|]. cbn [admissible_start].
  change (ch "，") with 65292%N.
  destruct (cls_matches [CHan; CHiragana; CChar 65292] x); [|reflexivity].
  apply star_some.
Qed.

Lemma alternate_not_hardcoded (string : ustring) (m0 : mstate) :
  re_match ALTERNATE string = Some m0 ->
  existsb (ueqb string) hardcoded_notes = false /\
  ueqb string (u "「憂き」は，文語の連体形。") = false.
Proof.
  intros H. split.
  - destruct (existsb (ueqb string) hardcoded_notes) eqn:E; [|reflexivity].
    apply existsb_exists in E as (x & Hx & Ex). apply ueqb_spec in Ex. subst x.
    unfold hardcoded_notes in Hx. cbn [In] in Hx.
    repeat (destruct Hx as [<-|Hx]; [vm_compute in H; discriminate H|]).
    contradiction.
  - destruct (ueqb string _) eqn:E; [|reflexivity].
    apply ueqb_spec in E. subst string. vm_compute in H. discriminate H.
Qed.

(** X16. A note line that starts with ⇔ becomes the note of the reading,
    and the text after ⇔ and its blanks, split at ，, becomes the list of
    the alternate orthographies.  The check on that text looks at its
    first character only: when it is a kanji, a hiragana or ， the line is
    accepted, whatever follows; otherwise AssertionError is raised, and the
    note is stored all the same, with the alternate orthographies left as
    they were. *)
Theorem alternate_note (popularize : ustring -> ustring) (fuel self : nat)
        (string : ustring) (m0 : mstate) (r : Reading) (w : World) :
  store w !! self = Some r ->
  re_match ALTERNATE string = Some m0 ->
  Reading_append_to_notes popularize fuel self string w =
  if admissible_start (group 1 (caps m0))
  then (Ret tt,
        mkWorld (the_kanji w)
                (<[self := set_alternate_orthographies
                             (split_on (ch "，") (group 1 (caps m0)))
                             (set_rnotes string r)]> (store w)))
  else (Raise AssertionError,
        mkWorld (the_kanji w) (<[self := set_rnotes string r]> (store w))).
Proof.
  intros Hs Hm. destruct (alternate_not_hardcoded _ _ Hm) as [Hh Hu].
  assert (self < length (store w))%nat as Hlt by (eapply lookup_lt_Some; eauto).
  rewrite not_hardcoded by exact Hh. rewrite Hu, M_ret_bind.
  unfold note_rules. rewrite Hm.
  rewrite (bind_ret _ _ _ _ _ (update_reading_ok _ _ _ _ Hs)).
  rewrite orthographies_first_char.
  destruct (admissible_start (group 1 (caps m0))).
  - rewrite M_ret_bind.
    erewrite update_reading_ok by (cbn [store]; now apply list_lookup_insert_eq).
    cbn [the_kanji store]. now rewrite list_insert_insert_eq.
  - reflexivity.
Qed.

Lemma alternate_note_witness :
  option_map alternate_orthographies
    (store (snd (Reading_append_to_notes joyo_popularize 3 1 (u "⇔ 河，革") river)) !! 1%nat)
  = Some [u "河"; u "革"].
Proof.
  pose (r := mkReading (u "かわ") false [] (u "Kun") None [] []).
  assert (store river !! 1%nat = Some r) as Hs by (vm_compute; reflexivity).
  destruct (re_match ALTERNATE (u "⇔ 河，革")) as [m0|] eqn:Hm;
    [|vm_compute in Hm; discriminate Hm].
  pose proof (alternate_note joyo_popularize 3 1 _ m0 r river Hs Hm) as H.
  vm_compute in Hm. injection Hm as <-.
  rewrite H. vm_compute. reflexivity.
Defined.
